(** * InterDeepResearch: turn execution engine and citation tracing engine

    A shallow embedding of the Python backend
    ([IDR_backend/agents/baseAgent.py],
    [IDR_backend/data_models/project_models.py],
    [IDR_backend/agents/infoTraceAgent/infoTraceAgent.py]) and the
    properties its specification states about it.

    Conventions.
    - A Python [dict] with string keys is a [gmap string _]; a Python [list]
      is a [list]; [None] is the [None] of an [option] or the value [PNone].
    - A Python [str] is a [string] where it is an identifier, a key or a
      message, and a [list ascii] ([text]) where the code slices and searches
      it (code points below 256).
    - Code that can raise returns a [result]; code that mutates the agent
      state threads the state explicitly. *)

From stdpp Require Import gmap strings list fin_maps pretty sorting.
From Stdlib Require Import ZArith Lia Ascii.

Local Open Scope string_scope.
Local Open Scope Z_scope.
Local Open Scope list_scope.

(** ** Python values and exceptions *)

Module Py.

(** The JSON-like values that occur inside message dictionaries and
    tool-call arguments. *)
#[warnings="-register-all"]
Inductive pyval :=
| PNone
| PBool (b : bool)
| PInt (z : Z)
| PStr (s : string)
| PList (l : list pyval)
| PDict (kvs : list (string * pyval)).

(** Python truth value testing ([if v:], [not v], [a and b]). *)
Definition truthy (v : pyval) : bool :=
  match v with
  | PNone => false
  | PBool b => b
  | PInt z => negb (z =? 0)
  | PStr s => negb (bool_decide (s = ""))
  | PList l => match l with [] => false | _ => true end
  | PDict kvs => match kvs with [] => false | _ => true end
  end.

(** [d.get(k) == s] for a string literal [s]. *)
Definition get_is (d : gmap string pyval) (k s : string) : bool :=
  match d !! k with
  | Some (PStr t) => bool_decide (t = s)
  | _ => false
  end.

(** [d.get(k, False)] followed by a truth test. *)
Definition get_truthy (d : gmap string pyval) (k : string) : bool :=
  match d !! k with
  | Some v => truthy v
  | None => false
  end.

(** The exceptions the modelled code raises, each with the text [str(e)]
    gives; a [KeyError] holds the missing key, and a [ValidationError] (of
    pydantic) the name of the model class that refused its input. *)
Inductive exn :=
| KeyError (key : string)
| ValueError (msg : string)
| TypeError (msg : string)
| AttributeError (msg : string)
| RuntimeError (msg : string)
| ValidationError (model_name : string)
| Exception (msg : string).

Inductive result (A : Type) :=
| Ok (a : A)
| Raise (e : exn).
Global Arguments Ok {A} a.
Global Arguments Raise {A} e.

Definition bind {A B} (r : result A) (k : A → result B) : result B :=
  match r with
  | Ok a => k a
  | Raise e => Raise e
  end.

(** [d[k]]: subscripting raises [KeyError] on a missing key. *)
Definition getitem (d : gmap string pyval) (k : string) : result pyval :=
  match d !! k with
  | Some v => Ok v
  | None => Raise (KeyError k)
  end.

(** [str(n)] for an integer. *)
Definition str (z : Z) : string := pretty z.

Definition double_quote_char : ascii := "034"%char.
Definition backslash_char : ascii := "092"%char.
Definition double_quote : string := String double_quote_char EmptyString.

(** [repr(s)] for a string of code points below 256: the quote is the single
    one unless the string has a single quote and no double quote; the
    quote, the backslash and the characters that are not printable are
    escaped. *)
Definition is_printable (c : ascii) : bool :=
  let n := N_of_ascii c in
  negb ((n <? 32) || (127 <=? n) && (n <=? 160) || (n =? 173))%N.

Definition hex_digit (n : N) : ascii :=
  ascii_of_N (if (n <? 10)%N then 48 + n else 87 + n)%N.

Definition repr_char (quote c : ascii) : string :=
  let n := N_of_ascii c in
  if bool_decide (c = quote) || bool_decide (c = backslash_char)
  then String backslash_char (String c EmptyString)
  else if (n =? 9)%N then String backslash_char "t"
  else if (n =? 10)%N then String backslash_char "n"
  else if (n =? 13)%N then String backslash_char "r"
  else if is_printable c then String c EmptyString
  else String backslash_char
         (String "x" (String (hex_digit (n / 16))
                        (String (hex_digit (n mod 16)) EmptyString))).

Fixpoint has_char (c : ascii) (s : string) : bool :=
  match s with
  | EmptyString => false
  | String c' s' => bool_decide (c' = c) || has_char c s'
  end.

Fixpoint repr_body (quote : ascii) (s : string) : string :=
  match s with
  | EmptyString => EmptyString
  | String c s' => repr_char quote c +:+ repr_body quote s'
  end.

Definition repr (s : string) : string :=
  let quote :=
    if has_char "'" s && negb (has_char double_quote_char s)
    then double_quote_char else "'"%char in
  String quote (repr_body quote s +:+ String quote EmptyString).

(** [int(s)] on a string, in base 10: blanks around the number, an optional
    sign, then decimal digits, where one underscore may stand between two
    digits.  Any other string raises [ValueError]; its message shows at most
    200 characters of the string's [repr]. *)
Definition digit_of (c : ascii) : option N :=
  let n := N_of_ascii c in
  if ((48 <=? n) && (n <=? 57))%N then Some (n - 48)%N else None.

Definition int_space (c : ascii) : bool :=
  let n := N_of_ascii c in
  ((9 <=? n) && (n <=? 13) || (n =? 32) || (n =? 133) || (n =? 160))%N.

Fixpoint all_int_space (s : string) : bool :=
  match s with
  | EmptyString => true
  | String c s' => int_space c && all_int_space s'
  end.

Fixpoint skip_int_space (s : string) : string :=
  match s with
  | EmptyString => EmptyString
  | String c s' => if int_space c then skip_int_space s' else s
  end.

(** What follows a digit: the value read so far is [acc]. *)
Fixpoint parse_digits (s : string) (acc : N) : option N :=
  match s with
  | EmptyString => Some acc
  | String c s' =>
      match digit_of c with
      | Some d => parse_digits s' (acc * 10 + d)%N
      | None =>
          if bool_decide (c = "_"%char) then
            match s' with
            | String c' s'' =>
                match digit_of c' with
                | Some d => parse_digits s'' (acc * 10 + d)%N
                | None => None
                end
            | EmptyString => None
            end
          else if all_int_space s then Some acc
          else None
      end
  end.

(** An unsigned number: it starts with a digit. *)
Definition parse_number (s : string) : option N :=
  match s with
  | String c s' =>
      match digit_of c with
      | Some d => parse_digits s' d
      | None => None
      end
  | EmptyString => None
  end.

Definition parse_int (s : string) : option Z :=
  match skip_int_space s with
  | String "-" s' => n ← parse_number s'; Some (- Z.of_N n)
  | String "+" s' => n ← parse_number s'; Some (Z.of_N n)
  | s' => n ← parse_number s'; Some (Z.of_N n)
  end.

Definition int_error (s : string) : exn :=
  ValueError ("invalid literal for int() with base 10: "
              +:+ String.substring 0 200 (repr s)).

Definition int (s : string) : result Z :=
  match parse_int s with
  | Some z => Ok z
  | None => Raise (int_error s)
  end.

End Py.
Export Py.

Global Instance result_bind : MBind result := λ A B k r, Py.bind r k.
Global Instance result_ret : MRet result := @Py.Ok.

(** ** Session state ([data_models/agent_models.py], [card_models.py],
       [chat_models.py]) *)

Module State.

(** Heap addresses of the mutable list and dictionary objects that a card's
    content refers to. *)
Abbreviation loc := positive.

Abbreviation text := (list ascii).

(** [ToolResult]: the dual-content result of one action. *)
Record ToolResult := { compact : pyval; full : pyval }.

Inductive CardStatus := in_progress | completed.

Global Instance CardStatus_eq_dec : EqDecision CardStatus.
Proof. solve_decision. Defined.

Inductive CardType := user_requirement | web_search_result | webpage | note.

Global Instance CardType_eq_dec : EqDecision CardType.
Proof. solve_decision. Defined.

(** The kind-specific [card_content] of the four card classes.  A search
    result list is a mutable Python list, held by reference. *)
Inductive CardContent :=
| UserRequirementContent (user_requirement : text)
| WebSearchContent (search_query : text) (search_result_list : option loc)
| WebpageContent (webpage_title : option text) (url : text)
    (markdown_convert_from_webpage : option text) (summary : option text)
| NoteContent (note_title : text) (markdown_with_cite : option text).

Record InfoCard := {
  card_id : string;
  status : CardStatus;
  card_title : option text;
  card_content : CardContent;
  card_ref_implicit : list string;
  card_ref_explicit : list string;
}.

Definition card_type (c : InfoCard) : CardType :=
  match card_content c with
  | UserRequirementContent _ => user_requirement
  | WebSearchContent _ _ => web_search_result
  | WebpageContent _ _ _ _ => webpage
  | NoteContent _ _ => note
  end.

Inductive ChatType :=
| user_message | assistant_message | todo_list | tool_message
| progress_summary_message.

Global Instance ChatType_eq_dec : EqDecision ChatType.
Proof. solve_decision. Defined.

(** [ChatMessage4Display]: a display entry with its [chat_content] dict. *)
Record ChatMessage := {
  chat_type : ChatType;
  chat_content : gmap string pyval;
}.

(** [AgentState]. *)
Record AgentState := {
  chat_list : list ChatMessage;
  context_list : list (gmap string pyval);
  card_dict : gmap string InfoCard;
  latest_card_id : option string;
  is_running : bool;
  is_interrupted : bool;
  final_result_generated : bool;
  final_result_card_id : option string;
  raw_info_tool_calls_since_last_note : Z;
  note_calls_since_last_summary : Z;
}.

Definition set_chat_list (f : list ChatMessage → list ChatMessage)
    (s : AgentState) : AgentState :=
  {| chat_list := f (chat_list s);
     context_list := context_list s;
     card_dict := card_dict s;
     latest_card_id := latest_card_id s;
     is_running := is_running s;
     is_interrupted := is_interrupted s;
     final_result_generated := final_result_generated s;
     final_result_card_id := final_result_card_id s;
     raw_info_tool_calls_since_last_note := raw_info_tool_calls_since_last_note s;
     note_calls_since_last_summary := note_calls_since_last_summary s |}.

Definition set_context_list
    (f : list (gmap string pyval) → list (gmap string pyval))
    (s : AgentState) : AgentState :=
  {| chat_list := chat_list s;
     context_list := f (context_list s);
     card_dict := card_dict s;
     latest_card_id := latest_card_id s;
     is_running := is_running s;
     is_interrupted := is_interrupted s;
     final_result_generated := final_result_generated s;
     final_result_card_id := final_result_card_id s;
     raw_info_tool_calls_since_last_note := raw_info_tool_calls_since_last_note s;
     note_calls_since_last_summary := note_calls_since_last_summary s |}.

Definition set_cards (cd : gmap string InfoCard) (latest : option string)
    (s : AgentState) : AgentState :=
  {| chat_list := chat_list s;
     context_list := context_list s;
     card_dict := cd;
     latest_card_id := latest;
     is_running := is_running s;
     is_interrupted := is_interrupted s;
     final_result_generated := final_result_generated s;
     final_result_card_id := final_result_card_id s;
     raw_info_tool_calls_since_last_note := raw_info_tool_calls_since_last_note s;
     note_calls_since_last_summary := note_calls_since_last_summary s |}.


(** The state [ProjectManager.create_project] gives a new root agent. *)
Definition initial_agent_state : AgentState :=
  {| chat_list := [];
     context_list := [];
     card_dict := ∅;
     latest_card_id := None;
     is_running := false;
     is_interrupted := false;
     final_result_generated := false;
     final_result_card_id := None;
     raw_info_tool_calls_since_last_note := 0;
     note_calls_since_last_summary := 0 |}.

End State.
Export State.

(** ** Turn execution engine ([agents/baseAgent.py]) and the card store
       operations of [ProjectManager] ([data_models/project_models.py]) *)

Module Turn.

(** *** Message history *)

Definition add_user_message (content : string) (s : AgentState) : AgentState :=
  set_context_list
    (λ l, l ++ [{[ "role" := PStr "user"; "content" := PStr content ]}]) s.

Definition add_assistant_message (content : string) (s : AgentState)
    : AgentState :=
  set_context_list
    (λ l, l ++ [{[ "role" := PStr "assistant"; "content" := PStr content ]}]) s.

Definition add_system_message (system_prompt : string) (s : AgentState)
    : AgentState :=
  match context_list s with
  | msg :: _ =>
      if get_is msg "role" "system" then s
      else set_context_list
             (λ l, {[ "role" := PStr "system";
                      "content" := PStr system_prompt ]} :: l) s
  | [] =>
      set_context_list
        (λ l, {[ "role" := PStr "system";
                 "content" := PStr system_prompt ]} :: l) s
  end.

(** [len(v)] as used by the diagnostic prints of [_add_tool_result]. *)
Definition py_len (v : pyval) : result Z :=
  match v with
  | PStr s => Ok (Z.of_nat (String.length s))
  | PList l => Ok (Z.of_nat (List.length l))
  | PDict kvs => Ok (Z.of_nat (List.length kvs))
  | PNone => Raise (TypeError "object of type 'NoneType' has no len()")
  | PBool _ => Raise (TypeError "object of type 'bool' has no len()")
  | PInt _ => Raise (TypeError "object of type 'int' has no len()")
  end.

(** [v[:200] + "..." if len(v) > 200 else v], the preview of the diagnostic
    prints.  A long list cannot be concatenated with a string, and a
    dictionary cannot be sliced (the slice is no hashable key). *)
Definition content_preview (v : pyval) : result pyval :=
  n ← py_len v;
  if 200 <? n then
    match v with
    | PStr s => Ok (PStr (String.substring 0 200 s +:+ "..."))
    | PList _ =>
        Raise (TypeError ("can only concatenate list (not " +:+ double_quote
                          +:+ "str" +:+ double_quote +:+ ") to list"))
    | _ => Raise (TypeError "unhashable type: 'slice'")
    end
  else Ok v.

(** The diagnostic prints at the end of [_add_tool_result]: what they show is
    not modelled, the exceptions of the expressions they evaluate are. *)
Definition print_tool_result (content : ToolResult) : result unit :=
  py_len (full content);;
  py_len (compact content);;
  content_preview (full content);;
  Ok tt.

(** [_add_tool_result]: log the dual-content result of one action. *)
Definition _add_tool_result (tool_call_id function_name : string)
    (content : ToolResult) (is_progress_summary_note : pyval)
    (s : AgentState) : result unit * AgentState :=
  let tool_result : gmap string pyval :=
    {[ "tool_call_id" := PStr tool_call_id;
       "role" := PStr "tool";
       "name" := PStr function_name;
       "content" := full content;
       "_compact_content" := compact content ]} in
  let tool_result :=
    if bool_decide (function_name = "create_note")
    then <["_is_progress_summary_note" := is_progress_summary_note]> tool_result
    else tool_result in
  let s' := set_context_list (λ l, l ++ [tool_result]) s in
  (print_tool_result content, s').

(** *** Generation view: [_prepare_messages_for_llm] *)

Definition RAW_INFO_COLLECTION_TOOLS : list string :=
  ["search_web"; "scrape_webpage"].

Definition is_tool_msg (msg : gmap string pyval) : bool :=
  get_is msg "role" "tool".

Definition is_create_note_msg (msg : gmap string pyval) : bool :=
  is_tool_msg msg && get_is msg "name" "create_note".

Definition is_summary_msg (msg : gmap string pyval) : bool :=
  is_create_note_msg msg && get_truthy msg "_is_progress_summary_note".

(** [tool_name in self.RAW_INFO_COLLECTION_TOOLS] for
    [tool_name = msg.get("name")].  The collection is a set: the test hashes
    the name, and a list or a dictionary is not hashable. *)
Definition in_raw_tools (tool_name : option pyval) : result bool :=
  match tool_name with
  | Some (PStr n) => Ok (bool_decide (n ∈ RAW_INFO_COLLECTION_TOOLS))
  | Some (PList _) => Raise (TypeError "unhashable type: 'list'")
  | Some (PDict _) => Raise (TypeError "unhashable type: 'dict'")
  | Some PNone | Some (PBool _) | Some (PInt _) | None => Ok false
  end.

Definition name_is_create_note (tool_name : option pyval) : bool :=
  match tool_name with
  | Some (PStr n) => bool_decide (n = "create_note")
  | _ => false
  end.

(** The first loop: the two cursors, [-1] while nothing was seen. *)
Fixpoint find_cursors (i : Z) (l : list (gmap string pyval))
    (last_create_note_idx last_progress_summary_idx : Z) : Z * Z :=
  match l with
  | [] => (last_create_note_idx, last_progress_summary_idx)
  | msg :: l' =>
      if is_create_note_msg msg then
        find_cursors (i + 1) l' i
          (if get_truthy msg "_is_progress_summary_note" then i
           else last_progress_summary_idx)
      else
        find_cursors (i + 1) l' last_create_note_idx last_progress_summary_idx
  end.

Definition use_compact (tool_name : option pyval)
    (i last_create_note_idx last_progress_summary_idx : Z) : result bool :=
  raw ← in_raw_tools tool_name;
  if raw : bool then
    Ok (negb (last_create_note_idx =? -1) && (i <? last_create_note_idx))
  else if name_is_create_note tool_name then
    Ok (negb (last_progress_summary_idx =? -1)
        && (i <? last_progress_summary_idx))
  else Ok false.

Definition clean_msg (msg : gmap string pyval) (compact_version : bool)
    : result (gmap string pyval) :=
  tool_call_id ← getitem msg "tool_call_id";
  role ← getitem msg "role";
  name ← getitem msg "name";
  content ←
    getitem msg (if compact_version then "_compact_content" else "content");
  Ok ({[ "tool_call_id" := tool_call_id; "role" := role; "name" := name;
         "content" := content ]} : gmap string pyval).

(** The second loop. *)
Fixpoint build_messages (i : Z) (l : list (gmap string pyval))
    (last_create_note_idx last_progress_summary_idx : Z)
    : result (list (gmap string pyval)) :=
  match l with
  | [] => Ok []
  | msg :: l' =>
      m ← (if is_tool_msg msg then
             compact_version ←
               use_compact (msg !! "name") i
                 last_create_note_idx last_progress_summary_idx;
             clean_msg msg compact_version
           else Ok msg);
      messages ← build_messages (i + 1) l'
                   last_create_note_idx last_progress_summary_idx;
      Ok (m :: messages)
  end.

Definition _prepare_messages_for_llm (s : AgentState)
    : result (list (gmap string pyval)) * AgentState :=
  let '(last_create_note_idx, last_progress_summary_idx) :=
    find_cursors 0 (context_list s) (-1) (-1) in
  (build_messages 0 (context_list s)
     last_create_note_idx last_progress_summary_idx, s).

(** *** Workflow policy *)

Definition MAX_RAW_INFO_TOOL_CALLS_BEFORE_NOTE : Z := 3.
Definition MAX_NOTE_CALLS_BEFORE_SUMMARY : Z := 3.

Definition _check_note_creation_enforcement (s : AgentState)
    (function_name : string) (function_args : gmap string pyval)
    : option string :=
  let raw_check :=
    if bool_decide (function_name ∈ RAW_INFO_COLLECTION_TOOLS) then
      if MAX_RAW_INFO_TOOL_CALLS_BEFORE_NOTE
           <=? raw_info_tool_calls_since_last_note s
      then
        Some ("Error: You have made "
              +:+ str (raw_info_tool_calls_since_last_note s)
              +:+ " raw information collection tool calls (search_web/scrape_webpage) without creating a note. Please call 'create_note' to record the findings before making more raw info collection tool calls.")
      else None
    else None in
  match raw_check with
  | Some error_msg => Some error_msg
  | None =>
      if bool_decide (function_name = "create_note") then
        let is_progress_summary :=
          get_truthy function_args "is_progress_summary_note" in
        if negb is_progress_summary then
          if MAX_NOTE_CALLS_BEFORE_SUMMARY <=? note_calls_since_last_summary s
          then
            Some ("Error: You have made "
                  +:+ str (note_calls_since_last_summary s)
                  +:+ " create_note calls with is_progress_summary_note=false without creating a progress summary note. Please call 'create_note' with is_progress_summary_note=true to summarize the current progress.")
          else None
        else None
      else None
  end.


(** *** Dispatch of one requested action: [_execute_single_tool_call] *)


Record ParamInfo := {
  param_type : option string;
  param_description : option string;
}.

(** One entry of [self.tools] (the [function] part of a tool definition). *)
Record ToolSchema := {
  schema_name : string;
  required : list string;
  properties : list (string * ParamInfo);
}.

(** What the engine takes from its collaborators: the JSON decoder applied to
    an argument payload ([inl] is the message of a [JSONDecodeError], [inr]
    the decoded object), the declared action schemas, and the action
    handlers.  A handler stands for the action run under
    [_monitor_task_with_interrupt]: it yields the action's result, or the
    interrupt result when the interrupt flag was observed first, or raises.
    [set_order] is the order in which the interpreter iterates over a set of
    strings.  It depends on the hash seed of the process and, for names whose
    hashes collide, on how the set was built; the model takes one order for
    each set of names.  Only the order of the names inside a validation
    message depends on it. *)
Class Environment := {
  json_loads : string → string + gmap string pyval;
  tools : list ToolSchema;
  available_tool_functions :
    gmap string (gmap string pyval → AgentState → result ToolResult * AgentState);
  set_order : gset string → list string;
}.

Definition nl : string := String (ascii_of_nat 10) "".

(** [sep.join(l)]. *)
Fixpoint join (sep : string) (l : list string) : string :=
  match l with
  | [] => ""
  | [x] => x
  | x :: l' => x +:+ sep +:+ join sep l'
  end.



Section dispatch.
Context `{!Environment}.


Definition _get_tool_schema (function_name : string) : option ToolSchema :=
  List.find (λ t, bool_decide (schema_name t = function_name)) tools.

Definition describe_missing (props : list (string * ParamInfo))
    (param : string) : string :=
  match List.find (λ kv, bool_decide (kv.1 = param)) props with
  | Some (_, info) =>
      "- '" +:+ param +:+ "' ("
      +:+ default "unknown" (param_type info) +:+ "): "
      +:+ default "No description available" (param_description info) +:+ nl
  | None => ""
  end.

Definition _validate_tool_arguments (function_name : string)
    (function_args : gmap string pyval) : option string :=
  match _get_tool_schema function_name with
  | None => None
  | Some tool_schema =>
      let required_params := required tool_schema in
      let provided_params : gset string := dom function_args in
      let missing_params :=
        List.filter (λ p, negb (bool_decide (p ∈ provided_params)))
          required_params in
      match missing_params with
      | _ :: _ =>
          Some ("Argument Error: The tool call '" +:+ function_name
                +:+ "' is missing required argument(s)." +:+ nl +:+ nl
                +:+ "Missing: " +:+ join ", " missing_params +:+ nl
                +:+ "Required: " +:+ join ", " required_params +:+ nl
                +:+ "Provided: "
                +:+ (if bool_decide (provided_params = ∅) then "(none)"
                     else join ", " (set_order provided_params))
                +:+ nl +:+ nl
                +:+ String.concat ""
                      (describe_missing (properties tool_schema)
                         <$> missing_params)
                +:+ nl +:+ "Please provide all required arguments and try again.")
      | [] =>
          match properties tool_schema with
          | [] => None
          | _ :: _ =>
              let valid_params : gset string :=
                list_to_set (properties tool_schema).*1 in
              let unknown_params := provided_params ∖ valid_params in
              if bool_decide (unknown_params = ∅) then None
              else
                Some ("Argument Error: The tool call '" +:+ function_name
                      +:+ "' received unknown argument(s)." +:+ nl +:+ nl
                      +:+ "Unknown: " +:+ join ", " (set_order unknown_params)
                      +:+ nl
                      +:+ "Valid parameters: "
                      +:+ join ", " (set_order valid_params)
                      +:+ nl +:+ nl
                      +:+ "Please check the tool definition and only provide valid arguments.")
          end
      end
  end.




End dispatch.

(** *** Card store ([ProjectManager]) *)

Definition generate_card_id (s : AgentState) : string :=
  str (Z.of_nat (size (card_dict s)) + 1).

Definition add_info_card (card : InfoCard) (s : AgentState) : AgentState :=
  set_cards (<[card_id card := card]> (card_dict s)) (Some (card_id card)) s.

(** [get_info_card(project_id, agent_id, card_id)], where [s] is the state
    of that agent. *)
Definition get_info_card (project_id agent_id : string) (s : AgentState)
    (card_id : string) : result InfoCard :=
  match card_dict s !! card_id with
  | Some card => Ok card
  | None =>
      Raise (ValueError ("Info card with ID '" +:+ card_id
                         +:+ "' not found for agent '" +:+ agent_id
                         +:+ "' in project '" +:+ project_id +:+ "'"))
  end.

Definition get_agent_latest_card_id (s : AgentState) : option string :=
  latest_card_id s.

Definition add_chat_message_4display (message : ChatMessage) (s : AgentState)
    : AgentState :=
  set_chat_list (λ l, l ++ [message]) s.

(** [[previous_card_id] if previous_card_id else []]. *)
Definition implicit_ref (previous_card_id : option string) : list string :=
  match previous_card_id with
  | Some p => if bool_decide (p = "") then [] else [p]
  | None => []
  end.

Definition WebSearchResultCard_initial_create (id : string)
    (search_query : text) (ref_implicit ref_explicit : list string)
    : InfoCard :=
  {| card_id := id; status := in_progress; card_title := Some search_query;
     card_content := WebSearchContent search_query None;
     card_ref_implicit := ref_implicit; card_ref_explicit := ref_explicit |}.

Definition WebpageCard_initial_create (id : string) (webpage_url : text)
    (ref_implicit ref_explicit : list string) : InfoCard :=
  {| card_id := id; status := in_progress; card_title := None;
     card_content := WebpageContent None webpage_url None None;
     card_ref_implicit := ref_implicit; card_ref_explicit := ref_explicit |}.

Definition NoteCard_initial_create (id : string) (note_title : text)
    (ref_implicit ref_explicit : list string) : InfoCard :=
  {| card_id := id; status := in_progress; card_title := Some note_title;
     card_content := NoteContent note_title None;
     card_ref_implicit := ref_implicit; card_ref_explicit := ref_explicit |}.

(** Step 2 of [search_web_tool], [scrape_webpage_tool] and
    [create_note_tool]: take the next id, create the card in progress and
    store it.  [mk] is the card class's [initial_create]. *)
Definition create_in_progress_card
    (mk : string → list string → InfoCard) (s : AgentState)
    : string * AgentState :=
  let previous_card_id := get_agent_latest_card_id s in
  let current_card_id := generate_card_id s in
  let card := mk current_card_id (implicit_ref previous_card_id) in
  (current_card_id, add_info_card card s).

(** *** Interrupt cleanup: [_cleanup_interrupted_states] *)

Definition cancel_tool_message (m : ChatMessage) : ChatMessage :=
  if bool_decide (chat_type m = tool_message)
     && get_is (chat_content m) "status" "in_progress"
  then {| chat_type := chat_type m;
          chat_content := <["status" := PStr "cancelled"]> (chat_content m) |}
  else m.

(** The loop over [reversed(chat_list)] that closes the first progress
    summary it meets. *)
Fixpoint complete_first_progress_summary (l : list ChatMessage)
    : list ChatMessage :=
  match l with
  | [] => []
  | m :: l' =>
      if bool_decide (chat_type m = progress_summary_message)
      then {| chat_type := chat_type m;
              chat_content := <["status" := PStr "completed"]> (chat_content m) |}
           :: l'
      else m :: complete_first_progress_summary l'
  end.

Definition complete_last_progress_summary (l : list ChatMessage)
    : list ChatMessage :=
  rev (complete_first_progress_summary (rev l)).

Definition ProgressSummaryMessage_create (progress_summary st : string)
    : ChatMessage :=
  {| chat_type := progress_summary_message;
     chat_content := {[ "progress_summary" := PStr progress_summary;
                        "status" := PStr st ]} |}.

Definition cards_to_remove (cd : gmap string InfoCard) : list string :=
  (map_to_list (filter (λ kv, status kv.2 = in_progress) cd)).*1.

(** [for card_id in cards_to_remove: del card_dict[card_id]]. *)
Definition remove_cards (ids : list string) (cd : gmap string InfoCard)
    : gmap string InfoCard :=
  foldl (λ d id, delete id d) cd ids.

Fixpoint ints_of (ks : list string) : result (list Z) :=
  match ks with
  | [] => Ok []
  | k :: ks' => n ← int k; ns ← ints_of ks'; Ok (n :: ns)
  end.

(** [str(max(int(k) for k in card_dict.keys()))]. *)
Definition max_card_id (cd : gmap string InfoCard) : result string :=
  ns ← ints_of (map_to_list cd).*1;
  match ns with
  | [] => Raise (ValueError "max() arg is an empty sequence")
  | n :: ns' => Ok (str (foldl Z.max n ns'))
  end.

Definition _cleanup_interrupted_states (s : AgentState)
    : result unit * AgentState :=
  (* 1. cancel the in-progress tool messages *)
  let s1 := set_chat_list (fmap cancel_tool_message) s in
  (* 2. remove the in-progress cards *)
  let removed := cards_to_remove (card_dict s1) in
  let cd := remove_cards removed (card_dict s1) in
  let s2 := set_cards cd (latest_card_id s1) s1 in
  (* 3. update latest_card_id if needed *)
  let latest_removed :=
    match latest_card_id s2 with
    | Some l => bool_decide (l ∈ removed)
    | None => false
    end in
  let r3 :=
    if latest_removed then
      if bool_decide (size cd ≠ 0%nat)
      then k ← max_card_id cd; Ok (Some k)
      else Ok None
    else Ok (latest_card_id s2) in
  match r3 with
  | Raise e => (Raise e, s2)
  | Ok latest =>
      let s3 := set_cards cd latest s2 in
      (* 4. close the last progress summary, append an interrupted one *)
      let s4 := set_chat_list complete_last_progress_summary s3 in
      (Ok tt,
       add_chat_message_4display
         (ProgressSummaryMessage_create "Interrupted" "cancelled") s4)
  end.

(** *** One turn: [execute_turn] *)




Section turn.
Context `{!Environment} `{!GenerationService}.





End turn.

End Turn.

(** ** Citation tracing engine ([agents/infoTraceAgent/infoTraceAgent.py]) *)

Module Tracing.

(** *** Python string primitives on [text] *)

Definition lit (s : string) : text := String.list_ascii_of_string s.

Definition ascii_eqb (a b : ascii) : bool := bool_decide (a = b).

Fixpoint is_prefix (p s : text) : bool :=
  match p, s with
  | [], _ => true
  | _ :: _, [] => false
  | a :: p', b :: s' => ascii_eqb a b && is_prefix p' s'
  end.

(** [s.find(t)] counted from position [i]: the lowest index, [None] for
    Python's [-1]. *)
Fixpoint find_from (i : nat) (t s : text) : option nat :=
  if is_prefix t s then Some i
  else match s with
       | [] => None
       | _ :: s' => find_from (S i) t s'
       end.

Definition find (s t : text) : option nat := find_from 0 t s.

(** [t in s]. *)
Definition contains (s t : text) : bool :=
  match find s t with Some _ => true | None => false end.

(** [s[a:b]] for indices [0 <= a], [0 <= b]. *)
Definition slice (s : text) (a b : nat) : text := take (b - a) (drop a s).

(** [c.isspace()] for a code point below 256. *)
Definition isspace (c : ascii) : bool :=
  let n := nat_of_ascii c in
  ((9 <=? n) && (n <=? 13) || (28 <=? n) && (n <=? 32)
   || (n =? 133) || (n =? 160))%nat.

Fixpoint lstrip (s : text) : text :=
  match s with
  | c :: s' => if isspace c then lstrip s' else s
  | [] => []
  end.

Definition rstrip (s : text) : text := rev (lstrip (rev s)).

Definition strip (s : text) : text := rstrip (lstrip s).

(** [s.replace(old, new)] for a non-empty [old]: [skip] counts the
    characters of a replaced occurrence still to be passed over. *)
Fixpoint replace_go (old new : text) (skip : nat) (s : text) : text :=
  match s with
  | [] => []
  | c :: s' =>
      match skip with
      | S k => replace_go old new k s'
      | O =>
          if is_prefix old s
          then new ++ replace_go old new (length old - 1) s'
          else c :: replace_go old new 0 s'
      end
  end.

Definition replace (old new s : text) : text :=
  match old with
  | [] => s
  | _ => replace_go old new 0 s
  end.

(** [sep.join(l)] on [text]. *)
Fixpoint join_text (sep : text) (l : list text) : text :=
  match l with
  | [] => []
  | [x] => x
  | x :: l' => x ++ sep ++ join_text sep l'
  end.

(** *** Fuzzy span locator *)

(** The approximate-substring aligner of the [rapidfuzz] package:
    [partial_ratio_alignment(t, s, score_cutoff=50)] gives [None] or the
    positions [(dest_start, dest_end)] of the aligned span in [s]. *)
Class Aligner := {
  rapidfuzz_installed : bool;
  partial_ratio_alignment : text → text → option (nat * nat);
}.

Section fuzzy.
Context `{!Aligner}.

Definition _fuzzy_match_in_source (text_to_match source_text : text) : text :=
  (* 1. fast path: exact match *)
  if contains source_text text_to_match then text_to_match
  else if (length text_to_match <? 5)%nat then text_to_match
  else if negb rapidfuzz_installed then text_to_match
  else
    (* 2. best matching substring *)
    match partial_ratio_alignment text_to_match source_text with
    | None => text_to_match
    | Some (dest_start, dest_end) =>
        let matched_text := slice source_text dest_start dest_end in
        match matched_text with
        | [] => text_to_match
        | _ => matched_text
        end
    end.

End fuzzy.

(** *** Highlight compositor *)

Definition highlight_open : text := lit "<highlight>".
Definition highlight_close : text := lit "</highlight>".

(** A match of [separator_pattern = (\||(?:^|\n)- )] at the head of [s]:
    the length of the separator.  [at_start] says that [s] begins at the
    start of the searched string, the one place where [^] matches. *)
Definition match_separator (at_start : bool) (s : text) : option nat :=
  match s with
  | "|"%char :: _ => Some 1%nat
  | "-"%char :: " "%char :: _ => if at_start then Some 2%nat else None
  | "010"%char :: "-"%char :: " "%char :: _ => Some 3%nat
  | _ => None
  end.

(** [re.split(separator_pattern, text)]: the pieces between the separators
    alternate with the separators themselves.  [cur] holds the current piece
    in reverse. *)
Fixpoint re_split (at_start : bool) (cur : text) (s : text) : list text :=
  match s with
  | [] => [rev cur]
  | c :: s' =>
      if ascii_eqb c "|" then rev cur :: lit "|" :: re_split false [] s'
      else if ascii_eqb c "-" && at_start then
        match s' with
        | " "%char :: s'' => rev cur :: lit "- " :: re_split false [] s''
        | _ => re_split false (c :: cur) s'
        end
      else if ascii_eqb c "010" then
        match s' with
        | "-"%char :: " "%char :: s'' =>
            rev cur :: ("010"%char :: lit "- ") :: re_split false [] s''
        | _ => re_split false (c :: cur) s'
        end
      else re_split false (c :: cur) s'
  end.

(** [re.search(separator_pattern, text)] finds a separator. *)
Fixpoint has_separator (at_start : bool) (s : text) : bool :=
  match match_separator at_start s with
  | Some _ => true
  | None => match s with
            | [] => false
            | _ :: s' => has_separator false s'
            end
  end.

Definition wrap (s : text) : text := highlight_open ++ s ++ highlight_close.

(** The body of the loop over the pieces. *)
Definition highlight_part (part : text) : text :=
  match match_separator true part with
  | Some _ => part                       (* re.match: a separator, kept bare *)
  | None =>
      match strip part with
      | [] => part
      | content =>
          let leading_ws := take (length part - length (lstrip part)) part in
          let trailing_ws := drop (length (rstrip part)) part in
          leading_ws ++ wrap content ++ trailing_ws
      end
  end.

Definition _apply_highlight_with_separator_handling (s : text) : text :=
  if negb (has_separator true s) then wrap s
  else concat (highlight_part <$> re_split true [] s).

(** Lexicographic order of [(start, end)] tuples, the order of
    [ranges.sort()]. *)
Definition range_le (a b : nat * nat) : Prop :=
  (a.1 < b.1 ∨ (a.1 = b.1 ∧ a.2 ≤ b.2))%nat.

Global Instance range_le_dec : RelDecision range_le.
Proof. intros a b. unfold range_le. apply _. Defined.

(** Step 2: the loop that merges the sorted ranges; [done ++ [last]] is the
    list [merged]. *)
Fixpoint merge_loop (done : list (nat * nat)) (last : nat * nat)
    (rest : list (nat * nat)) : list (nat * nat) :=
  match rest with
  | [] => done ++ [last]
  | (start, end_) :: rest' =>
      if (start <=? last.2)%nat
      then merge_loop done (last.1, Nat.max last.2 end_) rest'
      else merge_loop (done ++ [last]) (start, end_) rest'
  end.

Definition merge_ranges (ranges : list (nat * nat)) : list (nat * nat) :=
  match ranges with
  | [] => []
  | r :: rest => merge_loop [] r rest
  end.

(** Step 3, one iteration: wrap [result[start:end]] in place. *)
Definition highlight_range (result : text) (r : nat * nat) : text :=
  let matched_text := slice result r.1 r.2 in
  let highlighted := _apply_highlight_with_separator_handling matched_text in
  take r.1 result ++ highlighted ++ drop r.2 result.

Section highlight.
Context `{!Aligner}.

(** Step 1, one iteration: locate one snippet in the original text. *)
Definition locate (source : text) (support_content : text)
    : list (nat * nat) :=
  let matched_text := _fuzzy_match_in_source support_content source in
  match matched_text with
  | [] => []
  | _ =>
      match find source matched_text with
      | Some start => [(start, (start + length matched_text)%nat)]
      | None => []
      end
  end.

Definition collect_ranges (source : text) (support_content_list : list text)
    : list (nat * nat) :=
  concat (locate source <$> support_content_list).

Definition _apply_highlight_to_string (source : text)
    (support_content_list : list text) : text :=
  let ranges := collect_ranges source support_content_list in
  match ranges with
  | [] => source
  | _ =>
      let merged := merge_ranges (merge_sort range_le ranges) in
      foldl highlight_range source (rev merged)
  end.

End highlight.

(** *** JSON values, heap objects and the tracing state *)

#[warnings="-register-all"]
Inductive jval :=
| JNull
| JBool (b : bool)
| JNum (z : Z)
| JStr (s : text)
| JArr (items : list jval)
| JObj (fields : list (string * jval)).

Definition jtruthy (v : jval) : bool :=
  match v with
  | JNull => false
  | JBool b => b
  | JNum z => negb (z =? 0)
  | JStr s => match s with [] => false | _ => true end
  | JArr l => match l with [] => false | _ => true end
  | JObj kvs => match kvs with [] => false | _ => true end
  end.

(** [d.get(k)] on a decoded object: a repeated key keeps its last value. *)
Fixpoint jget (k : string) (fields : list (string * jval)) : option jval :=
  match fields with
  | [] => None
  | (k', v) :: rest =>
      match jget k rest with
      | Some v' => Some v'
      | None => if bool_decide (k' = k) then Some v else None
      end
  end.

Definition type_name (v : jval) : string :=
  match v with
  | JNull => "NoneType"
  | JBool _ => "bool"
  | JNum _ => "int"
  | JStr _ => "str"
  | JArr _ => "list"
  | JObj _ => "dict"
  end.

(** A snippet used as the left operand of [text_to_match in source_text]:
    anything but a [str] is a [TypeError]. *)
Definition as_operand (v : jval) : result text :=
  match v with
  | JStr s => Ok s
  | _ => Raise (TypeError ("'in <string>' requires string as left operand, not "
                           +:+ type_name v))
  end.

Fixpoint as_operands (l : list jval) : result (list text) :=
  match l with
  | [] => Ok []
  | v :: l' => s ← as_operand v; ss ← as_operands l'; Ok (s :: ss)
  end.

(** The items of [sep.join(l)], from position [i] on: an item that is not a
    [str] is a [TypeError] that names its position. *)
Fixpoint as_texts (i : nat) (l : list jval) : result (list text) :=
  match l with
  | [] => Ok []
  | JStr s :: l' => ss ← as_texts (S i) l'; Ok (s :: ss)
  | v :: _ =>
      Raise (TypeError ("sequence item " +:+ pretty i
                        +:+ ": expected str instance, " +:+ type_name v
                        +:+ " found"))
  end.

(** The content a highlight is applied to: a string, or the result list of a
    search card, held by reference. *)
Inductive MainContent :=
| ContentStr (s : text)
| ContentList (l : loc).

Record LlmToolCall := {
  call_id : string;
  call_name : string;          (* tool_call.function.name *)
  call_arguments : text;       (* tool_call.function.arguments *)
}.

Record LlmResponse := {
  response_content : option text;
  response_tool_calls : list LlmToolCall;
}.

Inductive TraceMsg :=
| MsgText (role : string) (content : text)
| MsgToolCalls (tool_call : LlmToolCall)
| MsgToolResult (tool_call_id : string) (content : text).

Inductive ToolSet := ROOT_CONTENT_EXTRACTION_TOOL | SUPPORT_FINDING_TOOL.

(** One call of the generation service: the request and what came back, the
    response message or the exception of the call. *)
Record Exchange := {
  request_messages : list TraceMsg;
  request_tools : ToolSet;
  response : result LlmResponse;
}.

(** What the tracing engine takes from its collaborators.  The generation
    service may answer differently each time it is asked: its answer is a
    function of the calls made so far and of the request.
    [llm_message_completion_with_tool_call] stands for the call and the
    selection of [response.choices[0].message]. *)
Class TraceEnvironment := {
  json_loads : text → string + jval;
  json_dumps : jval → text;
  llm_message_completion_with_tool_call :
    list Exchange → list TraceMsg → ToolSet → result LlmResponse;
  project_id : string;
  agent_id : string;
}.

(** The state a trace runs in.  A search result list is a Python list of
    dictionaries, both mutable and held by reference: [lists] gives the
    item addresses of the list at an address and [dicts] the dictionary at
    an item address.  An address outside the store reads as an empty
    object. *)
Record TraceState := {
  lists : gmap loc (list loc);
  dicts : gmap loc (gmap string jval);
  agent_state : AgentState;
  trace_failed : bool;
  llm_log : list Exchange;
}.

Definition list_at (st : TraceState) (l : loc) : list loc :=
  default [] (lists st !! l).

Definition dict_at (st : TraceState) (k : loc) : gmap string jval :=
  default ∅ (dicts st !! k).

Definition set_lists (ls : gmap loc (list loc)) (st : TraceState)
    : TraceState :=
  {| lists := ls; dicts := dicts st; agent_state := agent_state st;
     trace_failed := trace_failed st; llm_log := llm_log st |}.

Definition set_dicts (ds : gmap loc (gmap string jval)) (st : TraceState)
    : TraceState :=
  {| lists := lists st; dicts := ds; agent_state := agent_state st;
     trace_failed := trace_failed st; llm_log := llm_log st |}.

Definition set_trace_failed (b : bool) (st : TraceState) : TraceState :=
  {| lists := lists st; dicts := dicts st; agent_state := agent_state st;
     trace_failed := b; llm_log := llm_log st |}.

Definition log_exchange (e : Exchange) (st : TraceState) : TraceState :=
  {| lists := lists st; dicts := dicts st; agent_state := agent_state st;
     trace_failed := trace_failed st; llm_log := llm_log st ++ [e] |}.

(** Stateful code that can raise: the state is kept when it raises. *)
Definition M (A : Type) : Type := TraceState → result A * TraceState.

Definition ret {A} (a : A) : M A := λ st, (Ok a, st).
Definition raise {A} (e : exn) : M A := λ st, (Raise e, st).
Definition lift {A} (r : result A) : M A := λ st, (r, st).

Definition bindM {A B} (m : M A) (k : A → M B) : M B :=
  λ st, match m st with
        | (Ok a, st') => k a st'
        | (Raise e, st') => (Raise e, st')
        end.

Global Instance M_bind : MBind M := λ A B k m, bindM m k.
Global Instance M_ret : MRet M := @ret.

Definition get_state : M TraceState := λ st, (Ok st, st).

(** The JSON view of a stored dictionary, for [json.dumps]. *)
Definition dict_to_jval (d : gmap string jval) : jval := JObj (map_to_list d).

Section reading.
Context `{!TraceEnvironment}.

(** *** Reading cards *)

Definition get_card (card_id : string) : M InfoCard :=
  λ st, (Turn.get_info_card project_id agent_id (agent_state st) card_id, st).

Definition _get_card_explicit_refs (card_id : string) : M (list string) :=
  card ← get_card card_id; ret (card_ref_explicit card).

Definition _get_card_main_content (card_id : string) : M MainContent :=
  card ← get_card card_id;
  match card_content card with
  | WebSearchContent _ search_result_list =>
      match search_result_list with
      | None =>
          raise (ValueError ("WebSearchResultCard " +:+ card_id
                             +:+ " has no search_result_list"))
      | Some l => ret (ContentList l)
      end
  | WebpageContent _ _ markdown_content _ =>
      match markdown_content with
      | None =>
          raise (ValueError ("WebpageCard " +:+ card_id
                             +:+ " has no markdown_convert_from_webpage"))
      | Some m => ret (ContentStr m)
      end
  | NoteContent _ markdown_with_cite =>
      match markdown_with_cite with
      | None =>
          raise (ValueError ("NoteCard " +:+ card_id
                             +:+ " has no markdown_with_cite"))
      | Some m => ret (ContentStr m)
      end
  | UserRequirementContent _ =>
      raise (ValueError "Unsupported card type for tracing: user_requirement")
  end.

(** [card.read_info_card_content()] of the four card classes. *)
Definition read_info_card_content (card : InfoCard) : M text :=
  match card_content card with
  | UserRequirementContent requirement =>
      ret (json_dumps (JStr requirement))
  | WebSearchContent _ search_result_list =>
      match search_result_list with
      | None =>
          ret (lit "The search results are shown below: " ++ ["010"%char]
               ++ json_dumps JNull)
      | Some l =>
          st ← get_state;
          ret (lit "The search results are shown below: " ++ ["010"%char]
               ++ json_dumps
                    (JArr ((λ k, dict_to_jval (dict_at st k))
                             <$> list_at st l)))
      end
  | WebpageContent title _ markdown _ =>
      match title, markdown with
      | Some t, Some m =>
          ret (lit "The title of the webpage is shown below: " ++ ["010"%char]
               ++ t ++ ["010"%char]
               ++ lit " The content of the webpage is shown below: "
               ++ ["010"%char] ++ m)
      | _, _ => raise (ValueError "The webpage is not yet scraped.")
      end
  | NoteContent title markdown_with_cite =>
      match markdown_with_cite with
      | Some m =>
          ret (lit "The title of the note is shown below: " ++ ["010"%char]
               ++ title ++ ["010"%char]
               ++ lit " The content of the note is shown below: "
               ++ ["010"%char] ++ m)
      | None =>
          raise (TypeError ("can only concatenate str (not " +:+ double_quote
                            +:+ "NoneType" +:+ double_quote +:+ ") to str"))
      end
  end.

Definition _get_card_content (card_id : string) : M text :=
  card ← get_card card_id; read_info_card_content card.

End reading.

(** *** Highlighting a card's content *)

(** [copy.deepcopy] of the item dictionaries of a list of the state [st];
    [memo] maps an item already copied to its copy, so that an item that
    occurs twice is copied once, and [ds] is the store with the copies made
    so far. *)
Fixpoint deepcopy_items (st : TraceState) (items : list loc)
    (memo : gmap loc loc) (ds : gmap loc (gmap string jval))
    : list loc * gmap loc (gmap string jval) :=
  match items with
  | [] => ([], ds)
  | k :: items' =>
      match memo !! k with
      | Some k' =>
          let '(rest, ds') := deepcopy_items st items' memo ds in
          (k' :: rest, ds')
      | None =>
          let k' := fresh (dom ds) in
          let '(rest, ds') :=
            deepcopy_items st items' (<[k := k']> memo)
              (<[k' := dict_at st k]> ds) in
          (k' :: rest, ds')
      end
  end.

(** [copy.deepcopy(main_content)] of a result list: a new list of new
    dictionaries. *)
Definition deepcopy (l : loc) : M loc :=
  λ st,
    let '(items', ds') := deepcopy_items st (list_at st l) ∅ (dicts st) in
    let l' := fresh (dom (lists st)) in
    (Ok l', set_lists (<[l' := items']> (lists st)) (set_dicts ds' st)).

Section content.
Context `{!Aligner}.

(** [_apply_highlight_to_string] on the snippets as they were decoded: the
    containment test of the first snippet that is not a string raises. *)
Definition highlight_string (source : text) (support_content_list : list jval)
    : result text :=
  supports ← as_operands support_content_list;
  Ok (_apply_highlight_to_string source supports).

(** The loop [for item in result_list: ... item[key] = ...]. *)
Fixpoint highlight_items (items : list loc) (support_content_list : list jval)
    : M unit :=
  match items with
  | [] => ret tt
  | k :: items' =>
      st ← get_state;
      match dict_at st k !! "snippet" with
      | Some (JStr snippet) =>
          highlighted ← lift (highlight_string snippet support_content_list);
          (λ st', (Ok tt,
                   set_dicts (<[k := <["snippet" := JStr highlighted]>
                                        (dict_at st' k)]> (dicts st')) st'));;
          highlight_items items' support_content_list
      | _ => highlight_items items' support_content_list
      end
  end.

Definition _apply_highlight_to_content (main_content : MainContent)
    (support_content_list : list jval) : M MainContent :=
  match main_content with
  | ContentStr s =>
      highlighted ← lift (highlight_string s support_content_list);
      ret (ContentStr highlighted)
  | ContentList l =>
      result_list ← deepcopy l;
      st ← get_state;
      highlight_items (list_at st result_list) support_content_list;;
      ret (ContentList result_list)
  end.

End content.

(** *** Repairing a stringified array: [_ensure_list] and its helpers *)

Definition startswith (c : ascii) (s : text) : bool :=
  match s with
  | c' :: _ => ascii_eqb c' c
  | [] => false
  end.

Definition endswith (c : ascii) (s : text) : bool := startswith c (rev s).

(** [s[1:-1]]. *)
Definition strip_ends (s : text) : text := slice s 1 (length s - 1).

(** The matches of [re.findall] for the pattern of strategy 4, a quote, a
    group and a quote, where the group is a greedy run of characters other
    than the quote followed by any number of escaped characters, each with
    such a run.  The greedy run takes every character up to the next quote,
    so each match runs from one quote to the next.  [cur] is the segment
    being read, in reverse. *)
Fixpoint quoted_segments (cur : option text) (s : text) : list text :=
  match s with
  | [] => []
  | c :: s' =>
      match cur with
      | None =>
          if ascii_eqb c double_quote_char then quoted_segments (Some []) s'
          else quoted_segments None s'
      | Some acc =>
          if ascii_eqb c double_quote_char then rev acc :: quoted_segments None s'
          else quoted_segments (Some (c :: acc)) s'
      end
  end.

Section repair.
Context `{!TraceEnvironment}.

(** One element of [_split_json_array_elements]: decode it, or take the text
    between its quotes; [None] when neither works. *)
Definition parse_element (element_str : text) : option jval :=
  match json_loads element_str with
  | inr parsed_element => Some parsed_element
  | inl _ =>
      if startswith double_quote_char element_str && endswith double_quote_char element_str
      then Some (JStr (strip_ends element_str))
      else None
  end.

Fixpoint split_loop (inner : text) (elements : list jval) (current : text)
    (in_string escape_next : bool) : option (list jval) :=
  match inner with
  | [] =>
      match strip current with
      | [] => Some elements
      | element_str =>
          match parse_element element_str with
          | Some e => Some (elements ++ [e])
          | None => None
          end
      end
  | char :: rest =>
      if escape_next then
        split_loop rest elements (current ++ [char]) in_string false
      else if ascii_eqb char backslash_char then
        split_loop rest elements (current ++ [char]) in_string true
      else if ascii_eqb char double_quote_char then
        split_loop rest elements (current ++ [char]) (negb in_string) false
      else if ascii_eqb char "," && negb in_string then
        match strip current with
        | [] => split_loop rest elements [] in_string false
        | element_str =>
            match parse_element element_str with
            | Some e => split_loop rest (elements ++ [e]) [] in_string false
            | None => None
            end
        end
      else split_loop rest elements (current ++ [char]) in_string false
  end.

Definition _split_json_array_elements (inner : text) : option (list jval) :=
  split_loop inner [] [] false false.

Definition loads_list (value : text) : option (list jval) :=
  match json_loads value with
  | inr (JArr parsed) => Some parsed
  | _ => None
  end.

(** The argument of the third [replace] of strategy 2 as the source file
    tokenizes: a triple-quoted literal holding the characters between two
    runs of three single quotes. *)
Definition strategy2_old : text :=
  lit ", " ++ [double_quote_char] ++ lit "'" ++ [double_quote_char] ++ lit ").replace(".

Definition strategy2_fix (value : text) : text :=
  replace strategy2_old (lit "'")
    (replace [double_quote_char] [double_quote_char]
       (replace [double_quote_char] [double_quote_char] value)).

Definition strategy3 (value : text) : option (list jval) :=
  let stripped := strip value in
  if startswith "[" stripped && endswith "]" stripped then
    match strip (strip_ends stripped) with
    | [] => Some []
    | inner => _split_json_array_elements inner
    end
  else None.

Definition unescape (m : text) : jval :=
  match json_loads ([double_quote_char] ++ m ++ [double_quote_char]) with
  | inr unescaped => unescaped
  | inl _ => JStr m
  end.

Definition strategy4 (value : text) : option (list jval) :=
  match quoted_segments None value with
  | [] => None
  | matches => Some (unescape <$> matches)
  end.

Definition _try_parse_stringified_list (value : text) : option (list jval) :=
  match loads_list value with
  | Some parsed => Some parsed
  | None =>
  match loads_list (strategy2_fix value) with
  | Some parsed => Some parsed
  | None =>
  match strategy3 value with
  | Some elements => Some elements
  | None => strategy4 value
  end end end.

(** [_ensure_list]: [inl] is the list of a success, [inr] the error message
    of a failure. *)
Definition _ensure_list (value : jval) (field_name : string)
    : list jval + string :=
  match value with
  | JArr l => inl l
  | JStr value =>
      match _try_parse_stringified_list value with
      | Some parsed_list => inl parsed_list
      | None =>
          let error_msg :=
            field_name +:+ " is not valid JSON and could not be recovered" in
          if contains value [double_quote_char]
             && negb (contains value [backslash_char; double_quote_char])
          then inr (error_msg +:+ ". Hint: The string contains unescaped quotes. Make sure to return a proper JSON array, not a stringified one.")
          else inr error_msg
      end
  | _ => inr (field_name +:+ " must be list, got " +:+ type_name value)
  end.

End repair.

(** *** The two retry loops *)

Record ExtractionResult := {
  extracted_content_list : list jval;
  extraction_reasoning : jval;
}.

Record SupportResult := {
  has_support : jval;
  found_support_content_list : option (list jval);
  support_reasoning : jval;
}.

Definition ROOT_CONTENT_EXTRACTION_SYSTEM_PROMPT : text :=
  lit "You are a Root Content Extraction Agent.".

Definition SUPPORT_FINDING_SYSTEM_PROMPT : text :=
  lit "You are a Support Finding Agent.".

Definition no_tool_call_feedback (r : LlmResponse) : list TraceMsg :=
  [MsgText "assistant" (default [] (response_content r));
   MsgText "user" (lit "ERROR: No tool call in response. Please call the tool.")].

Definition tool_error_feedback (tool_call : LlmToolCall) (content : text)
    : list TraceMsg :=
  [MsgToolCalls tool_call; MsgToolResult (call_id tool_call) content].

Section loops.
Context `{!TraceEnvironment}.

(** The call of the generation service, recorded in the log. *)
Definition call_llm (messages : list TraceMsg) (tool : ToolSet)
    : M LlmResponse :=
  λ st,
    let r := llm_message_completion_with_tool_call (llm_log st) messages tool in
    (r, log_exchange {| request_messages := messages;
                        request_tools := tool; response := r |} st).

Definition failed_after (who : string) (max_retries : nat) : exn :=
  RuntimeError (who +:+ " failed after " +:+ pretty max_retries +:+ " attempts").

(** [for attempt in range(max_retries)] of
    [_extract_support_from_source_card]; [remaining] attempts are left. *)
Fixpoint extraction_loop (max_retries remaining : nat) (traced_content : text)
    (messages : list TraceMsg) : M ExtractionResult :=
  match remaining with
  | O => raise (failed_after "_extract_support_from_source_card" max_retries)
  | S remaining' =>
      response_message ← call_llm messages ROOT_CONTENT_EXTRACTION_TOOL;
      (* Check 1: tool_calls exists *)
      match response_tool_calls response_message with
      | [] =>
          extraction_loop max_retries remaining' traced_content
            (messages ++ no_tool_call_feedback response_message)
      | tool_call :: _ =>
      (* Check 2: correct tool name *)
      if negb (bool_decide (call_name tool_call = "report_extraction_result"))
      then
        extraction_loop max_retries remaining' traced_content
          (messages ++ tool_error_feedback tool_call
                         (lit ("ERROR: Wrong tool: " +:+ call_name tool_call)))
      else
      (* Check 3: valid JSON *)
      match json_loads (call_arguments tool_call) with
      | inl e =>
          extraction_loop max_retries remaining' traced_content
            (messages ++ tool_error_feedback tool_call
                           (lit ("ERROR: Invalid JSON in arguments: " +:+ e)))
      | inr (JObj fields) =>
          (* Check 4: extracted_content_list is a valid list *)
          let raw_list :=
            default (JArr []) (jget "extracted_content_list" fields) in
          match _ensure_list raw_list "extracted_content_list" with
          | inr error =>
              extraction_loop max_retries remaining' traced_content
                (messages ++ tool_error_feedback tool_call
                               (lit ("ERROR: " +:+ error +:+ ". ")))
          | inl parsed_list =>
              (* Success *)
              ret {| extracted_content_list :=
                       match parsed_list with
                       | [] => [JStr traced_content]
                       | _ => parsed_list
                       end;
                     extraction_reasoning :=
                       default (JStr []) (jget "reasoning" fields) |}
          end
      | inr v =>
          raise (AttributeError ("'" +:+ type_name v
                                 +:+ "' object has no attribute 'get'"))
      end
      end
  end.

Definition _extract_support_from_source_card (traced_content : text)
    (source_card_id : string) (max_retries : nat) : M ExtractionResult :=
  source_content ← _get_card_content source_card_id;
  extraction_loop max_retries max_retries traced_content
    [MsgText "system" ROOT_CONTENT_EXTRACTION_SYSTEM_PROMPT;
     MsgText "user" (lit "## Traced Content Snippet" ++ ["010"%char]
                     ++ traced_content);
     MsgText "user" (lit "## Source Card Content" ++ ["010"%char]
                     ++ source_content)].

(** [for attempt in range(max_retries)] of [_find_support_in_card]. *)
Fixpoint support_loop (max_retries remaining : nat)
    (messages : list TraceMsg) : M SupportResult :=
  match remaining with
  | O => raise (failed_after "_find_support_in_card" max_retries)
  | S remaining' =>
      response_message ← call_llm messages SUPPORT_FINDING_TOOL;
      match response_tool_calls response_message with
      | [] =>
          support_loop max_retries remaining'
            (messages ++ no_tool_call_feedback response_message)
      | tool_call :: _ =>
      if negb (bool_decide (call_name tool_call = "report_support_finding_result"))
      then
        support_loop max_retries remaining'
          (messages ++ tool_error_feedback tool_call
                         (lit ("ERROR: Wrong tool: " +:+ call_name tool_call)))
      else
      match json_loads (call_arguments tool_call) with
      | inl e =>
          support_loop max_retries remaining'
            (messages ++ tool_error_feedback tool_call
                           (lit ("ERROR: Invalid JSON in arguments: " +:+ e)))
      | inr (JObj fields) =>
          let finish (l : option (list jval)) : M SupportResult :=
            ret {| has_support :=
                     default (JBool false) (jget "has_support" fields);
                   found_support_content_list := l;
                   support_reasoning :=
                     default (JStr []) (jget "reasoning" fields) |} in
          match jget "support_content_list" fields with
          | None | Some JNull => finish None
          | Some support_content_list =>
              match _ensure_list support_content_list "support_content_list" with
              | inr error =>
                  support_loop max_retries remaining'
                    (messages ++ tool_error_feedback tool_call
                       (lit ("ERROR: " +:+ error
                             +:+ ". Return support_content_list as JSON array, not string.")))
              | inl parsed_list => finish (Some parsed_list)
              end
          end
      | inr v =>
          raise (AttributeError ("'" +:+ type_name v
                                 +:+ "' object has no attribute 'get'"))
      end
      end
  end.

Definition _find_support_in_card (claim_content : text)
    (predecessor_card_id : string) (max_retries : nat) : M SupportResult :=
  predecessor_content ← _get_card_content predecessor_card_id;
  support_loop max_retries max_retries
    [MsgText "system" SUPPORT_FINDING_SYSTEM_PROMPT;
     MsgText "user" (lit "## Claim/Statement to Trace" ++ ["010"%char]
                     ++ claim_content);
     MsgText "user" (lit "## Predecessor Card Content" ++ ["010"%char]
                     ++ predecessor_content)].

End loops.

(** *** The trace tree and the recursive descent *)

#[warnings="-register-all"]
Inductive TraceResultNode := Node {
  node_card_id : string;
  support_content_list : option (list jval);
  card_main_content_with_highlight : option MainContent;
  children : option (list TraceResultNode);
}.

(** [TraceResultNode(card_id, support_content_list, content)]: a new node
    starts with an empty child list. *)
Definition new_node (id : string) (supports : option (list jval))
    (content : option MainContent) : TraceResultNode :=
  Node id supports content (Some []).

Definition set_children (node : TraceResultNode)
    (c : option (list TraceResultNode)) : TraceResultNode :=
  Node (node_card_id node) (support_content_list node)
    (card_main_content_with_highlight node) c.

(** The node attached for a predecessor that was checked without support. *)
Definition null_node (ref_card_id : string) : TraceResultNode :=
  set_children (new_node ref_card_id None None) None.

(** [sep.join(snippets)]: raises on an item that is not a string. *)
Definition join_snippets (sep : text) (l : list jval) : result text :=
  ss ← as_texts 0 l; Ok (join_text sep ss).

Definition snippet_separator : text := ["010"%char; "010"%char].

Record TraceResult := {
  result_project_id : string;
  trace_status : string;
  trace_result_tree : TraceResultNode;
}.

(** A computation that recurses on fuel: [None] when the fuel ran out. *)
Definition F (A : Type) : Type :=
  TraceState → option (result A * TraceState).

Section descent.
Context `{!TraceEnvironment} `{!Aligner}.

Definition run {A} (m : M A) : F A := λ st, Some (m st).

Definition bindF {A B} (m : F A) (k : A → F B) : F B :=
  λ st, match m st with
        | None => None
        | Some (Ok a, st') => k a st'
        | Some (Raise e, st') => Some (Raise e, st')
        end.

(** The loop over [explicit_refs]; [rec] is the recursive call. *)
Fixpoint check_refs (rec : TraceResultNode → text → F TraceResultNode)
    (explicit_refs : list string) (content_to_trace : text)
    (found_any_support : bool) (supporting_nodes : list TraceResultNode)
    : F (bool * list TraceResultNode) :=
  match explicit_refs with
  | [] => run (ret (found_any_support, supporting_nodes))
  | ref_card_id :: refs' =>
      (* Step 1: ask for supporting content in the predecessor *)
      bindF (run (_find_support_in_card content_to_trace ref_card_id 3))
        (λ result,
           match found_support_content_list result with
           | Some ((_ :: _) as support_list) =>
               if jtruthy (has_support result) then
                 (* Step 2: the predecessor's content with highlights *)
                 bindF (run (main_content ← _get_card_main_content ref_card_id;
                             _apply_highlight_to_content main_content
                               support_list))
                   (λ highlighted,
                      (* Step 3: the child node *)
                      let child_node :=
                        new_node ref_card_id (Some support_list)
                          (Some highlighted) in
                      (* Step 4: trace the child with its support content *)
                      bindF (run (lift (join_snippets snippet_separator
                                          support_list)))
                        (λ combined_content,
                           bindF (rec child_node combined_content)
                             (λ child_node',
                                check_refs rec refs' content_to_trace true
                                  (supporting_nodes ++ [child_node']))))
               else check_refs rec refs' content_to_trace
                      found_any_support supporting_nodes
           | _ => check_refs rec refs' content_to_trace
                    found_any_support supporting_nodes
           end)
  end.

Fixpoint _trace_node_recursive (fuel : nat) (node : TraceResultNode)
    (content_to_trace : text) : F TraceResultNode :=
  match fuel with
  | O => λ _, None
  | S fuel' =>
      bindF (run (_get_card_explicit_refs (node_card_id node)))
        (λ explicit_refs,
           match explicit_refs with
           | [] =>
               (* no predecessor: a leaf, its child list is empty *)
               run (ret (set_children node (Some [])))
           | _ =>
               bindF (check_refs (_trace_node_recursive fuel') explicit_refs
                        content_to_trace false [])
                 (λ '(found_any_support, supporting_nodes),
                    if found_any_support then
                      run (ret (set_children node (Some supporting_nodes)))
                    else
                      (* predecessors, none with support *)
                      run (λ st,
                             (Ok (set_children node
                                    (Some (null_node <$> explicit_refs))),
                              set_trace_failed true st)))
           end)
  end.

Definition trace_source (fuel : nat) (id : string) (content_to_trace : text)
    : F TraceResult :=
  bindF (run (λ st, (Ok tt, set_trace_failed false st)))
    (λ _,
  bindF (run (_extract_support_from_source_card content_to_trace id 3))
    (λ extraction_result,
       let extracted := extracted_content_list extraction_result in
  bindF (run (main_content ← _get_card_main_content id;
              _apply_highlight_to_content main_content extracted))
    (λ highlighted,
       let root_node := new_node id (Some extracted) (Some highlighted) in
  bindF (run (lift (join_snippets snippet_separator extracted)))
    (λ combined_content,
  bindF (_trace_node_recursive fuel root_node combined_content)
    (λ root_node',
  bindF (run get_state)
    (λ st,
       let status := if trace_failed st then "Failed" else "Success" in
       run (ret {| result_project_id := project_id;
                   trace_status := status;
                   trace_result_tree := root_node' |}))))))).

End descent.

End Tracing.

(** * Properties *)

(** ** The generation view *)

Section generation_view.
Import Turn.

(** A later synthesis result, and a later summary synthesis result. *)
Definition later_note (ctx : list (gmap string pyval)) (i : nat) : Prop :=
  ∃ j m, (i < j)%nat ∧ ctx !! j = Some m ∧ is_create_note_msg m = true.

Definition later_summary (ctx : list (gmap string pyval)) (i : nat) : Prop :=
  ∃ j m, (i < j)%nat ∧ ctx !! j = Some m ∧ is_summary_msg m = true.

(** A logged action result carries the keys [_add_tool_result] writes, and
    its name is a string, as the action name it is given is. *)
Definition tool_result_msg (m : gmap string pyval) : Prop :=
  is_Some (m !! "tool_call_id") ∧ (∃ n, m !! "name" = Some (PStr n))
  ∧ is_Some (m !! "content") ∧ is_Some (m !! "_compact_content").

Definition wf_history (ctx : list (gmap string pyval)) : Prop :=
  ∀ m, m ∈ ctx → is_tool_msg m = true → tool_result_msg m.

Inductive rendering := Full | Compact.

Definition content_key (r : rendering) : string :=
  match r with Full => "content" | Compact => "_compact_content" end.

(** [v] is the entry of the view that shows the result [m] in rendering [r]. *)
Definition rendered_as (r : rendering) (m v : gmap string pyval) : Prop :=
  ∃ a b c d,
    m !! "tool_call_id" = Some a ∧ m !! "role" = Some b
    ∧ m !! "name" = Some c ∧ m !! content_key r = Some d
    ∧ v = {[ "tool_call_id" := a; "role" := b; "name" := c; "content" := d ]}.

Lemma find_cursors_spec l : ∀ i ln ls ln' ls',
  find_cursors i l ln ls = (ln', ls') → ln ≤ i → ls ≤ i →
  (∀ k, k < ln' ↔ k < ln ∨ ∃ (j : nat) m,
          l !! j = Some m ∧ is_create_note_msg m = true ∧ k < i + Z.of_nat j)
  ∧ (∀ k, k < ls' ↔ k < ls ∨ ∃ (j : nat) m,
          l !! j = Some m ∧ is_summary_msg m = true ∧ k < i + Z.of_nat j).
Proof.
  induction l as [|msg l IH]; intros i ln ls ln' ls' Hf Hln Hls; simpl in Hf.
  - inversion Hf; subst. split; intros k; split; auto.
    all: intros [?|(j & m & Hj & _)]; [done|by rewrite lookup_nil in Hj].
  - destruct (is_create_note_msg msg) eqn:Hn.
    + destruct (get_truthy msg "_is_progress_summary_note") eqn:Hs.
      * apply IH in Hf as [H1 H2]; [|lia..].
        assert (is_summary_msg msg = true) as Hsum
          by (unfold is_summary_msg; by rewrite Hn, Hs).
        split; intros k; [rewrite H1|rewrite H2]; split.
        -- intros [?|(j & m & Hj & Hm & Hk)];
             [right; exists 0%nat, msg; split_and!; [done|done|lia]
             |right; exists (S j), m; split_and!; [done|done|lia]].
        -- intros [?|(j & m & Hj & Hm & Hk)]; [left; lia|].
           destruct j as [|j]; [left; lia|].
           right; exists j, m; split_and!; [done|done|lia].
        -- intros [?|(j & m & Hj & Hm & Hk)];
             [right; exists 0%nat, msg; split_and!; [done|done|lia]
             |right; exists (S j), m; split_and!; [done|done|lia]].
        -- intros [?|(j & m & Hj & Hm & Hk)]; [left; lia|].
           destruct j as [|j]; [left; lia|].
           right; exists j, m; split_and!; [done|done|lia].
      * apply IH in Hf as [H1 H2]; [|lia..].
        assert (is_summary_msg msg = false) as Hsum
          by (unfold is_summary_msg; by rewrite Hn, Hs).
        split; intros k; [rewrite H1|rewrite H2]; split.
        -- intros [?|(j & m & Hj & Hm & Hk)];
             [right; exists 0%nat, msg; split_and!; [done|done|lia]
             |right; exists (S j), m; split_and!; [done|done|lia]].
        -- intros [?|(j & m & Hj & Hm & Hk)]; [left; lia|].
           destruct j as [|j]; [left; lia|].
           right; exists j, m; split_and!; [done|done|lia].
        -- intros [?|(j & m & Hj & Hm & Hk)];
             [by left|right; exists (S j), m; split_and!; [done|done|lia]].
        -- intros [?|(j & m & Hj & Hm & Hk)]; [by left|].
           destruct j as [|j]; [simpl in Hj; congruence|].
           right; exists j, m; split_and!; [done|done|lia].
    + apply IH in Hf as [H1 H2]; [|lia..].
      assert (is_summary_msg msg = false) as Hsum
        by (unfold is_summary_msg; by rewrite Hn).
      split; intros k; [rewrite H1|rewrite H2]; split.
      all: try (intros [?|(j & m & Hj & Hm & Hk)];
                [by left|right; exists (S j), m; split_and!; [done|done|lia]]).
      all: intros [?|(j & m & Hj & Hm & Hk)]; [by left|];
           (destruct j as [|j]; [simpl in Hj; congruence|]);
           right; exists j, m; split_and!; [done|done|lia].
Qed.

Lemma name_is_create_note_msg m :
  is_tool_msg m = true →
  name_is_create_note (m !! "name") = is_create_note_msg m.
Proof.
  intros Ht. unfold is_create_note_msg, name_is_create_note, get_is.
  rewrite Ht. simpl. by destruct (m !! "name") as [[]|].
Qed.

Lemma raw_not_create_note m :
  in_raw_tools (m !! "name") = Ok true → is_create_note_msg m = false.
Proof.
  unfold is_create_note_msg, in_raw_tools, get_is.
  destruct (m !! "name") as [[| | |n| |]|]; try done.
  intros [= Hin%bool_decide_eq_true]. apply andb_false_intro2.
  apply bool_decide_eq_false. intros ->.
  unfold RAW_INFO_COLLECTION_TOOLS in Hin.
  rewrite !elem_of_cons, elem_of_nil in Hin.
  by destruct Hin as [?|[?|[]]].
Qed.

(** The membership test does not raise on a string. *)
Lemma in_raw_tools_str n :
  in_raw_tools (Some (PStr n))
  = Ok (bool_decide (n ∈ RAW_INFO_COLLECTION_TOOLS)).
Proof. done. Qed.

Lemma use_compact_raw name i ln ls :
  0 ≤ i → in_raw_tools name = Ok true →
  ∃ b, use_compact name i ln ls = Ok b ∧ (b = true ↔ i < ln).
Proof.
  intros Hi Hr. unfold use_compact. rewrite Hr. simpl.
  eexists. split; [done|].
  rewrite andb_true_iff, negb_true_iff, Z.eqb_neq, Z.ltb_lt. lia.
Qed.

Lemma use_compact_note name i ln ls :
  0 ≤ i → in_raw_tools name = Ok false → name_is_create_note name = true →
  ∃ b, use_compact name i ln ls = Ok b ∧ (b = true ↔ i < ls).
Proof.
  intros Hi Hr Hn. unfold use_compact. rewrite Hr. simpl. rewrite Hn.
  eexists. split; [done|].
  rewrite andb_true_iff, negb_true_iff, Z.eqb_neq, Z.ltb_lt. lia.
Qed.

Lemma use_compact_other name i ln ls :
  in_raw_tools name = Ok false → name_is_create_note name = false →
  use_compact name i ln ls = Ok false.
Proof. intros Hr Hn. unfold use_compact. rewrite Hr. simpl. by rewrite Hn. Qed.

(** On a string name the rendering is decided without an exception. *)
Lemma use_compact_str n i ln ls :
  ∃ b, use_compact (Some (PStr n)) i ln ls = Ok b.
Proof.
  unfold use_compact. rewrite in_raw_tools_str. simpl.
  repeat case_match; by eexists.
Qed.

Lemma clean_msg_rendered m b :
  is_tool_msg m = true → tool_result_msg m →
  ∃ v, clean_msg m b = Ok v
       ∧ rendered_as (if b then Compact else Full) m v.
Proof.
  intros Ht ([a Ha] & [c Hc] & [d Hd] & [e He]).
  assert (m !! "role" = Some (PStr "tool")) as Hr.
  { unfold is_tool_msg, get_is in Ht.
    destruct (m !! "role") as [[| | |r| |]|]; try done.
    by apply bool_decide_eq_true in Ht as ->. }
  unfold clean_msg, getitem. rewrite Ha, Hr, Hc. simpl.
  destruct b; [rewrite He|rewrite Hd]; simpl;
    (eexists; split; [done|]); unfold rendered_as; simpl; eauto 10.
Qed.

Lemma build_messages_spec l : ∀ i ln ls,
  wf_history l →
  ∃ view, build_messages i l ln ls = Ok view
    ∧ length view = length l
    ∧ ∀ (k : nat) m, l !! k = Some m →
        ∃ v, view !! k = Some v
          ∧ (is_tool_msg m = false → v = m)
          ∧ (is_tool_msg m = true →
             ∃ b, use_compact (m !! "name") (i + Z.of_nat k) ln ls = Ok b
                  ∧ rendered_as (if b then Compact else Full) m v).
Proof.
  induction l as [|msg l IH]; intros i ln ls Hwf.
  - exists []. split_and!; [done..|]. intros k m Hk. by rewrite lookup_nil in Hk.
  - destruct (IH (i + 1) ln ls) as (view & Hb & Hlen & Hview).
    { intros m Hm. apply Hwf. by right. }
    simpl. rewrite Hb.
    destruct (is_tool_msg msg) eqn:Ht.
    + assert (tool_result_msg msg) as Hmsg by (apply Hwf; [by left|done]).
      destruct Hmsg as (Hid & [n Hn] & Hfull & Hcompact).
      destruct (use_compact_str n i ln ls) as [b Hu]. rewrite <- Hn in Hu.
      destruct (clean_msg_rendered msg b Ht) as (v & Hv & Hr).
      { split_and!; [done|by exists n|done|done]. }
      rewrite Hu. simpl. rewrite Hv. simpl.
      exists (v :: view). split_and!; [done|simpl; lia|].
      intros [|k] m Hk; simpl in Hk.
      * inversion Hk; subst m. exists v. split_and!; [done|congruence|].
        intros _. exists b. by rewrite Z.add_0_r.
      * destruct (Hview k m Hk) as (v' & Hv' & H1 & H2).
        exists v'. split_and!; [done|done|].
        intros Hm. specialize (H2 Hm).
        by replace (i + Z.of_nat (S k)) with (i + 1 + Z.of_nat k) by lia.
    + simpl. exists (msg :: view). split_and!; [done|simpl; lia|].
      intros [|k] m Hk; simpl in Hk.
      * inversion Hk; subst m. exists msg. split_and!; [done|done|congruence].
      * destruct (Hview k m Hk) as (v' & Hv' & H1 & H2).
        exists v'. split_and!; [done|done|].
        intros Hm. specialize (H2 Hm).
        by replace (i + Z.of_nat (S k)) with (i + 1 + Z.of_nat k) by lia.
Qed.

(** The cursors of the first loop, read as "a later result exists". *)
Lemma cursors_later ctx ln ls :
  find_cursors 0 ctx (-1) (-1) = (ln, ls) →
  ∀ i : nat, (Z.of_nat i < ln ↔ later_note ctx i)
             ∧ (Z.of_nat i < ls ↔ later_summary ctx i).
Proof.
  intros Hf i. apply find_cursors_spec in Hf as [H1 H2]; [|lia..].
  unfold later_note, later_summary. rewrite H1, H2.
  split; split.
  all: try (intros [?|(j & m & Hj & Hm & Hk)]; [lia|];
            exists j, m; split_and!; [lia|done|done]).
  all: intros (j & m & Hk & Hj & Hm); right; exists j, m;
       split_and!; [done|done|lia].
Qed.

(** Every logged message has an entry in the view, shown as the two cursors
    decide. *)
Lemma view_entries (s : AgentState) :
  wf_history (context_list s) →
  ∃ view,
    _prepare_messages_for_llm s = (Ok view, s)
    ∧ length view = length (context_list s)
    ∧ ∀ (i : nat) m, context_list s !! i = Some m →
        ∃ v, view !! i = Some v
          ∧ (is_tool_msg m = false → v = m)
          ∧ (is_tool_msg m = true → in_raw_tools (m !! "name") = Ok true →
             (later_note (context_list s) i → rendered_as Compact m v)
             ∧ (¬ later_note (context_list s) i → rendered_as Full m v))
          ∧ (is_create_note_msg m = true →
             (later_summary (context_list s) i → rendered_as Compact m v)
             ∧ (¬ later_summary (context_list s) i → rendered_as Full m v))
          ∧ (is_tool_msg m = true → in_raw_tools (m !! "name") = Ok false →
             is_create_note_msg m = false → rendered_as Full m v).
Proof.
  intros Hwf. unfold _prepare_messages_for_llm.
  destruct (find_cursors 0 (context_list s) (-1) (-1)) as [ln ls] eqn:Hc.
  destruct (build_messages_spec (context_list s) 0 ln ls Hwf)
    as (view & Hb & Hlen & Hview).
  exists view. rewrite Hb. split_and!; [done|done|].
  intros i m Hi. destruct (Hview i m Hi) as (v & Hv & Hnt & Ht).
  destruct (cursors_later _ _ _ Hc i) as [Hln Hls].
  exists v. split_and!; [done|done|..].
  - intros Htool Hraw. destruct (Ht Htool) as (b & Hb' & Hr).
    rewrite Z.add_0_l in Hb'.
    destruct (use_compact_raw (m !! "name") (Z.of_nat i) ln ls
                ltac:(lia) Hraw) as (b' & Hu & Hiff).
    assert (b' = b) as -> by congruence.
    destruct b; split; intros Hl; try done.
    + exfalso. apply Hl, Hln, Hiff. done.
    + apply Hln, Hiff in Hl. done.
  - intros Hnote.
    assert (is_tool_msg m = true) as Htool
      by (unfold is_create_note_msg in Hnote; by apply andb_true_iff in Hnote as []).
    destruct (Ht Htool) as (b & Hb' & Hr). rewrite Z.add_0_l in Hb'.
    assert (in_raw_tools (m !! "name") = Ok false) as Hraw.
    { unfold is_create_note_msg, get_is in Hnote.
      apply andb_true_iff in Hnote as [_ Hname].
      destruct (m !! "name") as [[| | |n| |]|]; try done.
      apply bool_decide_eq_true in Hname as ->. done. }
    destruct (use_compact_note (m !! "name") (Z.of_nat i) ln ls
                ltac:(lia) Hraw) as (b' & Hu & Hiff).
    { by rewrite name_is_create_note_msg. }
    assert (b' = b) as -> by congruence.
    destruct b; split; intros Hl; try done.
    + exfalso. apply Hl, Hls, Hiff. done.
    + apply Hls, Hiff in Hl. done.
  - intros Htool Hraw Hnote. destruct (Ht Htool) as (b & Hb' & Hr).
    rewrite use_compact_other in Hb'; [|done|by rewrite name_is_create_note_msg].
    by injection Hb' as <-.
Qed.

(** Logging a result with [_add_tool_result] keeps the history well formed. *)
Lemma wf_history_add_tool_result id name content flag (s : AgentState) :
  wf_history (context_list s) →
  wf_history (context_list (_add_tool_result id name content flag s).2).
Proof.
  intros Hwf m Hm Ht. unfold _add_tool_result in Hm. simpl in Hm.
  apply elem_of_app in Hm as [Hm|Hm]; [by apply Hwf|].
  apply list_elem_of_singleton in Hm as ->.
  unfold tool_result_msg.
  case_bool_decide; split_and!; try (exists name); by simplify_map_eq.
Qed.

Lemma wf_history_initial : wf_history (context_list initial_agent_state).
Proof. intros m Hm. by apply elem_of_nil in Hm. Qed.

(** C1: the generation view renders a raw-acquisition result compact iff a
    synthesis result follows it, a synthesis result compact iff a summary
    synthesis result follows it, and every other result full; non-result
    messages pass unchanged, and building the view returns the agent state
    as it was. *)
Theorem C1_generation_view (s : AgentState) :
  wf_history (context_list s) →
  ∃ view,
    _prepare_messages_for_llm s = (Ok view, s)
    ∧ length view = length (context_list s)
    ∧ ∀ (i : nat) m, context_list s !! i = Some m →
        ∃ v, view !! i = Some v
          ∧ (is_tool_msg m = false → v = m)
          ∧ (is_tool_msg m = true → in_raw_tools (m !! "name") = Ok true →
             (later_note (context_list s) i → rendered_as Compact m v)
             ∧ (¬ later_note (context_list s) i → rendered_as Full m v))
          ∧ (is_create_note_msg m = true →
             (later_summary (context_list s) i → rendered_as Compact m v)
             ∧ (¬ later_summary (context_list s) i → rendered_as Full m v))
          ∧ (is_tool_msg m = true → in_raw_tools (m !! "name") = Ok false →
             is_create_note_msg m = false → rendered_as Full m v).
Proof. apply view_entries. Qed.

(** C4 (amended): the most recent synthesis result and the most recent
    summary result are rendered full and every earlier summary result is
    rendered compact; an earlier synthesis result is rendered compact when a
    summary result follows it and full when none does. *)
Theorem C4_most_recent_full (s : AgentState) :
  wf_history (context_list s) →
  ∃ view,
    _prepare_messages_for_llm s = (Ok view, s)
    ∧ ∀ (i : nat) m, context_list s !! i = Some m →
        ∃ v, view !! i = Some v
          ∧ (is_create_note_msg m = true → ¬ later_note (context_list s) i →
             rendered_as Full m v)
          ∧ (is_summary_msg m = true → ¬ later_summary (context_list s) i →
             rendered_as Full m v)
          ∧ (is_summary_msg m = true → later_summary (context_list s) i →
             rendered_as Compact m v)
          ∧ (is_create_note_msg m = true →
             (later_summary (context_list s) i → rendered_as Compact m v)
             ∧ (¬ later_summary (context_list s) i → rendered_as Full m v)).
Proof.
  intros Hwf. destruct (view_entries s Hwf) as (view & Hp & _ & Hview).
  exists view. split; [done|]. intros i m Hi.
  destruct (Hview i m Hi) as (v & Hv & _ & _ & Hnote & _).
  exists v. split_and!; [done|..].
  - intros Hn Hlater. apply Hnote; [done|].
    intros (j & m' & Hj & Hm' & Hs). apply Hlater. exists j, m'.
    split_and!; [done..|]. unfold is_summary_msg in Hs.
    by apply andb_true_iff in Hs as [].
  - intros Hs. apply Hnote. unfold is_summary_msg in Hs.
    by apply andb_true_iff in Hs as [].
  - intros Hs. apply Hnote. unfold is_summary_msg in Hs.
    by apply andb_true_iff in Hs as [].
  - done.
Qed.

(** The first logged result whose kind cannot be decided stops the second
    loop. *)
Lemma build_messages_raises l : ∀ i (k : nat) m e ln ls,
  wf_history (take k l) → l !! k = Some m → is_tool_msg m = true →
  use_compact (m !! "name") (i + Z.of_nat k) ln ls = Raise e →
  build_messages i l ln ls = Raise e.
Proof.
  induction l as [|msg l IH]; intros i k m e ln ls Hwf Hk Ht Hu; [done|].
  destruct k as [|k]; simpl in Hk.
  - injection Hk as ->. simpl. rewrite Ht. rewrite Z.add_0_r in Hu.
    by rewrite Hu.
  - simpl in Hwf.
    assert (∃ v, (if is_tool_msg msg
                  then compact_version ← use_compact (msg !! "name") i ln ls;
                       clean_msg msg compact_version
                  else Ok msg) = Ok v) as [v Hv].
    { destruct (is_tool_msg msg) eqn:Htm; [|by eexists].
      assert (tool_result_msg msg) as Hmsg by (apply Hwf; [by left|done]).
      pose proof Hmsg as (_ & [n Hn] & _).
      destruct (use_compact_str n i ln ls) as [b Hb]. rewrite <- Hn in Hb.
      destruct (clean_msg_rendered msg b Htm Hmsg) as (v & Hv & _).
      exists v. rewrite Hb. simpl. done. }
    simpl. rewrite Hv. simpl.
    rewrite (IH (i + 1) k m e ln ls); [done| |done|done|].
    + intros m' Hm'. apply Hwf. by right.
    + by replace (i + 1 + Z.of_nat k) with (i + Z.of_nat (S k)) by lia.
Qed.

(** X26: a logged result whose name is a list or a dictionary stops the
    construction of the view.  The membership test on the set of raw
    acquisition tools hashes the name: when the results logged before it are
    well formed, the view is not built and the [TypeError] of the
    unhashable name is raised, with the agent state as it was. *)
Theorem unhashable_name_raises (s : AgentState) (i : nat) m :
  wf_history (take i (context_list s)) →
  context_list s !! i = Some m → is_tool_msg m = true →
  ((∃ l, m !! "name" = Some (PList l)) →
   _prepare_messages_for_llm s
   = (Raise (TypeError "unhashable type: 'list'"), s))
  ∧ ((∃ kvs, m !! "name" = Some (PDict kvs)) →
     _prepare_messages_for_llm s
     = (Raise (TypeError "unhashable type: 'dict'"), s)).
Proof.
  intros Hwf Hi Ht. unfold _prepare_messages_for_llm.
  destruct (find_cursors 0 (context_list s) (-1) (-1)) as [ln ls].
  split; intros [x Hx]; f_equal;
    apply (build_messages_raises _ 0 i m); try done;
    unfold use_compact; by rewrite Hx.
Qed.

End generation_view.

(** ** Examples of the generation view *)

Section generation_view_examples.
Import Turn.

Definition example_result (c f : string) : ToolResult :=
  {| compact := PStr c; full := PStr f |}.

(** A history of three logged results: one web search, then two syntheses
    that are not summaries. *)
Definition history_search_note_note : AgentState :=
  let s1 := (_add_tool_result "call_1" "search_web"
               (example_result "compact 1" "full 1") (PBool false)
               initial_agent_state).2 in
  let s2 := (_add_tool_result "call_2" "create_note"
               (example_result "compact 2" "full 2") (PBool false) s1).2 in
  (_add_tool_result "call_3" "create_note"
     (example_result "compact 3" "full 3") (PBool false) s2).2.

Lemma history_search_note_note_wf :
  wf_history (context_list history_search_note_note).
Proof.
  unfold history_search_note_note.
  repeat apply wf_history_add_tool_result. apply wf_history_initial.
Qed.

Lemma C1_generation_view_witness :
  ∃ view,
    _prepare_messages_for_llm history_search_note_note
    = (Ok view, history_search_note_note)
    ∧ length view = length (context_list history_search_note_note)
    ∧ ∀ (i : nat) m, context_list history_search_note_note !! i = Some m →
        ∃ v, view !! i = Some v
          ∧ (is_tool_msg m = false → v = m)
          ∧ (is_tool_msg m = true → in_raw_tools (m !! "name") = Ok true →
             (later_note (context_list history_search_note_note) i →
              rendered_as Compact m v)
             ∧ (¬ later_note (context_list history_search_note_note) i →
                rendered_as Full m v))
          ∧ (is_create_note_msg m = true →
             (later_summary (context_list history_search_note_note) i →
              rendered_as Compact m v)
             ∧ (¬ later_summary (context_list history_search_note_note) i →
                rendered_as Full m v))
          ∧ (is_tool_msg m = true → in_raw_tools (m !! "name") = Ok false →
             is_create_note_msg m = false → rendered_as Full m v).
Proof.
  apply (C1_generation_view history_search_note_note).
  apply history_search_note_note_wf.
Defined.

Lemma C4_most_recent_full_witness :
  ∃ view,
    _prepare_messages_for_llm history_search_note_note
    = (Ok view, history_search_note_note)
    ∧ ∀ (i : nat) m, context_list history_search_note_note !! i = Some m →
        ∃ v, view !! i = Some v
          ∧ (is_create_note_msg m = true →
             ¬ later_note (context_list history_search_note_note) i →
             rendered_as Full m v)
          ∧ (is_summary_msg m = true →
             ¬ later_summary (context_list history_search_note_note) i →
             rendered_as Full m v)
          ∧ (is_summary_msg m = true →
             later_summary (context_list history_search_note_note) i →
             rendered_as Compact m v)
          ∧ (is_create_note_msg m = true →
             (later_summary (context_list history_search_note_note) i →
              rendered_as Compact m v)
             ∧ (¬ later_summary (context_list history_search_note_note) i →
                rendered_as Full m v)).
Proof.
  apply (C4_most_recent_full history_search_note_note).
  apply history_search_note_note_wf.
Defined.

(** The entry [_add_tool_result] logs, and the entry the view shows. *)
Definition logged (id name c f : string) : gmap string pyval :=
  {[ "tool_call_id" := PStr id; "role" := PStr "tool"; "name" := PStr name;
     "content" := PStr f; "_compact_content" := PStr c ]}.

Definition shown (id name c : string) : gmap string pyval :=
  {[ "tool_call_id" := PStr id; "role" := PStr "tool"; "name" := PStr name;
     "content" := PStr c ]}.

(** The first of two syntheses is followed by a more recent synthesis and is
    still shown with its full content, not its compact one. *)
Lemma C4_earlier_synthesis_full :
  ∃ view m v,
    _prepare_messages_for_llm history_search_note_note
    = (Ok view, history_search_note_note)
    ∧ context_list history_search_note_note !! 1%nat = Some m
    ∧ is_create_note_msg m = true
    ∧ later_note (context_list history_search_note_note) 1
    ∧ view !! 1%nat = Some v
    ∧ m !! "_compact_content" = Some (PStr "compact 2")
    ∧ v !! "content" = Some (PStr "full 2").
Proof.
  exists [shown "call_1" "search_web" "compact 1";
          shown "call_2" "create_note" "full 2";
          shown "call_3" "create_note" "full 3"],
         (<["_is_progress_summary_note" := PBool false]>
            (logged "call_2" "create_note" "compact 2" "full 2")),
         (shown "call_2" "create_note" "full 2").
  split_and!; try reflexivity.
  exists 2%nat,
    (<["_is_progress_summary_note" := PBool false]>
       (logged "call_3" "create_note" "compact 3" "full 3")).
  split_and!; [lia|reflexivity|reflexivity].
Qed.

End generation_view_examples.

Section unhashable_name_example.
Import Turn.

(** A tool message whose name is a list, alone in the history. *)
Definition list_named_result : gmap string pyval :=
  {[ "tool_call_id" := PStr "call_1"; "role" := PStr "tool";
     "name" := PList [PStr "search_web"]; "content" := PStr "full 1";
     "_compact_content" := PStr "compact 1" ]}.

Definition history_list_name : AgentState :=
  set_context_list (λ _, [list_named_result]) initial_agent_state.

Lemma unhashable_name_raises_witness :
  _prepare_messages_for_llm history_list_name
  = (Raise (TypeError "unhashable type: 'list'"), history_list_name).
Proof.
  apply (proj1 (unhashable_name_raises history_list_name 0 list_named_result
                  ltac:(by intros m ?%elem_of_nil) eq_refl eq_refl)).
  by eexists.
Defined.

End unhashable_name_example.

(** ** The workflow policy *)

Section workflow_policy.
Import Turn.
Context `{!Environment}.









Lemma check_other s name args :
  name ∉ RAW_INFO_COLLECTION_TOOLS → name ≠ "create_note" →
  _check_note_creation_enforcement s name args = None.
Proof.
  intros Hraw Hne. unfold _check_note_creation_enforcement.
  by rewrite (bool_decide_eq_false_2 _ Hraw), (bool_decide_eq_false_2 _ Hne).
Qed.









End workflow_policy.

(** ** An example session for the workflow policy *)

Section workflow_policy_example.
Import Turn.

(** A handler that stores a new search card and reports its id. *)
Definition example_handler (_ : gmap string pyval) (s : AgentState)
    : result ToolResult * AgentState :=
  let '(id, s') :=
    create_in_progress_card
      (λ id refs, WebSearchResultCard_initial_create id [] refs []) s in
  (Ok {| compact := PStr ("saved in card " +:+ id);
         full := PStr ("results of card " +:+ id) |}, s').








End workflow_policy_example.

(** ** Dispatch: the error paths and the counters *)

Section dispatch_props.
Import Turn.
Context `{!Environment}.




Lemma filter_nil_iff {A} (f : A → bool) (l : list A) :
  List.filter f l = [] ↔ ∀ x, x ∈ l → f x = false.
Proof.
  induction l as [|a l IH]; simpl.
  - split; [intros _ x Hx; by apply elem_of_nil in Hx|done].
  - destruct (f a) eqn:Ha; split.
    + done.
    + intros Hall. specialize (Hall a (list_elem_of_here _ _)). congruence.
    + intros Hl x Hx. apply elem_of_cons in Hx as [->|Hx]; [done|].
      by apply IH.
    + intros Hall. apply IH. intros x Hx. apply Hall. by right.
Qed.

(** X4: for an action with a declared schema, validation passes exactly when
    every required parameter is provided and, if the schema declares any
    property, every provided parameter is a declared one; an action without
    a schema is never refused. *)
Theorem validation_passes_iff (function_name : string)
    (function_args : gmap string pyval) :
  (_get_tool_schema function_name = None →
   _validate_tool_arguments function_name function_args = None)
  ∧ (∀ schema, _get_tool_schema function_name = Some schema →
       _validate_tool_arguments function_name function_args = None
       ↔ (∀ p, p ∈ required schema → is_Some (function_args !! p))
         ∧ (properties schema = []
            ∨ ∀ p, is_Some (function_args !! p) →
                   p ∈ (properties schema).*1)).
Proof.
  split.
  - intros Hs. unfold _validate_tool_arguments. by rewrite Hs.
  - intros schema Hs. unfold _validate_tool_arguments. rewrite Hs.
    destruct (List.filter _ (required schema)) as [|m ms] eqn:Hmiss.
    + pose proof (proj1 (filter_nil_iff _ _) Hmiss) as Hnone.
      clear Hmiss. rename Hnone into Hmiss.
      assert (∀ p, p ∈ required schema → is_Some (function_args !! p)) as Hreq.
      { intros p Hp. specialize (Hmiss p Hp). simpl in Hmiss.
        apply negb_false_iff, bool_decide_eq_true in Hmiss.
        by apply elem_of_dom. }
      destruct (properties schema) as [|pr prs] eqn:Hprops.
      { split; [intros _; split; [done|by left]|done]. }
      case_bool_decide as Hunk.
      * split; [|done]. intros _. split; [done|]. right. intros p Hp.
        apply elem_of_dom in Hp.
        destruct (decide (p ∈ (pr :: prs).*1)) as [|Hn]; [done|].
        exfalso. apply (not_elem_of_empty (C:=gset string) p).
        rewrite <- Hunk. apply elem_of_difference. split; [done|].
        by rewrite elem_of_list_to_set.
      * split; [done|]. intros [_ [Hnil|Hall]]; [done|].
        exfalso. apply Hunk. apply set_eq. intros p. split.
        -- intros [Hp Hn]%elem_of_difference. exfalso. apply Hn.
           apply elem_of_list_to_set, Hall. by apply elem_of_dom.
        -- intros Hp. by apply not_elem_of_empty in Hp.
    + split; [done|]. intros [Hreq _]. exfalso.
      assert (m ∈ List.filter
                (λ p, negb (bool_decide (p ∈ dom function_args)))
                (required schema)) as Hm
        by (rewrite Hmiss; by left).
      apply list_elem_of_In, List.filter_In in Hm as [Hin Hneg].
      apply list_elem_of_In, Hreq, elem_of_dom in Hin.
      apply negb_true_iff, bool_decide_eq_false in Hneg. done.
Qed.

End dispatch_props.

(** ** A turn: counters, finish and the empty action list *)

Section turn_props.
Import Turn.
Context `{!Environment} `{!GenerationService}.









End turn_props.

(** ** Examples of the dispatch and of a turn *)

Section dispatch_examples.
Import Turn.

(** The payload [{"search_term": "q"}]. *)
Definition search_payload : string :=
  "{" +:+ double_quote +:+ "search_term" +:+ double_quote +:+ ": "
  +:+ double_quote +:+ "q" +:+ double_quote +:+ "}".

(** The payload [{"error": "bad"}]. *)
Definition error_payload : string :=
  "{" +:+ double_quote +:+ "error" +:+ double_quote +:+ ": "
  +:+ double_quote +:+ "bad" +:+ double_quote +:+ "}".

(** The payload [{"final_summary": "done"}]. *)
Definition finish_payload : string :=
  "{" +:+ double_quote +:+ "final_summary" +:+ double_quote +:+ ": "
  +:+ double_quote +:+ "done" +:+ double_quote +:+ "}".

Definition search_schema : ToolSchema :=
  {| schema_name := "search_web"; required := ["search_term"];
     properties :=
       [("search_term",
         {| param_type := Some "string";
            param_description := Some "The search query" |})] |}.

(** An environment with the declared action [search_web] and the action
    [finish_turn]; its decoder knows four payloads. *)
Definition schema_env : Environment :=
  {| json_loads := λ payload,
       if bool_decide (payload = "{}") then inr ∅
       else if bool_decide (payload = search_payload)
       then inr {[ "search_term" := PStr "q" ]}
       else if bool_decide (payload = error_payload)
       then inr {[ "error" := PStr "bad" ]}
       else if bool_decide (payload = finish_payload)
       then inr {[ "final_summary" := PStr "done" ]}
       else inl "Expecting value: line 1 column 1 (char 0)";
     tools := [search_schema];
     available_tool_functions :=
       {[ "search_web" := example_handler;
          "finish_turn" := example_handler ]};
     set_order := elements |}.




Lemma validation_passes_iff_witness :
  @_validate_tool_arguments schema_env "search_web"
    {[ "search_term" := PStr "q" ]} = None
  ∧ @_validate_tool_arguments schema_env "create_note" ∅ = None.
Proof.
  split.
  - apply (proj2 (@validation_passes_iff schema_env "search_web"
                    {[ "search_term" := PStr "q" ]}) search_schema eq_refl).
    split.
    + intros p Hp. apply list_elem_of_singleton in Hp as ->.
      rewrite lookup_singleton_eq. by eexists.
    + right. intros p [v Hp]. apply lookup_singleton_Some in Hp as [<- _].
      by left.
  - apply (proj1 (@validation_passes_iff schema_env "create_note" ∅)).
    reflexivity.
Defined.

End dispatch_examples.

Section turn_examples.
Import Turn.









End turn_examples.

(** ** Card identifiers and interrupt cleanup *)

Section card_store.
Import Turn.

Lemma digit_of_pretty_N_char d :
  (d < 10)%N → digit_of (pretty_N_char d) = Some d.
Proof.
  intros Hd.
  assert (d = 0 ∨ d = 1 ∨ d = 2 ∨ d = 3 ∨ d = 4 ∨ d = 5 ∨ d = 6 ∨ d = 7
          ∨ d = 8 ∨ d = 9)%N as Hcases by lia.
  destruct Hcases as [->|[->|[->|[->|[->|[->|[->|[->|[->| ->]]]]]]]]];
    reflexivity.
Qed.

Lemma parse_number_pretty_N_go x : ∀ s,
  (0 < x)%N → parse_number (pretty_N_go x s) = parse_digits s x.
Proof.
  induction (N.lt_wf_0 x) as [x _ IH]; intros s Hx.
  rewrite pretty_N_go_step by lia.
  assert (x `mod` 10 < 10)%N as Hmod by (apply N.mod_lt; lia).
  destruct (decide (x `div` 10 = 0)%N) as [E|E].
  - rewrite E, pretty_N_go_0. unfold parse_number.
    rewrite digit_of_pretty_N_char by done. f_equal.
    apply N.div_small_iff in E; [|lia]. by apply N.mod_small.
  - assert (x / 10 < x)%N as Hlt by (apply N.div_lt; lia).
    assert (0 < x / 10)%N as Hpos by (apply N.neq_0_lt_0; exact E).
    rewrite (IH _ Hlt _ Hpos). simpl.
    rewrite digit_of_pretty_N_char by done. f_equal.
    rewrite (N.div_mod x 10) at 3 by lia. lia.
Qed.

(** A string that starts with a digit has no blank and no sign to skip. *)
Lemma parse_int_digit c s d :
  digit_of c = Some d →
  parse_int (String c s) = (n ← parse_number (String c s); Some (Z.of_N n)).
Proof.
  destruct c as [[] [] [] [] [] [] [] []]; intros Hd;
    try discriminate Hd; reflexivity.
Qed.

(** [int(str(n)) == n] for a natural number [n]. *)
Lemma int_str (n : N) : int (str (Z.of_N n)) = Ok (Z.of_N n).
Proof.
  destruct n as [|p]; [reflexivity|].
  unfold str. simpl.
  change (pretty (Z.pos p)) with (pretty (N.pos p)).
  unfold pretty, pretty_N. destruct (decide (N.pos p = 0)%N); [done|].
  pose proof (parse_number_pretty_N_go (N.pos p) "" ltac:(lia)) as Hp.
  simpl in Hp. unfold int.
  destruct (pretty_N_go (N.pos p) "") as [|c s]; [done|].
  destruct (digit_of c) as [d|] eqn:Hd;
    [|unfold parse_number in Hp; by rewrite Hd in Hp].
  by rewrite (parse_int_digit _ _ _ Hd), Hp.
Qed.

Lemma str_inj z1 z2 : str z1 = str z2 → z1 = z2.
Proof. apply pretty_Z_inj. Qed.

Lemma cards_to_remove_spec (cd : gmap string InfoCard) k :
  k ∈ cards_to_remove cd ↔ ∃ c, cd !! k = Some c ∧ status c = in_progress.
Proof.
  unfold cards_to_remove. rewrite list_elem_of_fmap. split.
  - intros ([k' c] & -> & Hkc). apply elem_of_map_to_list in Hkc.
    apply map_lookup_filter_Some in Hkc as [Hc Hs]. by exists c.
  - intros (c & Hc & Hs). exists (k, c). split; [done|].
    apply elem_of_map_to_list. by apply map_lookup_filter_Some.
Qed.

Lemma remove_cards_spec ids : ∀ (cd : gmap string InfoCard) k,
  remove_cards ids cd !! k = if decide (k ∈ ids) then None else cd !! k.
Proof.
  unfold remove_cards.
  induction ids as [|id ids IH]; intros cd k.
  - destruct (decide (k ∈ [])) as [Hin|_]; [by apply elem_of_nil in Hin|done].
  - change (foldl (λ d i, delete i d) cd (id :: ids))
      with (foldl (λ d i, delete i d) (delete id cd) ids).
    rewrite IH.
    destruct (decide (k ∈ ids)) as [Hin|Hnin];
      destruct (decide (k ∈ id :: ids)) as [Hin'|Hnin']; try done.
    + exfalso. apply Hnin'. by right.
    + apply elem_of_cons in Hin' as [->|?]; [|done]. apply lookup_delete_eq.
    + apply lookup_delete_ne. intros ->. apply Hnin'. by left.
Qed.

(** The cards that are not in progress. *)
Definition kept_cards (cd : gmap string InfoCard) : gmap string InfoCard :=
  filter (λ kv, status kv.2 ≠ in_progress) cd.

Lemma kept_cards_lookup (cd : gmap string InfoCard) k :
  kept_cards cd !! k
  = match cd !! k with
    | Some c => if decide (status c = in_progress) then None else Some c
    | None => None
    end.
Proof.
  unfold kept_cards. destruct (cd !! k) as [c|] eqn:Hk.
  - destruct (decide (status c = in_progress)) as [Hs|Hs].
    + apply map_lookup_filter_None. right. intros c' Hc' Hne.
      simpl in Hne. congruence.
    + by apply map_lookup_filter_Some.
  - apply map_lookup_filter_None. by left.
Qed.

Lemma remove_in_progress (cd : gmap string InfoCard) :
  remove_cards (cards_to_remove cd) cd = kept_cards cd.
Proof.
  apply map_eq. intros k. rewrite remove_cards_spec, kept_cards_lookup.
  destruct (decide (k ∈ cards_to_remove cd)) as [Hin|Hnin].
  - apply cards_to_remove_spec in Hin as (c & -> & Hs).
    by rewrite decide_True.
  - destruct (cd !! k) as [c|] eqn:Hk; [|done].
    destruct (decide (status c = in_progress)) as [Hs|Hs]; [|done].
    exfalso. apply Hnin, cards_to_remove_spec. by exists c.
Qed.

(** X8: interrupt cleanup removes exactly the cards that are in progress:
    whatever the outcome of the cleanup, the store it leaves holds every
    card that was not in progress, unchanged, and no other card. *)
Theorem cleanup_removes_in_progress (s : AgentState) k :
  card_dict (_cleanup_interrupted_states s).2 !! k
  = match card_dict s !! k with
    | Some c => if decide (status c = in_progress) then None else Some c
    | None => None
    end.
Proof.
  assert (card_dict (_cleanup_interrupted_states s).2
          = kept_cards (card_dict s)) as ->.
  { unfold _cleanup_interrupted_states. simpl.
    rewrite remove_in_progress. repeat case_match; done. }
  apply kept_cards_lookup.
Qed.

(** An identifier in the form [generate_card_id] writes: [str(n)]. *)
Definition canonical_id (k : string) : Prop := ∃ n : N, k = str (Z.of_N n).

Definition canonical_ids (cd : gmap string InfoCard) : Prop :=
  ∀ k, is_Some (cd !! k) → canonical_id k.

Lemma ints_of_canonical ks :
  (∀ k, k ∈ ks → canonical_id k) →
  ∃ ns, ints_of ks = Ok ns ∧ Forall2 (λ k n, int k = Ok n ∧ k = str n) ks ns.
Proof.
  induction ks as [|k ks IH]; intros Hc.
  - exists []. by split.
  - destruct IH as (ns & Hns & Hall); [intros k' Hk'; apply Hc; by right|].
    destruct (Hc k) as [n ->]; [by left|].
    exists (Z.of_N n :: ns). simpl. rewrite int_str. simpl. rewrite Hns.
    split; [done|]. constructor; [|done]. split; [apply int_str|done].
Qed.

Lemma int_raises k e : int k = Raise e → e = int_error k.
Proof. unfold int. case_match; congruence. Qed.

(** The conversion of the keys stops at a key that is no number, with the
    error of that key. *)
Lemma ints_of_raises ks k e :
  k ∈ ks → int k = Raise e →
  ∃ k', k' ∈ ks ∧ int k' = Raise (int_error k')
        ∧ ints_of ks = Raise (int_error k').
Proof.
  induction ks as [|k0 ks IH]; intros Hin He; [by apply elem_of_nil in Hin|].
  simpl. destruct (int k0) as [n|e0] eqn:E0.
  - apply elem_of_cons in Hin as [->|Hin]; [congruence|].
    destruct (IH Hin He) as (k' & Hk' & Hint & Hks).
    exists k'. split; [by right|]. split; [done|]. simpl. by rewrite Hks.
  - pose proof (int_raises _ _ E0) as ->.
    exists k0. split; [by left|]. by split.
Qed.

Lemma foldl_max_spec ns : ∀ n,
  foldl Z.max n ns ∈ n :: ns ∧ ∀ x, x ∈ n :: ns → x ≤ foldl Z.max n ns.
Proof.
  induction ns as [|a ns IH]; intros n; simpl.
  - split; [by left|]. intros x Hx. apply list_elem_of_singleton in Hx. lia.
  - destruct (IH (Z.max n a)) as [Hin Hmax]. split.
    + apply elem_of_cons in Hin as [Heq|Hin]; [|by right; right].
      rewrite Heq. destruct (Z.max_spec n a) as [[_ ->]|[_ ->]];
        [right; by left|by left].
    + intros x Hx.
      assert (Z.max n a ≤ foldl Z.max (Z.max n a) ns) by (apply Hmax; by left).
      apply elem_of_cons in Hx as [->|Hx]; [lia|].
      apply elem_of_cons in Hx as [->|Hx]; [lia|].
      apply Hmax. by right.
Qed.

(** [max_card_id] on a non-empty store of canonical identifiers: the result
    is a key of the store and no key is numerically larger. *)
Lemma max_card_id_spec (cd : gmap string InfoCard) :
  cd ≠ ∅ → canonical_ids cd →
  ∃ km m, max_card_id cd = Ok km ∧ is_Some (cd !! km) ∧ int km = Ok m
          ∧ ∀ k, is_Some (cd !! k) → ∃ n, int k = Ok n ∧ n ≤ m.
Proof.
  intros Hne Hc. unfold max_card_id.
  assert (∀ k, k ∈ (map_to_list cd).*1 ↔ is_Some (cd !! k)) as Hkeys.
  { intros k. rewrite list_elem_of_fmap. split.
    - intros ([k' c] & -> & Hkc). apply elem_of_map_to_list in Hkc.
      by eexists.
    - intros [c Hk]. exists (k, c). split; [done|].
      by apply elem_of_map_to_list. }
  destruct (ints_of_canonical (map_to_list cd).*1) as (ns & Hns & Hall).
  { intros k Hk. apply Hc. by apply Hkeys. }
  rewrite Hns. simpl.
  destruct ns as [|n ns].
  { apply Forall2_nil_inv_r in Hall.
    apply fmap_nil_inv, map_to_list_empty_iff in Hall. done. }
  destruct (foldl_max_spec ns n) as [Hin Hmax].
  apply list_elem_of_lookup in Hin as [i Hi].
  destruct (Forall2_lookup_r _ _ _ _ _ Hall Hi) as (km & Hkm & Hint & Hstr).
  exists km, (foldl Z.max n ns). split_and!.
  - by rewrite Hstr.
  - apply Hkeys. apply list_elem_of_lookup. by exists i.
  - done.
  - intros k Hk. apply Hkeys in Hk. apply list_elem_of_lookup in Hk as [j Hj].
    destruct (Forall2_lookup_l _ _ _ _ _ Hall Hj) as (x & Hx & Hintx & _).
    exists x. split; [done|]. apply Hmax. apply list_elem_of_lookup.
    by exists j.
Qed.

(** The latest card is one of the cards an interrupt removes. *)
Definition latest_in_progress (s : AgentState) : Prop :=
  ∃ l c, latest_card_id s = Some l ∧ card_dict s !! l = Some c
         ∧ status c = in_progress.

Lemma latest_removed_iff (s : AgentState) :
  match latest_card_id s with
  | Some l => bool_decide (l ∈ cards_to_remove (card_dict s))
  | None => false
  end = true ↔ latest_in_progress s.
Proof.
  unfold latest_in_progress. destruct (latest_card_id s) as [l|].
  - rewrite bool_decide_eq_true, cards_to_remove_spec. split.
    + intros (c & Hc & Hs). by exists l, c.
    + intros (l' & c & [= <-] & Hc & Hs). by exists c.
  - split; [done|]. by intros (? & ? & ? & _).
Qed.

(** X9: the latest-card pointer after interrupt cleanup.  The pointer is
    recomputed only when the card it names was removed: it then becomes none
    if no card is left, and otherwise (the remaining identifiers being
    decimal numbers) the remaining identifier with the highest numeric
    value; when the card it names was not removed the pointer is left as it
    was. *)
Theorem cleanup_latest_pointer (s : AgentState) :
  (¬ latest_in_progress s →
   ∃ s', _cleanup_interrupted_states s = (Ok tt, s')
         ∧ latest_card_id s' = latest_card_id s)
  ∧ (latest_in_progress s → kept_cards (card_dict s) = ∅ →
     ∃ s', _cleanup_interrupted_states s = (Ok tt, s')
           ∧ latest_card_id s' = None)
  ∧ (latest_in_progress s → kept_cards (card_dict s) ≠ ∅ →
     canonical_ids (kept_cards (card_dict s)) →
     ∃ s' km m, _cleanup_interrupted_states s = (Ok tt, s')
       ∧ latest_card_id s' = Some km
       ∧ is_Some (card_dict s' !! km) ∧ int km = Ok m
       ∧ ∀ k, is_Some (card_dict s' !! k) → ∃ n, int k = Ok n ∧ n ≤ m).
Proof.
  pose proof (latest_removed_iff s) as Hiff.
  unfold _cleanup_interrupted_states. simpl.
  rewrite remove_in_progress.
  destruct (match latest_card_id s with
            | Some l => bool_decide (l ∈ cards_to_remove (card_dict s))
            | None => false
            end) eqn:Hlatest.
  - assert (latest_in_progress s) as Hl by by apply Hiff.
    split_and!; [done|..].
    + intros _ Hempty. rewrite Hempty.
      rewrite bool_decide_eq_false_2 by (rewrite map_size_empty; lia).
      by eexists.
    + intros _ Hne Hc.
      rewrite bool_decide_eq_true_2 by by rewrite map_size_non_empty_iff.
      destruct (max_card_id_spec _ Hne Hc) as (km & m & -> & Hkm & Hint & Hmax).
      simpl. by eexists _, km, m.
  - assert (¬ latest_in_progress s) as Hl
      by (intros Hl%Hiff; congruence).
    split_and!; [|done..]. intros _. by eexists.
Qed.

(** X10: cleanup stops half way on an identifier that is not a number.
    When the latest card is removed and some remaining identifier is not an
    integer literal, cleanup raises the [ValueError] of [int] on such an
    identifier: the in-progress cards are already removed and the tool
    messages cancelled, the latest-card pointer still names the removed
    card, and no interrupted entry is appended to the display list. *)
Theorem cleanup_raises_on_bad_id (s : AgentState) k e :
  latest_in_progress s →
  is_Some (kept_cards (card_dict s) !! k) → int k = Raise e →
  ∃ s' k',
    is_Some (kept_cards (card_dict s) !! k')
    ∧ int k' = Raise (int_error k')
    ∧ _cleanup_interrupted_states s = (Raise (int_error k'), s')
    ∧ card_dict s' = kept_cards (card_dict s)
    ∧ latest_card_id s' = latest_card_id s
    ∧ chat_list s' = cancel_tool_message <$> chat_list s.
Proof.
  intros Hl [c Hk] He.
  apply latest_removed_iff in Hl.
  unfold _cleanup_interrupted_states. simpl.
  rewrite remove_in_progress, Hl.
  rewrite bool_decide_eq_true_2.
  2:{ rewrite map_size_non_empty_iff. intros Hempty. by rewrite Hempty in Hk. }
  unfold max_card_id.
  destruct (ints_of_raises (map_to_list (kept_cards (card_dict s))).*1 k e)
    as (k' & Hk' & Hint & ->); [|done|].
  { apply list_elem_of_fmap. exists (k, c). split; [done|].
    by apply elem_of_map_to_list. }
  eexists _, k'. split; [|by split].
  apply list_elem_of_fmap in Hk' as ([k0 c0] & -> & Hkc).
  apply elem_of_map_to_list in Hkc. by exists c0.
Qed.

(** The identifiers of the store are the consecutive numbers from 1 to its
    size, as after card creations alone. *)
Definition contiguous (cd : gmap string InfoCard) : Prop :=
  ∀ k, is_Some (cd !! k)
       ↔ ∃ i : nat, (1 ≤ i ≤ size cd)%nat ∧ k = str (Z.of_nat i).

(** X11: on a store with consecutive identifiers the generated identifier is
    new.  It names no stored card; creating a card under it leaves every
    other card as it was, makes it the latest card and keeps the identifiers
    consecutive, so the next identifier is new again. *)
Theorem generated_id_is_new (mk : string → list string → InfoCard)
    (s : AgentState) :
  (∀ id refs, card_id (mk id refs) = id) →
  contiguous (card_dict s) →
  card_dict s !! generate_card_id s = None
  ∧ (create_in_progress_card mk s).1 = generate_card_id s
  ∧ latest_card_id (create_in_progress_card mk s).2
    = Some (generate_card_id s)
  ∧ is_Some (card_dict (create_in_progress_card mk s).2
             !! generate_card_id s)
  ∧ (∀ k, k ≠ generate_card_id s →
       card_dict (create_in_progress_card mk s).2 !! k = card_dict s !! k)
  ∧ contiguous (card_dict (create_in_progress_card mk s).2).
Proof.
  intros Hmk Hc.
  assert (card_dict s !! generate_card_id s = None) as Hnew.
  { destruct (card_dict s !! generate_card_id s) as [card|] eqn:E; [|done].
    exfalso. destruct (proj1 (Hc _) (mk_is_Some _ _ E)) as (j & Hj & Heq).
    apply str_inj in Heq. lia. }
  unfold create_in_progress_card, add_info_card, get_agent_latest_card_id.
  simpl. rewrite !Hmk.
  split_and!; [done|done|done|by rewrite lookup_insert_eq| |].
  - intros k Hk. by rewrite lookup_insert_ne.
  - intros k. rewrite map_size_insert_None by done.
    destruct (decide (k = generate_card_id s)) as [->|Hne].
    + rewrite lookup_insert_eq. split; [|by eexists]. intros _.
      exists (S (size (card_dict s))). split; [lia|].
      unfold generate_card_id. f_equal. lia.
    + rewrite lookup_insert_ne by done. rewrite (Hc k). split.
      * intros (i & Hi & ->). exists i. split; [lia|done].
      * intros (i & Hi & ->). exists i. split; [|done].
        assert (i ≠ S (size (card_dict s))); [|lia].
        intros ->. apply Hne. unfold generate_card_id. f_equal. lia.
Qed.

(** X12: identifiers are issued again after an interrupt.  On a store with
    consecutive identifiers in which some card is in progress, the
    identifier generated after interrupt cleanup is one the store already
    held before the cleanup. *)
Theorem id_issued_again_after_cleanup (s : AgentState) k c :
  contiguous (card_dict s) →
  card_dict s !! k = Some c → status c = in_progress →
  is_Some (card_dict s
           !! generate_card_id (_cleanup_interrupted_states s).2).
Proof.
  intros Hc Hk Hs.
  assert (card_dict (_cleanup_interrupted_states s).2
          = kept_cards (card_dict s)) as Hkept.
  { unfold _cleanup_interrupted_states. simpl.
    rewrite remove_in_progress. repeat case_match; done. }
  unfold generate_card_id. rewrite Hkept.
  assert (size (kept_cards (card_dict s)) < size (card_dict s))%nat as Hlt.
  { apply map_subset_size. split; [apply map_filter_subseteq|].
    intros Hsub. rewrite map_subseteq_spec in Hsub.
    specialize (Hsub k c Hk).
    rewrite kept_cards_lookup, Hk in Hsub.
    by rewrite decide_True in Hsub. }
  apply Hc. exists (S (size (kept_cards (card_dict s)))).
  split; [lia|]. f_equal. lia.
Qed.

(** A display entry that is not a tool message still in progress. *)
Definition not_in_progress (m : ChatMessage) : Prop :=
  chat_type m = tool_message →
  get_is (chat_content m) "status" "in_progress" = false.

Lemma cancel_tool_message_not_in_progress m :
  not_in_progress (cancel_tool_message m).
Proof.
  unfold not_in_progress, cancel_tool_message.
  destruct (bool_decide (chat_type m = tool_message)) eqn:Ht; simpl.
  - destruct (get_is (chat_content m) "status" "in_progress") eqn:Hs; simpl.
    + intros _. unfold get_is. by rewrite lookup_insert_eq.
    + done.
  - intros Htm. by apply bool_decide_eq_false in Ht.
Qed.

Lemma complete_first_not_in_progress l :
  Forall not_in_progress l →
  Forall not_in_progress (complete_first_progress_summary l).
Proof.
  induction 1 as [|m l Hm Hl IH]; simpl; [done|].
  case_bool_decide as Ht.
  - constructor; [|done]. unfold not_in_progress. simpl. intros Htm.
    congruence.
  - by constructor.
Qed.

Lemma complete_first_length l :
  length (complete_first_progress_summary l) = length l.
Proof.
  induction l as [|m l IH]; simpl; [done|].
  case_bool_decide; simpl; by rewrite ?IH.
Qed.

(** X13: the display list after a completed interrupt cleanup has exactly
    one more entry, its last entry is the progress summary [Interrupted]
    with status [cancelled], and no tool message in it is still in
    progress. *)
Theorem cleanup_display_list (s s' : AgentState) :
  _cleanup_interrupted_states s = (Ok tt, s') →
  length (chat_list s') = S (length (chat_list s))
  ∧ last (chat_list s')
    = Some (ProgressSummaryMessage_create "Interrupted" "cancelled")
  ∧ Forall not_in_progress (chat_list s').
Proof.
  intros Hc.
  assert (chat_list s'
          = complete_last_progress_summary
              (cancel_tool_message <$> chat_list s)
            ++ [ProgressSummaryMessage_create "Interrupted" "cancelled"])
    as ->.
  { unfold _cleanup_interrupted_states in Hc.
    repeat case_match; simplify_eq; done. }
  unfold complete_last_progress_summary. split_and!.
  - rewrite length_app, length_rev, complete_first_length, length_rev,
      length_fmap. simpl. lia.
  - apply last_snoc.
  - apply Forall_app. split.
    + apply Forall_rev, complete_first_not_in_progress, Forall_rev.
      apply Forall_fmap, Forall_true. intros m.
      apply cancel_tool_message_not_in_progress.
    + constructor; [|done]. by intros [=].
Qed.

(** X14: the system instruction is inserted once.  After
    [add_system_message] the history starts with a system message, the other
    messages follow in their order, and a second call changes nothing. *)
Theorem system_message_once (prompt : string) (s : AgentState) :
  (∃ m rest, context_list (add_system_message prompt s) = m :: rest
             ∧ get_is m "role" "system" = true
             ∧ (rest = context_list s ∨ m :: rest = context_list s))
  ∧ add_system_message prompt (add_system_message prompt s)
    = add_system_message prompt s.
Proof.
  unfold add_system_message.
  destruct (context_list s) as [|m l] eqn:Hl.
  - simpl. rewrite Hl. split; [|done].
    eexists _, []. split_and!; [done|done|by left].
  - destruct (get_is m "role" "system") eqn:Hm.
    + rewrite Hl, Hm. split; [|done].
      exists m, l. split_and!; [done|done|by right].
    + simpl. rewrite Hl. split; [|done].
      eexists _, (m :: l). split_and!; [done|done|by left].
Qed.

End card_store.

(** ** Examples of the card store and of interrupt cleanup *)

Section card_store_examples.
Import Turn.

Definition search_card_of (id : string) (refs : list string) : InfoCard :=
  WebSearchResultCard_initial_create id (Tracing.lit "solar power") refs [].

Definition finished_note (id : string) : InfoCard :=
  {| card_id := id; status := completed;
     card_title := Some (Tracing.lit "Findings");
     card_content := NoteContent (Tracing.lit "Findings") (Some (Tracing.lit "Solar grows."));
     card_ref_implicit := []; card_ref_explicit := [] |}.

(** One search card, still in progress, and nothing else. *)
Definition one_card_in_progress : AgentState :=
  (create_in_progress_card search_card_of initial_agent_state).2.

(** A finished note [1] and a search card [2] in progress. *)
Definition note_then_search : AgentState :=
  (create_in_progress_card search_card_of
     (add_info_card (finished_note "1") initial_agent_state)).2.

(** A finished note under a name that is no number, and a search card in
    progress. *)
Definition named_note_then_search : AgentState :=
  (create_in_progress_card search_card_of
     (add_info_card (finished_note "draft") initial_agent_state)).2.

Lemma one_card_latest : latest_in_progress one_card_in_progress.
Proof. exists "1", (search_card_of "1" []). by split_and!. Qed.

Lemma note_then_search_latest : latest_in_progress note_then_search.
Proof. exists "2", (search_card_of "2" ["1"]). by split_and!. Qed.

Lemma named_note_then_search_latest :
  latest_in_progress named_note_then_search.
Proof. exists "2", (search_card_of "2" ["draft"]). by split_and!. Qed.

Lemma one_card_contiguous : contiguous (card_dict one_card_in_progress).
Proof.
  intros k. change (card_dict one_card_in_progress)
    with ({[ "1" := search_card_of "1" [] ]} : gmap string InfoCard).
  rewrite map_size_singleton. split.
  - intros [c Hc]. apply lookup_singleton_Some in Hc as [<- _].
    exists 1%nat. split; [lia|done].
  - intros (i & Hi & ->). assert (i = 1%nat) as -> by lia.
    by eexists.
Qed.

Lemma cleanup_latest_pointer_witness :
  (∃ s', _cleanup_interrupted_states initial_agent_state = (Ok tt, s')
         ∧ latest_card_id s' = latest_card_id initial_agent_state)
  ∧ (∃ s', _cleanup_interrupted_states one_card_in_progress = (Ok tt, s')
           ∧ latest_card_id s' = None)
  ∧ (∃ s' km m, _cleanup_interrupted_states note_then_search = (Ok tt, s')
       ∧ latest_card_id s' = Some km
       ∧ is_Some (card_dict s' !! km) ∧ int km = Ok m
       ∧ ∀ k, is_Some (card_dict s' !! k) → ∃ n, int k = Ok n ∧ n ≤ m).
Proof.
  split_and!.
  - apply (proj1 (cleanup_latest_pointer initial_agent_state)).
    by intros (l & c & [=] & _).
  - apply (proj1 (proj2 (cleanup_latest_pointer one_card_in_progress)));
      [apply one_card_latest|reflexivity].
  - apply (proj2 (proj2 (cleanup_latest_pointer note_then_search)));
      [apply note_then_search_latest|by intros [=]|].
    intros k [c Hc].
    change (kept_cards (card_dict note_then_search))
      with ({[ "1" := finished_note "1" ]} : gmap string InfoCard) in Hc.
    apply lookup_singleton_Some in Hc as [<- _]. by exists 1%N.
Defined.

Lemma cleanup_raises_on_bad_id_witness :
  ∃ s' k',
    is_Some (kept_cards (card_dict named_note_then_search) !! k')
    ∧ int k' = Raise (int_error k')
    ∧ _cleanup_interrupted_states named_note_then_search
      = (Raise (int_error k'), s')
    ∧ card_dict s' = kept_cards (card_dict named_note_then_search)
    ∧ latest_card_id s' = latest_card_id named_note_then_search
    ∧ chat_list s' = cancel_tool_message <$> chat_list named_note_then_search.
Proof.
  apply (cleanup_raises_on_bad_id named_note_then_search "draft"
           (int_error "draft")).
  - apply named_note_then_search_latest.
  - by exists (finished_note "draft").
  - reflexivity.
Defined.

Lemma generated_id_is_new_witness :
  card_dict one_card_in_progress !! generate_card_id one_card_in_progress
  = None
  ∧ (create_in_progress_card search_card_of one_card_in_progress).1
    = generate_card_id one_card_in_progress
  ∧ latest_card_id (create_in_progress_card search_card_of one_card_in_progress).2
    = Some (generate_card_id one_card_in_progress)
  ∧ is_Some (card_dict (create_in_progress_card search_card_of
                          one_card_in_progress).2
             !! generate_card_id one_card_in_progress)
  ∧ (∀ k, k ≠ generate_card_id one_card_in_progress →
       card_dict (create_in_progress_card search_card_of one_card_in_progress).2
       !! k = card_dict one_card_in_progress !! k)
  ∧ contiguous (card_dict (create_in_progress_card search_card_of
                             one_card_in_progress).2).
Proof.
  apply (generated_id_is_new search_card_of one_card_in_progress).
  - reflexivity.
  - apply one_card_contiguous.
Defined.

Lemma id_issued_again_after_cleanup_witness :
  is_Some (card_dict one_card_in_progress
           !! generate_card_id
                (_cleanup_interrupted_states one_card_in_progress).2).
Proof.
  apply (id_issued_again_after_cleanup one_card_in_progress "1"
           (search_card_of "1" [])).
  - apply one_card_contiguous.
  - reflexivity.
  - reflexivity.
Defined.

Lemma cleanup_display_list_witness :
  let s' := (_cleanup_interrupted_states one_card_in_progress).2 in
  length (chat_list s') = S (length (chat_list one_card_in_progress))
  ∧ last (chat_list s')
    = Some (ProgressSummaryMessage_create "Interrupted" "cancelled")
  ∧ Forall not_in_progress (chat_list s').
Proof.
  apply (cleanup_display_list one_card_in_progress). reflexivity.
Defined.

End card_store_examples.

(** ** The fuzzy span locator *)

Section locator.
Import Tracing.

(** [t] occurs in [s] as a run of consecutive characters. *)
Definition substring_of (t s : text) : Prop := ∃ pre post, s = pre ++ t ++ post.

Lemma ascii_eqb_true a b : ascii_eqb a b = true ↔ a = b.
Proof. unfold ascii_eqb. apply bool_decide_eq_true. Qed.

Lemma is_prefix_spec p : ∀ s, is_prefix p s = true ↔ ∃ post, s = p ++ post.
Proof.
  induction p as [|a p IH]; intros s; simpl.
  - split; [intros _; by exists s|done].
  - destruct s as [|b s]; [split; [done|by intros [? [=]]]|].
    rewrite andb_true_iff, ascii_eqb_true, IH. split.
    + intros [-> [post ->]]. by exists post.
    + intros [post [= -> ->]]. split; [done|by exists post].
Qed.

Lemma find_from_Some t : ∀ s i k,
  find_from i t s = Some k →
  ∃ pre post, s = pre ++ t ++ post ∧ k = (i + length pre)%nat.
Proof.
  induction s as [|c s IH]; intros i k; simpl.
  - destruct (is_prefix t []) eqn:Hp; [|done]. intros [= <-].
    apply is_prefix_spec in Hp as [post Hpost].
    exists [], post. split; [done|simpl; lia].
  - destruct (is_prefix t (c :: s)) eqn:Hp.
    + intros [= <-]. apply is_prefix_spec in Hp as [post Hpost].
      exists [], post. split; [done|simpl; lia].
    + intros Hf. apply IH in Hf as (pre & post & -> & ->).
      exists (c :: pre), post. split; [done|simpl; lia].
Qed.

Lemma find_from_None t : ∀ s i,
  find_from i t s = None → ¬ substring_of t s.
Proof.
  induction s as [|c s IH]; intros i; simpl.
  - destruct (is_prefix t []) eqn:Hp; [done|]. intros _ (pre & post & Heq).
    destruct pre; [|done]. simpl in Heq.
    assert (is_prefix t [] = true); [|congruence].
    apply is_prefix_spec. by exists post.
  - destruct (is_prefix t (c :: s)) eqn:Hp; [done|].
    intros Hf (pre & post & Heq).
    destruct pre as [|c' pre]; simpl in Heq.
    + assert (is_prefix t (c :: s) = true); [|congruence].
      apply is_prefix_spec. by exists post.
    + injection Heq as -> ->. apply (IH _ Hf). by exists pre, post.
Qed.

Lemma contains_spec s t : contains s t = true ↔ substring_of t s.
Proof.
  unfold contains, find. destruct (find_from 0 t s) as [k|] eqn:Hf.
  - split; [|done]. intros _.
    apply find_from_Some in Hf as (pre & post & -> & _). by exists pre, post.
  - split; [done|]. intros Hs. by apply find_from_None in Hf.
Qed.

Lemma slice_substring s a b : substring_of (slice s a b) s.
Proof.
  unfold slice. exists (take a s), (drop (b - a) (drop a s)).
  by rewrite take_drop, take_drop.
Qed.

(** X15: what the fuzzy span locator returns.  Its result is a run of
    consecutive characters of the source or else the target itself, given
    back unchanged; a target that occurs verbatim in the source, and a
    target shorter than five characters, is given back unchanged, whatever
    the aligner would say. *)
Theorem fuzzy_match_result `{!Aligner} (text_to_match source_text : text) :
  (substring_of (_fuzzy_match_in_source text_to_match source_text) source_text
   ∨ _fuzzy_match_in_source text_to_match source_text = text_to_match)
  ∧ (substring_of text_to_match source_text →
     _fuzzy_match_in_source text_to_match source_text = text_to_match)
  ∧ ((length text_to_match < 5)%nat →
     _fuzzy_match_in_source text_to_match source_text = text_to_match)
  ∧ (_fuzzy_match_in_source text_to_match source_text = [] →
     text_to_match = []).
Proof.
  unfold _fuzzy_match_in_source. split_and!.
  - repeat case_match; try (by right). left. subst.
    match goal with H : slice _ _ _ = _ |- _ => rewrite <-H end.
    apply slice_substring.
  - intros Hs. apply contains_spec in Hs. by rewrite Hs.
  - intros Hlen. apply Nat.ltb_lt in Hlen. rewrite Hlen.
    by destruct (contains source_text text_to_match).
  - repeat case_match; done.
Qed.

End locator.

(** ** The highlight compositor: merging the ranges *)

Section merging.
Import Tracing.

(** The positions a list of ranges covers. *)
Definition covered (p : nat) (rs : list (nat * nat)) : Prop :=
  ∃ r, r ∈ rs ∧ (r.1 ≤ p < r.2)%nat.

(** [a] ends before [b] starts, with a gap. *)
Definition apart (a b : nat * nat) : Prop := (a.2 < b.1)%nat.

Definition proper (r : nat * nat) : Prop := (r.1 < r.2)%nat.

Global Instance range_le_trans : Transitive range_le.
Proof. intros a b c. unfold range_le. lia. Qed.

Global Instance range_le_total : Total range_le.
Proof. intros a b. unfold range_le. lia. Qed.

(** The merge as a function of the range being grown and the ranges left. *)
Fixpoint merge_from (last : nat * nat) (rest : list (nat * nat))
    : list (nat * nat) :=
  match rest with
  | [] => [last]
  | (start, end_) :: rest' =>
      if (start <=? last.2)%nat
      then merge_from (last.1, Nat.max last.2 end_) rest'
      else last :: merge_from (start, end_) rest'
  end.

Lemma merge_loop_merge_from rest : ∀ acc last,
  merge_loop acc last rest = acc ++ merge_from last rest.
Proof.
  induction rest as [|[start end_] rest IH]; intros acc last; simpl; [done|].
  destruct (start <=? last.2)%nat; rewrite IH; [done|].
  by rewrite <-app_assoc.
Qed.

Lemma covered_cons p r rs :
  covered p (r :: rs) ↔ (r.1 ≤ p < r.2)%nat ∨ covered p rs.
Proof.
  unfold covered. split.
  - intros (r' & [->|Hin]%elem_of_cons & Hp); [by left|right; by exists r'].
  - intros [Hp|(r' & Hin & Hp)]; [exists r; split; [by left|done]|].
    exists r'. split; [by right|done].
Qed.

Lemma covered_nil p : ¬ covered p [].
Proof. intros (r & Hin & _). by apply elem_of_nil in Hin. Qed.

Lemma merge_from_spec rest : ∀ last,
  proper last → Forall proper rest →
  Forall (λ r, (last.1 ≤ r.1)%nat) rest →
  StronglySorted (λ a b, (a.1 ≤ b.1)%nat) rest →
  (∃ e tl, merge_from last rest = (last.1, e) :: tl)
  ∧ Sorted apart (merge_from last rest)
  ∧ Forall proper (merge_from last rest)
  ∧ ∀ p, covered p (merge_from last rest) ↔ covered p (last :: rest).
Proof.
  induction rest as [|[start end_] rest IH];
    intros [l1 l2] Hlast Hrest Hge Hsorted; simpl in *.
  - split_and!; [by eexists _, []|by repeat constructor
                 |by repeat constructor|done].
  - apply Forall_cons in Hrest as [Hse Hrest].
    apply Forall_cons in Hge as [Hl1 Hge].
    apply StronglySorted_inv in Hsorted as [Hsorted Hstart].
    unfold proper in *. simpl in *.
    destruct (Nat.leb_spec start l2) as [Hle|Hgt].
    + destruct (IH (l1, Nat.max l2 end_)) as ((e & tl & Heq) & Hs & Hp & Hc);
        [simpl; lia|done| |done|].
      { apply Forall_forall. intros r Hr. simpl.
        rewrite Forall_forall in Hge. by apply Hge. }
      split_and!; [by eexists _, _|done|done|]. intros p. rewrite Hc.
      rewrite !covered_cons. simpl.
      assert ((l1 ≤ p < Nat.max l2 end_)%nat
              ↔ (l1 ≤ p < l2)%nat ∨ (start ≤ p < end_)%nat) as Harith by lia.
      tauto.
    + destruct (IH (start, end_)) as ((e & tl & Heq) & Hs & Hp & Hc);
        [done|done|done|done|].
      split_and!.
      * by eexists _, _.
      * constructor; [done|]. rewrite Heq. constructor. unfold apart. simpl. lia.
      * by constructor.
      * intros p. rewrite covered_cons, Hc, !covered_cons. done.
Qed.

(** The merge of sorted ranges: sorted with gaps, non-empty, same cover. *)
Lemma merge_ranges_sorted (ranges : list (nat * nat)) :
  Forall proper ranges →
  StronglySorted range_le ranges →
  Sorted apart (merge_ranges ranges)
  ∧ Forall proper (merge_ranges ranges)
  ∧ ∀ p, covered p (merge_ranges ranges) ↔ covered p ranges.
Proof.
  intros Hp Hs. destruct ranges as [|r rest]; simpl.
  - split_and!; [constructor|constructor|done].
  - rewrite merge_loop_merge_from. simpl.
    apply Forall_cons in Hp as [Hr Hrest].
    apply StronglySorted_inv in Hs as [Hs Hhd].
    destruct (merge_from_spec rest r) as (_ & H1 & H2 & H3); [done|done|..].
    + eapply Forall_impl; [exact Hhd|]. intros x. unfold range_le. lia.
    + clear -Hs. induction Hs as [|a l Hl IH Hall]; constructor; [done|].
      eapply Forall_impl; [exact Hall|]. intros x. unfold range_le. lia.
    + done.
Qed.

(** X16: what merging does to sorted ranges.  For non-empty ranges sorted by
    their start, the merged ranges cover exactly the positions the given
    ranges cover, each merged range is non-empty, and consecutive merged
    ranges are in increasing order with at least one uncovered position
    between them: overlapping and adjacent ranges have become one. *)
Theorem merge_ranges_spec (ranges : list (nat * nat)) :
  Forall proper ranges →
  StronglySorted range_le ranges →
  Sorted apart (merge_ranges ranges)
  ∧ Forall proper (merge_ranges ranges)
  ∧ ∀ p, covered p (merge_ranges ranges) ↔ covered p ranges.
Proof. apply merge_ranges_sorted. Qed.

End merging.

(** ** The highlight compositor: inserting the delimiters *)

Section rendering.
Import Tracing.

(** The text read from left to right: the characters from [pos] up to the
    next range as they are, the characters of the range highlighted, and so
    on; every piece is cut from the original text. *)
Fixpoint render (source : text) (pos : nat) (rs : list (nat * nat)) : text :=
  match rs with
  | [] => drop pos source
  | r :: rs' =>
      slice source pos r.1
      ++ _apply_highlight_with_separator_handling (slice source r.1 r.2)
      ++ render source r.2 rs'
  end.

(** Ranges in increasing order from [pos] on, none of them empty. *)
Fixpoint ordered_from (pos : nat) (rs : list (nat * nat)) : Prop :=
  match rs with
  | [] => True
  | r :: rs' => (pos ≤ r.1 ∧ r.1 < r.2)%nat ∧ ordered_from r.2 rs'
  end.

Lemma ordered_from_sorted rs : ∀ pos,
  Sorted apart rs → Forall proper rs →
  match rs with [] => True | r :: _ => (pos ≤ r.1)%nat end →
  ordered_from pos rs.
Proof.
  induction rs as [|r rs IH]; intros pos Hs Hp Hpos; simpl; [done|].
  apply Sorted_inv in Hs as [Hs Hhd]. apply Forall_cons in Hp as [Hr Hp].
  split; [done|]. apply IH; [done|done|].
  destruct rs as [|r' rs]; [done|].
  apply HdRel_inv in Hhd. unfold apart in Hhd. lia.
Qed.

Lemma foldl_rev_foldr {A B} (f : A → B → A) (a : A) (l : list B) :
  foldl f a (rev l) = foldr (λ x acc, f acc x) a l.
Proof.
  induction l as [|x l IH]; simpl; [done|].
  by rewrite foldl_app, IH.
Qed.

Lemma highlight_from_end source rs : ∀ pos,
  ordered_from pos rs →
  Forall (λ r, (r.2 ≤ length source)%nat) rs →
  foldr (λ r acc, highlight_range acc r) source rs
  = take pos source ++ render source pos rs.
Proof.
  induction rs as [|[a b] rs IH]; intros pos Ho Hb; simpl in *.
  - by rewrite take_drop.
  - destruct Ho as [[Hpos Hab] Ho]. apply Forall_cons in Hb as [Hblen Hb].
    simpl in *. rewrite (IH b Ho Hb).
    unfold highlight_range, slice. simpl.
    assert (length (take b source) = b) as Hlen by (rewrite length_take; lia).
    rewrite (take_app_le _ _ a) by lia.
    rewrite take_take, Nat.min_l by lia.
    rewrite (drop_app_le _ _ a) by lia.
    rewrite (take_app_le _ _ (b - a)) by (rewrite length_drop; lia).
    rewrite (drop_app_length' _ _ b) by done.
    rewrite (skipn_firstn_comm a b).
    rewrite take_take, Nat.min_l by lia.
    rewrite !app_assoc. f_equal. f_equal.
    rewrite <-(take_drop pos (take a source)) at 1.
    rewrite take_take, Nat.min_l by lia. f_equal.
    by rewrite skipn_firstn_comm.
Qed.

Lemma locate_spec `{!Aligner} source support r :
  r ∈ locate source support →
  (r.1 < r.2 ≤ length source)%nat
  ∧ slice source r.1 r.2 = _fuzzy_match_in_source support source.
Proof.
  unfold locate.
  destruct (_fuzzy_match_in_source support source) as [|c m] eqn:Hm;
    [by intros ?%elem_of_nil|].
  destruct (find source (c :: m)) as [start|] eqn:Hf;
    [|by intros ?%elem_of_nil].
  intros ->%list_elem_of_singleton. simpl.
  apply find_from_Some in Hf as (pre & post & -> & ->). simpl.
  split.
  - rewrite !length_app. simpl. rewrite length_app. lia.
  - unfold slice.
    replace (length pre + S (length m) - length pre)%nat
      with (length (c :: m)) by (simpl; lia).
    rewrite drop_app_length. exact (take_app_length (c :: m) post).
Qed.

Lemma elem_of_concat {A} (x : A) (ls : list (list A)) :
  x ∈ concat ls ↔ ∃ l, x ∈ l ∧ l ∈ ls.
Proof.
  induction ls as [|l ls IH]; simpl.
  - split; [by intros ?%elem_of_nil|by intros (? & _ & ?%elem_of_nil)].
  - rewrite elem_of_app, IH. split.
    + intros [Hx|(l' & Hx & Hl')]; [exists l; split; [done|by left]|].
      exists l'. split; [done|by right].
    + intros (l' & Hx & [->|Hl']%elem_of_cons); [by left|].
      right. by exists l'.
Qed.

Lemma collect_ranges_spec `{!Aligner} source supports r :
  r ∈ collect_ranges source supports →
  (r.1 < r.2 ≤ length source)%nat
  ∧ ∃ support, support ∈ supports
      ∧ slice source r.1 r.2 = _fuzzy_match_in_source support source.
Proof.
  unfold collect_ranges. intros Hr.
  apply elem_of_concat in Hr as (l & Hr & Hl).
  apply list_elem_of_fmap in Hl as (support & -> & Hs).
  destruct (locate_spec _ _ _ Hr) as [? ?]. split; [done|].
  by exists support.
Qed.

(** The highlighted text is the rendering of the merged ranges. *)
Lemma highlight_is_render `{!Aligner} (source : text)
    (support_content_list : list text) :
  let ranges := collect_ranges source support_content_list in
  let merged := merge_ranges (merge_sort range_le ranges) in
  _apply_highlight_to_string source support_content_list
  = render source 0 merged
  ∧ Sorted apart merged
  ∧ Forall (λ r, (r.1 < r.2 ≤ length source)%nat) merged
  ∧ ∀ p, covered p merged ↔ covered p ranges.
Proof.
  intros ranges merged.
  assert (Forall proper (merge_sort range_le ranges)) as Hproper.
  { apply Forall_forall. intros r Hr.
    rewrite merge_sort_Permutation in Hr.
    by apply collect_ranges_spec in Hr as [[? ?] _]. }
  destruct (merge_ranges_sorted (merge_sort range_le ranges) Hproper)
    as (Hsorted & Hmp & Hcov); [apply StronglySorted_merge_sort; apply _|].
  fold merged in Hsorted, Hmp, Hcov.
  assert (∀ p, covered p merged ↔ covered p ranges) as Hcov'.
  { intros p. rewrite Hcov. unfold covered.
    by setoid_rewrite merge_sort_Permutation. }
  assert (Forall (λ r, (r.1 < r.2 ≤ length source)%nat) merged) as Hbounds.
  { apply Forall_forall. intros [a b] Hr.
    rewrite Forall_forall in Hmp. specialize (Hmp _ Hr).
    unfold proper in Hmp. simpl in *. split; [done|].
    assert (covered (b - 1) merged) as Hc
      by (exists (a, b); split; [done|simpl; lia]).
    apply Hcov' in Hc as (r' & Hr' & Hp').
    apply collect_ranges_spec in Hr' as [[? ?] _]. lia. }
  split_and!; [|done|done|done].
  unfold _apply_highlight_to_string. fold ranges.
  destruct ranges as [|r0 rs0] eqn:Hranges.
  - subst merged. simpl. by rewrite drop_0.
  - fold merged. rewrite foldl_rev_foldr.
    rewrite (highlight_from_end source merged 0).
    + done.
    + apply ordered_from_sorted; [done|done|]. destruct merged; [done|lia].
    + eapply Forall_impl; [exact Hbounds|]. intros x. simpl. lia.
Qed.

(** X17: the delimiters are inserted around the merged ranges of the
    original text.  The highlighted text is the original text read left to
    right with every merged range wrapped, each wrapped piece being cut from
    the original text at the range's own offsets; the merged ranges are
    non-empty, lie inside the text, are separated by at least one position,
    and cover exactly the positions of the located snippets. *)
Theorem highlights_applied_to_original `{!Aligner} (source : text)
    (support_content_list : list text) :
  let ranges := collect_ranges source support_content_list in
  let merged := merge_ranges (merge_sort range_le ranges) in
  _apply_highlight_to_string source support_content_list
  = render source 0 merged
  ∧ Sorted apart merged
  ∧ Forall (λ r, (r.1 < r.2 ≤ length source)%nat) merged
  ∧ ∀ p, covered p merged ↔ covered p ranges.
Proof. apply highlight_is_render. Qed.

End rendering.

(** ** The highlight compositor: the text is kept *)

Section decoration.
Import Tracing.

(** [o] is [s] with some of its pieces wrapped in a pair of delimiters:
    nothing of [s] is lost, changed or moved. *)
Inductive decorated : text → text → Prop :=
| decorated_nil : decorated [] []
| decorated_plain a s o : decorated s o → decorated (a ++ s) (a ++ o)
| decorated_wrap a s o : decorated s o → decorated (a ++ s) (wrap a ++ o).

Lemma decorated_refl s : decorated s s.
Proof.
  rewrite <-(app_nil_r s). apply decorated_plain, decorated_nil.
Qed.

Lemma decorated_wrap_all s : decorated s (wrap s).
Proof.
  rewrite <-(app_nil_r s) at 1. rewrite <-(app_nil_r (wrap s)).
  apply decorated_wrap, decorated_nil.
Qed.

Lemma decorated_app s1 o1 s2 o2 :
  decorated s1 o1 → decorated s2 o2 → decorated (s1 ++ s2) (o1 ++ o2).
Proof.
  induction 1 as [|a s o _ IH|a s o _ IH]; intros H2.
  - done.
  - rewrite <-!app_assoc. by apply decorated_plain, IH.
  - rewrite <-!app_assoc. by apply decorated_wrap, IH.
Qed.

Lemma lstrip_split s : ∃ ws, s = ws ++ lstrip s.
Proof.
  induction s as [|c s [ws IH]]; simpl; [by exists []|].
  destruct (isspace c); [|by exists []].
  exists (c :: ws). simpl. by rewrite <-IH.
Qed.

Lemma rstrip_split s : ∃ ws, s = rstrip s ++ ws.
Proof.
  unfold rstrip. destruct (lstrip_split (rev s)) as [ws Hws].
  exists (rev ws). rewrite <-rev_app_distr, <-Hws. by rewrite rev_involutive.
Qed.

Lemma lstrip_app a b : lstrip a ≠ [] → lstrip (a ++ b) = lstrip a ++ b.
Proof.
  induction a as [|c a IH]; simpl; [done|].
  destruct (isspace c); [done|done].
Qed.

Lemma lstrip_spaces ws x :
  ws ++ x = ws ++ lstrip (ws ++ x) → lstrip (ws ++ x) = x.
Proof. intros Heq. by apply app_inv_head in Heq. Qed.

(** The three pieces [highlight_part] cuts a part into give the part back. *)
Lemma strip_pieces part :
  strip part ≠ [] →
  take (length part - length (lstrip part)) part ++ strip part
  ++ drop (length (rstrip part)) part = part.
Proof.
  intros Hne. unfold strip in *.
  destruct (lstrip_split part) as [ws Hws].
  remember (lstrip part) as lp eqn:Hlp.
  destruct (rstrip_split lp) as [tr Htr].
  remember (rstrip lp) as content eqn:Hcontent.
  assert (rstrip part = ws ++ content) as Hr.
  { rewrite Hws. unfold rstrip. rewrite rev_app_distr, lstrip_app.
    - rewrite rev_app_distr, rev_involutive. by rewrite Hcontent.
    - intros Hnil. apply Hne. rewrite Hcontent. unfold rstrip.
      by rewrite Hnil. }
  rewrite Hr, Hws, length_app.
  replace (length ws + length lp - length lp)%nat with (length ws) by lia.
  rewrite take_app_length.
  rewrite Htr, (app_assoc ws content tr), drop_app_length.
  by rewrite <-app_assoc.
Qed.

Lemma highlight_part_decorated part : decorated part (highlight_part part).
Proof.
  unfold highlight_part.
  destruct (match_separator true part); [apply decorated_refl|].
  destruct (strip part) as [|c content] eqn:Hs; [apply decorated_refl|].
  rewrite <-(strip_pieces part) at 1 by (rewrite Hs; done). rewrite Hs.
  apply decorated_plain.
  apply (decorated_wrap (c :: content)). apply decorated_refl.
Qed.

Lemma highlight_parts_decorated parts :
  decorated (concat parts) (concat (highlight_part <$> parts)).
Proof.
  induction parts as [|p parts IH]; simpl; [constructor|].
  apply decorated_app; [apply highlight_part_decorated|done].
Qed.

(** Joining the pieces of [re.split] gives the text back. *)
Lemma re_split_concat n : ∀ s at_start cur,
  (length s ≤ n)%nat → concat (re_split at_start cur s) = rev cur ++ s.
Proof.
  induction n as [|n IH]; intros s at_start cur Hlen.
  - destruct s; [|simpl in Hlen; lia]. simpl. by rewrite !app_nil_r.
  - destruct s as [|c s]; [simpl; by rewrite !app_nil_r|].
    simpl in Hlen.
    assert (∀ b, concat (re_split b (c :: cur) s) = rev cur ++ c :: s) as Hchar.
    { intros b. rewrite IH by lia. simpl. by rewrite <-app_assoc. }
    simpl. destruct (ascii_eqb c "|") eqn:E1.
    { apply ascii_eqb_true in E1 as ->. simpl. rewrite IH by lia. done. }
    destruct (ascii_eqb c "-" && at_start) eqn:E2.
    { apply andb_true_iff in E2 as [->%ascii_eqb_true _].
      destruct s as [|c2 s]; [apply Hchar|].
      destruct (decide (c2 = " "%char)) as [->|Hne].
      - simpl in *. rewrite IH by lia. done.
      - transitivity (concat (re_split false ("-"%char :: cur) (c2 :: s)));
          [|apply Hchar].
        f_equal. destruct c2 as [[] [] [] [] [] [] [] []]; try done. }
    destruct (ascii_eqb c "010") eqn:E3; [|apply Hchar].
    apply ascii_eqb_true in E3 as ->.
    destruct s as [|c2 s]; [apply Hchar|].
    destruct (decide (c2 = "-"%char)) as [->|Hne].
    + destruct s as [|c3 s]; [apply Hchar|].
      destruct (decide (c3 = " "%char)) as [->|Hne3].
      * simpl in *. rewrite IH by lia. done.
      * transitivity (concat (re_split false ("010"%char :: cur)
                                ("-"%char :: c3 :: s))); [|apply Hchar].
        f_equal. destruct c3 as [[] [] [] [] [] [] [] []]; try done.
    + transitivity (concat (re_split false ("010"%char :: cur) (c2 :: s)));
        [|apply Hchar].
      f_equal. destruct c2 as [[] [] [] [] [] [] [] []]; try done.
Qed.

Lemma separator_handling_decorated s :
  decorated s (_apply_highlight_with_separator_handling s).
Proof.
  unfold _apply_highlight_with_separator_handling.
  destruct (negb (has_separator true s)); [apply decorated_wrap_all|].
  rewrite <-(re_split_concat (length s) s true []) at 1 by done.
  apply highlight_parts_decorated.
Qed.

Lemma drop_slice source pos a :
  (pos ≤ a)%nat → drop pos source = slice source pos a ++ drop a source.
Proof.
  intros Hle. unfold slice.
  rewrite <-(take_drop (a - pos) (drop pos source)) at 1.
  f_equal. rewrite drop_drop. f_equal. lia.
Qed.

Lemma render_decorated source rs : ∀ pos,
  ordered_from pos rs →
  decorated (drop pos source) (render source pos rs).
Proof.
  induction rs as [|[a b] rs IH]; intros pos Ho; simpl in *.
  - apply decorated_refl.
  - destruct Ho as [[Hpos Hab] Ho].
    rewrite (drop_slice source pos a) by done.
    rewrite (drop_slice source a b) by lia.
    apply decorated_plain. apply decorated_app.
    + apply separator_handling_decorated.
    + by apply IH.
Qed.

(** X18: highlighting keeps the text.  The highlighted text is the original
    text with some of its pieces wrapped in a delimiter pair; no character
    of the original is lost, changed or moved, for the wrapping of one span
    (with or without separators in it) and for the highlighting of a whole
    text. *)
Theorem highlighting_keeps_text `{!Aligner} :
  (∀ s, decorated s (_apply_highlight_with_separator_handling s))
  ∧ (∀ source support_content_list,
       decorated source
         (_apply_highlight_to_string source support_content_list)).
Proof.
  split; [apply separator_handling_decorated|].
  intros source supports.
  destruct (highlight_is_render source supports)
    as (-> & Hsorted & Hbounds & _).
  rewrite <-(drop_0 source) at 1.
  apply render_decorated, ordered_from_sorted; [done| |].
  - eapply Forall_impl; [exact Hbounds|]. intros x. unfold proper. lia.
  - destruct (merge_ranges _); [done|lia].
Qed.

End decoration.

(** ** Examples of the highlight compositor *)

Section compositor_examples.
Import Tracing.

(** The package [rapidfuzz] is not installed: only exact matches. *)
Definition no_rapidfuzz : Aligner :=
  {| rapidfuzz_installed := false;
     partial_ratio_alignment := λ _ _, None |}.

Lemma fuzzy_match_result_witness :
  @_fuzzy_match_in_source no_rapidfuzz (lit "solar") (lit "solar power")
  = lit "solar".
Proof.
  apply (proj1 (proj2 (@fuzzy_match_result no_rapidfuzz (lit "solar")
                         (lit "solar power")))).
  by exists [], (lit " power").
Defined.

Lemma merge_ranges_spec_witness :
  let ranges := [(0, 5); (3, 8)]%nat in
  Sorted apart (merge_ranges ranges)
  ∧ Forall proper (merge_ranges ranges)
  ∧ ∀ p, covered p (merge_ranges ranges) ↔ covered p ranges.
Proof.
  apply (merge_ranges_spec [(0, 5); (3, 8)]%nat).
  - repeat constructor; unfold proper; simpl; lia.
  - repeat constructor; unfold range_le; simpl; lia.
Defined.

End compositor_examples.

(** ** Tracing leaves the stored cards alone *)

Section frame.
Import Tracing.
Context `{!TraceEnvironment} `{!Aligner}.

(** From [st] to [st']: the agent state (and so every card) is the same and
    every list and dictionary of the store is still there with the same
    content; the store may hold new objects and the log new exchanges. *)
Definition preserved (st st' : TraceState) : Prop :=
  agent_state st' = agent_state st
  ∧ lists st ⊆ lists st' ∧ dicts st ⊆ dicts st'.

Global Instance preserved_refl : Reflexive preserved.
Proof. intros st. by split. Qed.

Global Instance preserved_trans : Transitive preserved.
Proof.
  intros a b c (H1 & H2 & H3) (H4 & H5 & H6).
  split; [congruence|]. split; by etrans.
Qed.

(** The same, and the failure flag is the same too. *)
Definition quiet (st st' : TraceState) : Prop :=
  preserved st st' ∧ trace_failed st' = trace_failed st.

Global Instance quiet_refl : Reflexive quiet.
Proof. intros st. by split. Qed.

Global Instance quiet_trans : Transitive quiet.
Proof.
  intros a b c [H1 H2] [H3 H4]. split; [by etrans|congruence].
Qed.

(** A computation that keeps the stored objects and the flag. *)
Definition keeps {A} (m : M A) : Prop := ∀ st, quiet st (m st).2.

Lemma keeps_ret {A} (a : A) : keeps (ret a).
Proof. by intros st. Qed.

Lemma keeps_raise {A} e : keeps (@raise A e).
Proof. by intros st. Qed.

Lemma keeps_lift {A} (r : result A) : keeps (lift r).
Proof. by intros st. Qed.

Lemma keeps_get_state : keeps get_state.
Proof. by intros st. Qed.

Lemma keeps_bind {A B} (m : M A) (k : A → M B) :
  keeps m → (∀ a, keeps (k a)) → keeps (m ≫= k).
Proof.
  intros Hm Hk st. unfold mbind, M_bind, bindM.
  specialize (Hm st). destruct (m st) as [[a|e] st1]; simpl in *; [|done].
  etrans; [exact Hm|apply Hk].
Qed.

Lemma keeps_get_card id : keeps (get_card id).
Proof. by intros st. Qed.

Lemma keeps_explicit_refs id : keeps (_get_card_explicit_refs id).
Proof.
  apply keeps_bind; [apply keeps_get_card|]. intros card. apply keeps_ret.
Qed.

Lemma keeps_main_content id : keeps (_get_card_main_content id).
Proof.
  apply keeps_bind; [apply keeps_get_card|]. intros card.
  repeat case_match; (apply keeps_ret || apply keeps_raise).
Qed.

Lemma keeps_read_content card : keeps (read_info_card_content card).
Proof.
  unfold read_info_card_content.
  repeat case_match; try (apply keeps_ret || apply keeps_raise).
  apply keeps_bind; [apply keeps_get_state|]. intros st. apply keeps_ret.
Qed.

Lemma keeps_card_content id : keeps (_get_card_content id).
Proof.
  apply keeps_bind; [apply keeps_get_card|]. intros card.
  apply keeps_read_content.
Qed.

Lemma keeps_call_llm messages tool : keeps (call_llm messages tool).
Proof. by intros st. Qed.

Lemma keeps_extraction_loop max k : ∀ traced messages,
  keeps (extraction_loop max k traced messages).
Proof.
  induction k as [|k IH]; intros traced messages; simpl.
  - apply keeps_raise.
  - apply keeps_bind; [apply keeps_call_llm|]. intros r.
    repeat case_match; try apply IH; (apply keeps_ret || apply keeps_raise).
Qed.

Lemma keeps_support_loop max k : ∀ messages,
  keeps (support_loop max k messages).
Proof.
  induction k as [|k IH]; intros messages; simpl.
  - apply keeps_raise.
  - apply keeps_bind; [apply keeps_call_llm|]. intros r.
    repeat case_match; try apply IH; (apply keeps_ret || apply keeps_raise).
Qed.

Lemma keeps_extract traced id n :
  keeps (_extract_support_from_source_card traced id n).
Proof.
  apply keeps_bind; [apply keeps_card_content|]. intros c.
  apply keeps_extraction_loop.
Qed.

Lemma keeps_find_support claim id n :
  keeps (_find_support_in_card claim id n).
Proof.
  apply keeps_bind; [apply keeps_card_content|]. intros c.
  apply keeps_support_loop.
Qed.

(** [deepcopy_items] only adds dictionaries, and every address it returns
    is one it added; a copy holds the dictionary of its original. *)
Lemma deepcopy_items_spec st items : ∀ memo ds items' ds',
  dicts st ⊆ ds →
  (∀ k k', memo !! k = Some k' →
     (k' ∉ dom (dicts st)) ∧ ds !! k' = Some (dict_at st k)) →
  deepcopy_items st items memo ds = (items', ds') →
  ds ⊆ ds'
  ∧ Forall (λ k', k' ∉ dom (dicts st)) items'
  ∧ Forall2 (λ k k', ds' !! k' = Some (dict_at st k)) items items'.
Proof.
  induction items as [|k items IH]; intros memo ds items' ds' Hsub Hmemo Hrun;
    simpl in Hrun.
  - injection Hrun as <- <-. by split.
  - destruct (memo !! k) as [k'|] eqn:Hk.
    + destruct (deepcopy_items st items memo ds) as [rest ds1] eqn:Hrest.
      injection Hrun as <- <-.
      destruct (IH _ _ _ _ Hsub Hmemo Hrest) as (Hds & Hnew & Hsame).
      destruct (Hmemo _ _ Hk) as [Hk' Hd].
      split; [done|]. split; constructor; try done.
      by eapply lookup_weaken.
    + set (k' := fresh (dom ds)) in *.
      assert (ds !! k' = None) as Hfresh by apply not_elem_of_dom, is_fresh.
      assert (ds ⊆ <[k' := dict_at st k]> ds) as Hins
        by by apply insert_subseteq.
      assert (k' ∉ dom (dicts st)) as Hk'.
      { intros Hin. apply elem_of_dom in Hin as [d Hd].
        eapply lookup_weaken in Hd; [|exact Hsub]. congruence. }
      destruct (deepcopy_items st items (<[k := k']> memo)
                  (<[k' := dict_at st k]> ds)) as [rest ds1] eqn:Hrest.
      injection Hrun as <- <-.
      destruct (IH (<[k := k']> memo) (<[k' := dict_at st k]> ds) rest ds1)
        as (Hds & Hnew & Hsame); [by etrans| |done|].
      { intros j j' Hj. destruct (decide (j = k)) as [->|Hjk].
        - rewrite lookup_insert_eq in Hj. injection Hj as <-.
          split; [done|]. by rewrite lookup_insert_eq.
        - rewrite lookup_insert_ne in Hj by done.
          destruct (Hmemo _ _ Hj) as [Hj' Hd]. split; [done|].
          by eapply lookup_weaken. }
      split; [by etrans|]. split; constructor; try done.
      eapply lookup_weaken; [|exact Hds]. by rewrite lookup_insert_eq.
Qed.

Lemma deepcopy_spec (l : loc) (st st' : TraceState) (r : result loc) :
  deepcopy l st = (r, st') →
  agent_state st' = agent_state st ∧ trace_failed st' = trace_failed st
  ∧ llm_log st' = llm_log st
  ∧ lists st ⊆ lists st' ∧ dicts st ⊆ dicts st'
  ∧ ∃ l' items',
      r = Ok l' ∧ (l' ∉ dom (lists st))
      ∧ lists st' !! l' = Some items'
      ∧ Forall (λ k', k' ∉ dom (dicts st)) items'
      ∧ Forall2 (λ k k', dicts st' !! k' = Some (dict_at st k))
          (list_at st l) items'.
Proof.
  unfold deepcopy. intros Hrun.
  destruct (deepcopy_items st (list_at st l) ∅ (dicts st))
    as [items' ds'] eqn:Hcopy.
  injection Hrun as <- <-. simpl.
  destruct (deepcopy_items_spec st _ ∅ (dicts st) _ _
              (reflexivity _) ltac:(by intros ?? ?%lookup_empty_Some) Hcopy)
    as (Hsub & Hnew & Hsame).
  assert (lists st !! fresh (dom (lists st)) = None) as Hfresh
    by apply not_elem_of_dom, is_fresh.
  do 3 (split; [done|]). split; [by apply insert_subseteq|].
  split; [done|]. eexists _, items'. split; [done|].
  split; [apply is_fresh|]. split; [by rewrite lookup_insert_eq|]. done.
Qed.

Lemma keeps_deepcopy l : keeps (deepcopy l).
Proof.
  intros st. destruct (deepcopy l st) as [r st'] eqn:Hrun.
  destruct (deepcopy_spec _ _ _ _ Hrun) as (Ha & Hf & _ & Hl & Hd & _).
  by repeat split.
Qed.

(** The highlighting loop writes only to the items it is given: the
    dictionaries at other addresses, here those of [ds0], stay as they
    are. *)
Lemma highlight_items_spec supports items : ∀ ds0 st,
  ds0 ⊆ dicts st → Forall (λ k, k ∉ dom ds0) items →
  agent_state (highlight_items items supports st).2 = agent_state st
  ∧ trace_failed (highlight_items items supports st).2 = trace_failed st
  ∧ lists (highlight_items items supports st).2 = lists st
  ∧ ds0 ⊆ dicts (highlight_items items supports st).2.
Proof.
  induction items as [|k items IH]; intros ds0 st Hsub Hnew; simpl; [done|].
  apply Forall_cons in Hnew as [Hk Hnew].
  unfold mbind, M_bind, bindM, get_state, lift. simpl.
  destruct (dict_at st k !! "snippet") as [[]|]; try by apply IH.
  destruct (highlight_string _ supports) as [highlighted|e]; [|done].
  match goal with
  | |- context [highlight_items items supports ?st1] =>
      destruct (IH ds0 st1) as (Ha & Hf & Hl & Hd); [|done|]
  end.
  - simpl. by apply insert_subseteq_r; [apply not_elem_of_dom|].
  - done.
Qed.

Lemma keeps_apply_highlight main_content supports :
  keeps (_apply_highlight_to_content main_content supports).
Proof.
  intros st. destruct main_content as [s|l]; simpl.
  - unfold mbind, M_bind, bindM, lift.
    by destruct (highlight_string s supports).
  - unfold mbind, M_bind, bindM.
    destruct (deepcopy l st) as [r st1] eqn:Hcopy.
    destruct (deepcopy_spec _ _ _ _ Hcopy)
      as (Ha & Hf & _ & Hl & Hd & l' & items' & -> & _ & Hl' & Hnew & _).
    unfold get_state at 1, list_at. rewrite Hl'. simpl.
    destruct (highlight_items_spec supports items' (dicts st) st1 Hd Hnew)
      as (Ha' & Hf' & Hl'' & Hd').
    destruct (highlight_items items' supports st1) as [[[]|e] st2];
      simpl in *; repeat split; try (congruence || done);
      by rewrite Hl''.
Qed.

(** The same for the computations that recurse on fuel. *)
Definition keepsF {A} (f : F A) : Prop :=
  ∀ st r st', f st = Some (r, st') → preserved st st'.

Lemma keepsF_run {A} (m : M A) : keeps m → keepsF (run m).
Proof.
  intros Hm st r st' [= Hrun]. specialize (Hm st). rewrite Hrun in Hm.
  by destruct Hm.
Qed.

Lemma keepsF_bind {A B} (m : F A) (k : A → F B) :
  keepsF m → (∀ a, keepsF (k a)) → keepsF (bindF m k).
Proof.
  intros Hm Hk st r st' Hrun. unfold bindF in Hrun.
  destruct (m st) as [[[a|e] st1]|] eqn:Hmst; [| |done].
  - etrans; [by eapply Hm|by eapply Hk].
  - injection Hrun as <- <-. by eapply Hm.
Qed.

Lemma keepsF_check_refs rec refs : ∀ content found nodes,
  (∀ node c, keepsF (rec node c)) →
  keepsF (check_refs rec refs content found nodes).
Proof.
  induction refs as [|r refs IH]; intros content found nodes Hrec; simpl.
  - apply keepsF_run, keeps_ret.
  - apply keepsF_bind; [apply keepsF_run, keeps_find_support|].
    intros res. repeat case_match; try by apply IH.
    apply keepsF_bind.
    { apply keepsF_run, keeps_bind; [apply keeps_main_content|].
      intros mc. apply keeps_apply_highlight. }
    intros hl. apply keepsF_bind; [apply keepsF_run, keeps_lift|].
    intros cc. apply keepsF_bind; [apply Hrec|]. intros child. by apply IH.
Qed.

Lemma keepsF_trace_node fuel : ∀ node content,
  keepsF (_trace_node_recursive fuel node content).
Proof.
  induction fuel as [|fuel IH]; intros node content; simpl; [by intros ???|].
  apply keepsF_bind; [apply keepsF_run, keeps_explicit_refs|].
  intros refs. destruct refs as [|r refs]; [apply keepsF_run, keeps_ret|].
  apply keepsF_bind; [by apply keepsF_check_refs|].
  intros [found nodes]. destruct found; [apply keepsF_run, keeps_ret|].
  by intros st r' st' [= <- <-].
Qed.

(** X19: [copy.deepcopy] of a result list always returns.  It changes
    nothing but the store, where it only adds objects: the list it returns
    and the items of that list are addresses the store did not have, and
    each item of the copy holds the dictionary of the item it copies. *)
Theorem deepcopy_is_new (l : loc) (st st' : TraceState) (r : result loc) :
  deepcopy l st = (r, st') →
  agent_state st' = agent_state st ∧ trace_failed st' = trace_failed st
  ∧ llm_log st' = llm_log st
  ∧ lists st ⊆ lists st' ∧ dicts st ⊆ dicts st'
  ∧ ∃ l' items',
      r = Ok l' ∧ (l' ∉ dom (lists st))
      ∧ lists st' !! l' = Some items'
      ∧ Forall (λ k', k' ∉ dom (dicts st)) items'
      ∧ Forall2 (λ k k', dicts st' !! k' = Some (dict_at st k))
          (list_at st l) items'.
Proof. apply deepcopy_spec. Qed.

(** X20: a trace, whatever its outcome, leaves the agent state as it was, so
    every stored card is unchanged, and every list and dictionary the store
    had is still there with its content: highlighted result lists are built
    in new objects. *)
Theorem trace_keeps_stored_content (fuel : nat) (id : string)
    (content_to_trace : text) (st st' : TraceState)
    (r : result TraceResult) :
  trace_source fuel id content_to_trace st = Some (r, st') →
  agent_state st' = agent_state st
  ∧ (∀ l items, lists st !! l = Some items → lists st' !! l = Some items)
  ∧ (∀ k d, dicts st !! k = Some d → dicts st' !! k = Some d).
Proof.
  intros Hrun.
  assert (keepsF (trace_source fuel id content_to_trace)) as Hkeeps.
  { unfold trace_source.
    apply keepsF_bind; [by intros ??? [= <- <-]|]. intros _.
    apply keepsF_bind; [apply keepsF_run, keeps_extract|]. intros ex.
    apply keepsF_bind.
    { apply keepsF_run, keeps_bind; [apply keeps_main_content|].
      intros mc. apply keeps_apply_highlight. }
    intros hl. apply keepsF_bind; [apply keepsF_run, keeps_lift|].
    intros cc. apply keepsF_bind; [apply keepsF_trace_node|].
    intros root. apply keepsF_bind; [apply keepsF_run, keeps_get_state|].
    intros st0. apply keepsF_run, keeps_ret. }
  destruct (Hkeeps _ _ _ Hrun) as (Ha & Hl & Hd).
  split; [done|]. split; intros ???; by eapply lookup_weaken.
Qed.

End frame.

(** ** The retry loop of the root extraction *)

Section retry.
Import Tracing.
Context `{!TraceEnvironment}.

(** The snippets field of decoded arguments, as the loop reads it. *)
Definition snippets_field (fields : list (string * jval)) : list jval + string :=
  _ensure_list (default (JArr []) (jget "extracted_content_list" fields))
    "extracted_content_list".

(** A response the loop answers with feedback and another attempt. *)
Definition rejected (r : LlmResponse) : Prop :=
  match response_tool_calls r with
  | [] => True
  | tool_call :: _ =>
      call_name tool_call ≠ "report_extraction_result"
      ∨ (∃ e, json_loads (call_arguments tool_call) = inl e)
      ∨ (∃ fields e, json_loads (call_arguments tool_call) = inr (JObj fields)
                     ∧ snippets_field fields = inr e)
  end.

(** A response the loop returns [res] for. *)
Definition accepted (traced_content : text) (r : LlmResponse)
    (res : ExtractionResult) : Prop :=
  ∃ tool_call rest fields parsed_list,
    response_tool_calls r = tool_call :: rest
    ∧ call_name tool_call = "report_extraction_result"
    ∧ json_loads (call_arguments tool_call) = inr (JObj fields)
    ∧ snippets_field fields = inl parsed_list
    ∧ extracted_content_list res =
        (if decide (parsed_list = []) then [JStr traced_content]
         else parsed_list)
    ∧ extraction_reasoning res = default (JStr []) (jget "reasoning" fields).

(** A response whose arguments decode to something that is not an object:
    [arguments.get] raises, and nothing in the loop catches it. *)
Definition not_an_object (r : LlmResponse) (e : exn) : Prop :=
  ∃ tool_call rest v,
    response_tool_calls r = tool_call :: rest
    ∧ call_name tool_call = "report_extraction_result"
    ∧ json_loads (call_arguments tool_call) = inr v
    ∧ (∀ fields, v ≠ JObj fields)
    ∧ e = AttributeError ("'" +:+ type_name v
                          +:+ "' object has no attribute 'get'").

(** The calls the loop goes on after: the service answered, with a response
    the loop rejects. *)
Definition retried (c : Exchange) : Prop :=
  ∃ r, response c = Ok r ∧ rejected r.

(** What [calls], the service calls of one run of the loop that started with
    [messages] and [k] attempts left, look like. *)
Definition attempts (k : nat) (messages : list TraceMsg)
    (calls : list Exchange) : Prop :=
  (length calls ≤ k)%nat
  ∧ Forall (λ c, request_tools c = ROOT_CONTENT_EXTRACTION_TOOL) calls
  ∧ ∀ i c, calls !! i = Some c →
      ∃ feedback, request_messages c = messages ++ feedback
                  ∧ length feedback = (2 * i)%nat.

(** How the loop ends after [earlier] and a last call. *)
Definition last_call (traced_content : text) (last : Exchange)
    (res : result ExtractionResult) : Prop :=
  match res with
  | Ok r => ∃ m, response last = Ok m ∧ accepted traced_content m r
  | Raise e =>
      response last = Raise e
      ∨ ∃ m, response last = Ok m ∧ not_an_object m e
  end.

Definition outcome (max_retries k : nat) (traced_content : text)
    (calls : list Exchange) (res : result ExtractionResult) : Prop :=
  (length calls = k ∧ Forall retried calls
   ∧ res = Raise (failed_after "_extract_support_from_source_card" max_retries))
  ∨ (∃ earlier last,
       calls = earlier ++ [last] ∧ Forall retried earlier
       ∧ last_call traced_content last res).

Lemma attempts_retry k messages feedback c calls :
  length feedback = 2%nat →
  request_messages c = messages → 
  request_tools c = ROOT_CONTENT_EXTRACTION_TOOL →
  attempts k (messages ++ feedback) calls →
  attempts (S k) messages (c :: calls).
Proof.
  intros Hfb Hc Ht (Hlen & Htools & Hmsgs). split; [simpl; lia|].
  split; [by constructor|]. intros [|i] c' Hi; simpl in Hi.
  - injection Hi as <-. exists []. by rewrite app_nil_r.
  - destruct (Hmsgs _ _ Hi) as (fb & Hreq & Hfblen).
    exists (feedback ++ fb). rewrite Hreq, <- app_assoc. split; [done|].
    rewrite length_app. lia.
Qed.

Lemma attempts_one k messages c :
  request_messages c = messages → 
  request_tools c = ROOT_CONTENT_EXTRACTION_TOOL →
  attempts (S k) messages [c].
Proof.
  intros Hc Ht. split; [simpl; lia|]. split; [by repeat constructor|].
  intros [|i] c' Hi; [|done]. injection Hi as <-. exists [].
  by rewrite app_nil_r.
Qed.

Lemma outcome_retry max_retries k traced c calls res :
  retried c →
  outcome max_retries k traced calls res →
  outcome max_retries (S k) traced (c :: calls) res.
Proof.
  intros Hc [(Hlen & Hrej & ->)|(earlier & last & -> & Hrej & Hlast)].
  - left. split; [simpl; lia|]. split; [by constructor|done].
  - right. exists (c :: earlier), last.
    split; [done|]. split; [by constructor|done].
Qed.

Lemma extraction_loop_spec max_retries k : ∀ traced messages st res st',
  extraction_loop max_retries k traced messages st = (res, st') →
  lists st' = lists st ∧ dicts st' = dicts st
  ∧ agent_state st' = agent_state st
  ∧ trace_failed st' = trace_failed st
  ∧ ∃ calls, llm_log st' = llm_log st ++ calls
             ∧ attempts k messages calls
             ∧ outcome max_retries k traced calls res.
Proof.
  induction k as [|k IH]; intros traced messages st res st' Hrun;
    simpl in Hrun.
  - injection Hrun as <- <-. do 4 (split; [done|]). exists [].
    rewrite app_nil_r. split; [done|]. split.
    + split; [done|]. split; [done|]. by intros ?? [=].
    + by left.
  - unfold mbind, M_bind, bindM, call_llm in Hrun.
    set (answer := llm_message_completion_with_tool_call (llm_log st) messages
                     ROOT_CONTENT_EXTRACTION_TOOL) in *.
    set (c := {| request_messages := messages;
                 request_tools := ROOT_CONTENT_EXTRACTION_TOOL;
                 response := answer |}) in *.
    assert (attempts (S k) messages [c]) as Hone by by apply attempts_one.
    destruct answer as [r|e] eqn:Hanswer.
    2:{ injection Hrun as <- <-. do 4 (split; [done|]). exists [c].
        split; [done|]. split; [done|]. right. exists [], c.
        split; [done|]. split; [done|]. by left. }
    assert (∀ feedback, length feedback = 2%nat → rejected r →
              extraction_loop max_retries k traced (messages ++ feedback)
                (log_exchange c st) = (res, st') →
              lists st' = lists st ∧ dicts st' = dicts st
              ∧ agent_state st' = agent_state st
              ∧ trace_failed st' = trace_failed st
              ∧ ∃ calls, llm_log st' = llm_log st ++ calls
                         ∧ attempts (S k) messages calls
                         ∧ outcome max_retries (S k) traced calls res)
      as Hretry.
    { intros feedback Hfb Hrej Hloop.
      destruct (IH _ _ _ _ _ Hloop)
        as (Hl & Hd & Ha & Hf & calls & Hlog & Hatt & Hout).
      do 4 (split; [done|]). exists (c :: calls). split.
      - rewrite Hlog. simpl. by rewrite <- app_assoc.
      - split; [by eapply attempts_retry|].
        apply outcome_retry; [|done]. by exists r. }
    assert (∀ res0, last_call traced c res0 →
              lists (log_exchange c st) = lists st
              ∧ dicts (log_exchange c st) = dicts st
              ∧ agent_state (log_exchange c st) = agent_state st
              ∧ trace_failed (log_exchange c st) = trace_failed st
              ∧ ∃ calls, llm_log (log_exchange c st) = llm_log st ++ calls
                         ∧ attempts (S k) messages calls
                         ∧ outcome max_retries (S k) traced calls res0)
      as Hlast.
    { intros res0 Hres0. do 4 (split; [done|]). exists [c].
      split; [done|]. split; [done|]. right. by exists [], c. }
    unfold rejected in Hretry.
    destruct (response_tool_calls r) as [|tool_call rest] eqn:Hcalls.
    { eapply (Hretry (no_tool_call_feedback r)); [done|done|exact Hrun]. }
    case_bool_decide as Hname; simpl in Hrun.
    2:{ eapply (Hretry (tool_error_feedback tool_call _)); [done| |exact Hrun].
        by left. }
    destruct (json_loads (call_arguments tool_call)) as [e|v] eqn:Hjson.
    { eapply (Hretry (tool_error_feedback tool_call _)); [done| |exact Hrun].
      right; left; by exists e. }
    destruct v as [| | | | |fields];
      try (injection Hrun as <- <-; apply Hlast; right; exists r;
           split; [done|]; exists tool_call, rest; eexists;
           by repeat split; [exact Hcalls| |exact Hjson| |]).
    fold (snippets_field fields) in Hrun.
    destruct (snippets_field fields) as [parsed_list|error] eqn:Hfield.
    + injection Hrun as <- <-. apply Hlast. exists r. split; [done|].
      exists tool_call, rest, fields, parsed_list. simpl.
      repeat split; try done. by destruct parsed_list.
    + eapply (Hretry (tool_error_feedback tool_call _)); [done| |exact Hrun].
      right; right. by exists fields, error.
Qed.

(** Reading a card's content leaves the state as it is. *)
Lemma card_content_reads_only id st : (_get_card_content id st).2 = st.
Proof.
  unfold _get_card_content, mbind, M_bind, bindM, get_card. simpl.
  destruct (Turn.get_info_card _ _ (agent_state st) id) as [card|e]; [|done].
  unfold read_info_card_content.
  by destruct (card_content card) as [?|? [l|]|[?|] ? [?|] ?|? [?|]].
Qed.

(** The snippet list of an extraction result is never empty. *)
Lemma extraction_result_nonempty traced id n st r st' :
  _extract_support_from_source_card traced id n st = (Ok r, st') →
  extracted_content_list r ≠ [].
Proof.
  unfold _extract_support_from_source_card, mbind, M_bind, bindM.
  destruct (_get_card_content id st) as [[content|e] st0]; [|done].
  intros Hrun.
  destruct (extraction_loop_spec _ _ _ _ _ _ _ Hrun)
    as (_ & _ & _ & _ & calls & _ & _ & Hout).
  destruct Hout as [(_ & _ & [=])|(_ & last & _ & _ & Hlast)].
  destruct Hlast as (m & _ & (? & ? & ? & l & _ & _ & _ & _ & Hlist & _)).
  rewrite Hlist. by destruct l.
Qed.

(** X21: a root extraction changes nothing but the log of service calls.  It
    makes at most three calls, all with the extraction tool; the first
    request holds the three opening messages and each later request holds
    two more messages than the one before.  Before the last call the
    service answered every call with a response the loop rejects: no tool
    call, another tool name, arguments that do not decode, or a snippets
    field that is no list and cannot be repaired.  A result is read off the
    last response: its snippet list is the decoded list, or the traced
    fragment alone when that list is empty, so it is never empty.  The
    failure after three attempts is raised only when three calls were made
    and all three responses were rejected; the other exceptions are the one
    of reading the card, the one of the last service call, and the one of
    arguments that decode to something that is no object. *)
Theorem extraction_retries (traced_content : text) (source_card_id : string)
    (st st' : TraceState) (res : result ExtractionResult) :
  _extract_support_from_source_card traced_content source_card_id 3 st
    = (res, st') →
  lists st' = lists st ∧ dicts st' = dicts st
  ∧ agent_state st' = agent_state st
  ∧ trace_failed st' = trace_failed st
  ∧ ∃ calls,
      llm_log st' = llm_log st ++ calls
      ∧ (length calls ≤ 3)%nat
      ∧ Forall (λ c, request_tools c = ROOT_CONTENT_EXTRACTION_TOOL) calls
      ∧ (∀ i c, calls !! i = Some c →
           length (request_messages c) = (3 + 2 * i)%nat)
      ∧ (∀ r, res = Ok r → extracted_content_list r ≠ [])
      ∧ ((calls = [] ∧ ∃ e, res = Raise e
                            ∧ (_get_card_content source_card_id st).1 = Raise e)
         ∨ (length calls = 3%nat ∧ Forall retried calls
            ∧ res = Raise (failed_after "_extract_support_from_source_card" 3))
         ∨ (∃ earlier last,
              calls = earlier ++ [last] ∧ Forall retried earlier
              ∧ last_call traced_content last res)).
Proof.
  unfold _extract_support_from_source_card, mbind, M_bind, bindM.
  intros Hrun.
  pose proof (card_content_reads_only source_card_id st) as Hst.
  destruct (_get_card_content source_card_id st) as [[content|e] st1] eqn:Hc;
    simpl in Hst; subst st1.
  2:{ injection Hrun as <- <-. do 4 (split; [done|]). exists [].
      rewrite app_nil_r. split; [done|]. split; [simpl; lia|].
      split; [done|]. split; [by intros ?? [=]|]. split; [done|].
      left. split; [done|]. by exists e. }
  destruct (extraction_loop_spec _ _ _ _ _ _ _ Hrun)
    as (Hl & Hd & Ha & Hf & calls & Hlog & (Hlen & Htools & Hmsgs) & Hout).
  do 4 (split; [done|]). exists calls. do 3 (split; [done|]). split.
  - intros i c Hi. destruct (Hmsgs _ _ Hi) as (fb & -> & Hfb).
    rewrite length_app, Hfb. done.
  - split; [|by right].
    intros r ->. destruct Hout as [(_ & _ & [=])|(_ & last & _ & _ & Hlast)].
    destruct Hlast as (m & _ & (? & ? & ? & l & _ & _ & _ & _ & Hlist & _)).
    rewrite Hlist. by destruct l.
Qed.

End retry.

(** ** The shape of the trace tree *)

Section trace_tree.
Import Tracing.
Context `{!TraceEnvironment} `{!Aligner}.

(** The tree has a node marked as lacking support: one whose children are
    [None]. *)
Fixpoint has_null (n : TraceResultNode) : bool :=
  match n with
  | Node _ _ _ None => true
  | Node _ _ _ (Some cs) =>
      (fix any (l : list TraceResultNode) : bool :=
         match l with
         | [] => false
         | c :: l' => has_null c || any l'
         end) cs
  end.

Lemma has_null_children n cs :
  children n = Some cs → has_null n = existsb has_null cs.
Proof.
  destruct n as [? ? ? c]; simpl. intros ->. by induction cs.
Qed.

(** A child attached for a predecessor that supports the claim. *)
Definition supporting (c : TraceResultNode) : Prop :=
  ∃ l mc gs,
    support_content_list c = Some l ∧ l ≠ []
    ∧ card_main_content_with_highlight c = Some mc
    ∧ children c = Some gs.

(** The answer of a support check that attaches no child. *)
Definition unsupported (res : SupportResult) : Prop :=
  jtruthy (has_support res) = false
  ∨ found_support_content_list res = None
  ∨ found_support_content_list res = Some [].

Lemma bindF_Ok {A B} (m : F A) (k : A → F B) st b st' :
  bindF m k st = Some (Ok b, st') →
  ∃ a st1, m st = Some (Ok a, st1) ∧ k a st1 = Some (Ok b, st').
Proof.
  unfold bindF. destruct (m st) as [[[a|e] st1]|]; try done.
  intros Hk. by exists a, st1.
Qed.

Lemma run_eq {A} (m : M A) st r st' :
  run m st = Some (r, st') → m st = (r, st').
Proof. by intros [= ->]. Qed.

Lemma quiet_run {A} (m : M A) st r st' :
  keeps m → run m st = Some (r, st') → quiet st st'.
Proof.
  intros Hm [= Hrun]. specialize (Hm st). by rewrite Hrun in Hm.
Qed.

(** A support check changes nothing but the log of service calls. *)
Lemma support_loop_state max_retries k : ∀ messages st,
  lists (support_loop max_retries k messages st).2 = lists st
  ∧ dicts (support_loop max_retries k messages st).2 = dicts st
  ∧ agent_state (support_loop max_retries k messages st).2 = agent_state st
  ∧ trace_failed (support_loop max_retries k messages st).2 = trace_failed st.
Proof.
  induction k as [|k IH]; intros messages st; simpl; [done|].
  unfold mbind, M_bind, bindM, call_llm.
  destruct (llm_message_completion_with_tool_call _ _ _) as [r|e]; [|done].
  repeat case_match; try done;
    match goal with
    | |- context [support_loop _ _ ?m ?s] => by destruct (IH m s) as (?&?&?&?)
    end.
Qed.

Lemma find_support_state claim id n st :
  lists (_find_support_in_card claim id n st).2 = lists st
  ∧ dicts (_find_support_in_card claim id n st).2 = dicts st
  ∧ agent_state (_find_support_in_card claim id n st).2 = agent_state st
  ∧ trace_failed (_find_support_in_card claim id n st).2 = trace_failed st.
Proof.
  unfold _find_support_in_card, mbind, M_bind, bindM.
  pose proof (card_content_reads_only id st) as Hread.
  destruct (_get_card_content id st) as [[c|e] st0]; simpl in Hread;
    subst st0; [|done].
  apply support_loop_state.
Qed.

(** What the recursive call is known to do. *)
Definition rec_ok (rec : TraceResultNode → text → F TraceResultNode) : Prop :=
  ∀ node c st r st',
    rec node c st = Some (Ok r, st') →
    (∃ cs, r = set_children node (Some cs))
    ∧ trace_failed st' = trace_failed st || has_null r.

Lemma check_refs_spec rec refs : rec_ok rec →
  ∀ content found nodes st found' nodes' st',
  check_refs rec refs content found nodes st = Some (Ok (found', nodes'), st') →
  ∃ new,
    nodes' = nodes ++ new
    ∧ found' = found || bool_decide (new ≠ [])
    ∧ sublist (node_card_id <$> new) refs
    ∧ Forall supporting new
    ∧ trace_failed st' = trace_failed st || existsb has_null new.
Proof.
  intros Hrec. induction refs as [|ref refs IH];
    intros content found nodes st found' nodes' st' Hrun; simpl in Hrun.
  - injection Hrun as <- <- <-. exists []. rewrite app_nil_r, !orb_false_r.
    by repeat split.
  - apply bindF_Ok in Hrun as (res & st1 & Hfind & Hrun).
    apply (quiet_run _ _ _ _ (keeps_find_support _ _ _)) in Hfind
      as [_ Hf1].
    assert (∀ st2, trace_failed st2 = trace_failed st →
      check_refs rec refs content found nodes st2
        = Some (Ok (found', nodes'), st') →
      ∃ new,
        nodes' = nodes ++ new
        ∧ found' = found || bool_decide (new ≠ [])
        ∧ sublist (node_card_id <$> new) (ref :: refs)
        ∧ Forall supporting new
        ∧ trace_failed st' = trace_failed st || existsb has_null new)
      as Hskip.
    { intros st2 Hf2 Hrest.
      destruct (IH _ _ _ _ _ _ _ Hrest) as (new & ? & ? & ? & ? & Hf).
      exists new. repeat split; try done; [by apply sublist_cons|congruence]. }
    destruct (found_support_content_list res) as [[|s l]|] eqn:Hl;
      try by eapply Hskip.
    destruct (jtruthy (has_support res)); [|by eapply Hskip].
    apply bindF_Ok in Hrun as (hl & st2 & Hhl & Hrun).
    eapply quiet_run in Hhl as [_ Hf2];
      [|apply keeps_bind; [apply keeps_main_content|];
        intros; apply keeps_apply_highlight].
    apply bindF_Ok in Hrun as (cc & st3 & Hcc & Hrun).
    apply run_eq in Hcc. injection Hcc as _ <-.
    apply bindF_Ok in Hrun as (child & st4 & Hchild & Hrun).
    destruct (Hrec _ _ _ _ _ Hchild) as [[gs ->] Hf4].
    destruct (IH _ _ _ _ _ _ _ Hrun) as (new & -> & -> & Hsub & Hsup & Hf).
    set (child := set_children (new_node ref (Some (s :: l)) (Some hl))
                    (Some gs)) in *.
    exists (child :: new). rewrite <- app_assoc. split; [done|].
    split; [by rewrite orb_true_r|]. split; [by apply sublist_skip|].
    split.
    + constructor; [|done]. by exists (s :: l), hl, gs.
    + rewrite Hf, Hf4, Hf2, Hf1. simpl existsb. by rewrite orb_assoc.
Qed.

Lemma trace_node_spec fuel : ∀ node content st r st',
  _trace_node_recursive fuel node content st = Some (Ok r, st') →
  ∃ card cs,
    card_dict (agent_state st) !! node_card_id node = Some card
    ∧ r = set_children node (Some cs)
    ∧ trace_failed st' = trace_failed st || has_null r
    ∧ ((card_ref_explicit card = [] ∧ cs = [] ∧ st' = st)
       ∨ (card_ref_explicit card ≠ []
          ∧ cs = null_node <$> card_ref_explicit card
          ∧ trace_failed st' = true)
       ∨ (cs ≠ []
          ∧ sublist (node_card_id <$> cs) (card_ref_explicit card)
          ∧ Forall supporting cs)).
Proof.
  induction fuel as [|fuel IH]; intros node content st r st' Hrun;
    simpl in Hrun; [done|].
  apply bindF_Ok in Hrun as (refs & st1 & Hrefs & Hrun).
  apply run_eq in Hrefs.
  unfold _get_card_explicit_refs, mbind, M_bind, bindM, get_card in Hrefs.
  unfold Turn.get_info_card in Hrefs.
  destruct (card_dict (agent_state st) !! node_card_id node)
    as [card|] eqn:Hcard; [|done].
  injection Hrefs as <- <-. exists card.
  destruct (card_ref_explicit card) as [|ref refs] eqn:Hexp.
  - injection Hrun as <- <-. exists []. split; [done|]. split; [done|].
    split; [by rewrite orb_false_r|]. by left.
  - apply bindF_Ok in Hrun as ([found nodes] & st2 & Hcheck & Hrun).
    apply check_refs_spec in Hcheck
      as (new & Hnodes & Hfound & Hsub & Hsup & Hf).
    2:{ intros n c s1 r1 s2 Hn.
        destruct (IH _ _ _ _ _ Hn) as (? & cs & _ & -> & Hfl & _).
        split; [by exists cs|done]. }
    simpl in Hnodes, Hfound. subst nodes found.
    case_bool_decide as Hnew; simpl in Hrun; injection Hrun as <- <-.
    + exists new. split; [done|]. split; [done|]. split.
      * by rewrite (has_null_children _ new).
      * right; right. done.
    + subst new. eexists. split; [done|].
      split; [done|]. split.
      * simpl. by rewrite orb_true_r.
      * right; left. done.
Qed.

(** X22: the children a node is given.  The node keeps its card, snippets and
    content.  With no explicit predecessor its child list is empty and the
    state is untouched.  Otherwise the list is not empty and is one of two
    kinds: one node per predecessor, in order, each with no snippets, no
    content and no children, and then the failure flag is set; or nodes for
    some of the predecessors, in order, each with a snippet list that is not
    empty, a highlighted content and a child list of its own. *)
Theorem trace_node_children (fuel : nat) (node : TraceResultNode)
    (content_to_trace : text) (st st' : TraceState) (r : TraceResultNode) :
  _trace_node_recursive fuel node content_to_trace st = Some (Ok r, st') →
  ∃ card cs,
    card_dict (agent_state st) !! node_card_id node = Some card
    ∧ r = Node (node_card_id node) (support_content_list node)
            (card_main_content_with_highlight node) (Some cs)
    ∧ ((card_ref_explicit card = [] ∧ cs = [] ∧ st' = st)
       ∨ (card_ref_explicit card ≠ []
          ∧ cs = (λ ref, Node ref None None None) <$> card_ref_explicit card
          ∧ trace_failed st' = true)
       ∨ (cs ≠ []
          ∧ sublist (node_card_id <$> cs) (card_ref_explicit card)
          ∧ Forall supporting cs)).
Proof.
  intros Hrun.
  destruct (trace_node_spec _ _ _ _ _ _ Hrun) as (card & cs & ? & ? & _ & ?).
  by exists card, cs.
Qed.

(** The flag after a trace is the flag before it or a mark in the tree. *)
Lemma trace_node_flag fuel node content st r st' :
  _trace_node_recursive fuel node content st = Some (Ok r, st') →
  trace_failed st' = trace_failed st || has_null r.
Proof.
  intros Hrun.
  by destruct (trace_node_spec _ _ _ _ _ _ Hrun) as (? & ? & _ & _ & ? & _).
Qed.

(** X23: the status of a trace that returns.  It is [Failed] exactly when the
    returned tree has a node marked as lacking support, and [Success]
    otherwise, whatever the flag was before the trace; the flag is left at
    that value.  The root of the tree is the traced card, and its snippet
    list is not empty. *)
Theorem trace_status_reflects_tree (fuel : nat) (id : string)
    (content_to_trace : text) (st st' : TraceState) (res : TraceResult) :
  trace_source fuel id content_to_trace st = Some (Ok res, st') →
  trace_failed st' = has_null (trace_result_tree res)
  ∧ trace_status res =
      (if has_null (trace_result_tree res) then "Failed" else "Success")
  ∧ result_project_id res = project_id
  ∧ node_card_id (trace_result_tree res) = id
  ∧ ∃ l, support_content_list (trace_result_tree res) = Some l ∧ l ≠ [].
Proof.
  unfold trace_source. intros Hrun.
  apply bindF_Ok in Hrun as ([] & st1 & Hreset & Hrun).
  injection Hreset as <-.
  apply bindF_Ok in Hrun as (ex & st2 & Hex & Hrun).
  apply run_eq in Hex.
  pose proof (keeps_extract content_to_trace id 3 (set_trace_failed false st))
    as [_ Hf2].
  rewrite Hex in Hf2. simpl in Hf2.
  pose proof (extraction_result_nonempty _ _ _ _ _ _ Hex) as Hne.
  apply bindF_Ok in Hrun as (hl & st3 & Hhl & Hrun).
  eapply quiet_run in Hhl as [_ Hf3];
    [|apply keeps_bind; [apply keeps_main_content|];
      intros; apply keeps_apply_highlight].
  apply bindF_Ok in Hrun as (cc & st4 & Hcc & Hrun).
  apply run_eq in Hcc. injection Hcc as _ <-.
  apply bindF_Ok in Hrun as (root & st5 & Hroot & Hrun).
  pose proof (trace_node_flag _ _ _ _ _ _ Hroot) as Hf5.
  destruct (trace_node_spec _ _ _ _ _ _ Hroot) as (_ & cs & _ & -> & _).
  rewrite Hf3, Hf2 in Hf5. simpl in Hf5.
  apply bindF_Ok in Hrun as (st6 & st7 & Hget & Hrun).
  injection Hget as <- <-. injection Hrun as <- <-. simpl.
  rewrite Hf5. split; [done|]. split; [done|]. split; [done|].
  split; [done|]. by eexists.
Qed.

(** X24: a node with predecessors of which none supports the claim.  When
    the support check of every predecessor, run on the cards and the store
    of the state the node is traced in, returns an answer without support,
    the node is given one child per predecessor, each with no snippets, no
    content and no children, the failure flag is set, and no predecessor is
    traced: one level of recursion is enough. *)
Theorem unsupported_node (fuel : nat) (node : TraceResultNode)
    (content_to_trace : text) (st : TraceState) (card : InfoCard) :
  card_dict (agent_state st) !! node_card_id node = Some card →
  card_ref_explicit card ≠ [] →
  (∀ ref st1, ref ∈ card_ref_explicit card →
     agent_state st1 = agent_state st →
     lists st1 = lists st → dicts st1 = dicts st →
     ∃ res st2, _find_support_in_card content_to_trace ref 3 st1
                  = (Ok res, st2) ∧ unsupported res) →
  ∃ st',
    _trace_node_recursive (S fuel) node content_to_trace st
      = Some (Ok (Node (node_card_id node) (support_content_list node)
                    (card_main_content_with_highlight node)
                    (Some ((λ ref, Node ref None None None)
                             <$> card_ref_explicit card))), st')
    ∧ trace_failed st' = true
    ∧ agent_state st' = agent_state st
    ∧ lists st' = lists st ∧ dicts st' = dicts st.
Proof.
  intros Hcard Hrefs Hnone.
  assert (∀ refs, (∀ ref, ref ∈ refs → ref ∈ card_ref_explicit card) →
          ∀ found nodes st1,
            agent_state st1 = agent_state st →
            lists st1 = lists st → dicts st1 = dicts st →
            ∃ st2,
              check_refs (_trace_node_recursive fuel) refs content_to_trace
                found nodes st1 = Some (Ok (found, nodes), st2)
              ∧ agent_state st2 = agent_state st
              ∧ lists st2 = lists st ∧ dicts st2 = dicts st)
    as Hloop.
  { induction refs as [|ref refs IH]; intros Hin found nodes st1 Ha1 Hl1 Hd1;
      simpl.
    - by exists st1.
    - destruct (Hnone ref st1) as (res & st2 & Hfind & Hun);
        [apply Hin; by left|done..|].
      pose proof (find_support_state content_to_trace ref 3 st1)
        as (Hl & Hd & Ha & _).
      rewrite Hfind in Hl, Hd, Ha. simpl in Hl, Hd, Ha.
      unfold bindF at 1, run at 1. rewrite Hfind.
      destruct (IH ltac:(intros; apply Hin; by right) found nodes st2)
        as (st3 & Hrest & Ha3 & Hl3 & Hd3); [congruence..|].
      exists st3. split; [|done].
      destruct Hun as [Hun|[Hun|Hun]]; rewrite Hun; try done.
      by destruct (found_support_content_list res) as [[]|]. }
  destruct (Hloop (card_ref_explicit card) ltac:(done) false [] st)
    as (st2 & Hcheck & Ha & Hl & Hd); [done..|].
  exists (set_trace_failed true st2). split; [|done].
  simpl. unfold bindF at 1, run at 1.
  unfold _get_card_explicit_refs, mbind, M_bind, bindM, get_card,
    Turn.get_info_card.
  rewrite Hcard. simpl.
  destruct (card_ref_explicit card) as [|ref refs] eqn:Hexp; [done|].
  unfold bindF at 1. by rewrite Hcheck.
Qed.

(** X25: a trace returns when the explicit references go down a rank, as
    they do when a card refers only to cards that existed before it.  With
    more fuel than the rank of the traced card the recursion ends, in a
    result or in an exception. *)
Theorem trace_terminates (rank : string → nat) (fuel : nat) (id : string)
    (content_to_trace : text) (st : TraceState) :
  (∀ id card ref,
     card_dict (agent_state st) !! id = Some card →
     ref ∈ card_ref_explicit card → (rank ref < rank id)%nat) →
  (rank id < fuel)%nat →
  ∃ r st', trace_source fuel id content_to_trace st = Some (r, st').
Proof.
  intros Hrank Hfuel.
  assert (∀ {A B} (m : F A) (k : A → F B) s,
            (∃ r s', m s = Some (r, s')
                     ∧ ∀ a, r = Ok a → ∃ r' s'', k a s' = Some (r', s'')) →
            ∃ r s', bindF m k s = Some (r, s')) as Hbind.
  { intros A B m k s (r & s' & Hm & Hk). unfold bindF. rewrite Hm.
    destruct r as [a|e]; [by apply Hk|by eexists _, _]. }
  assert (∀ fuel node content s,
            agent_state s = agent_state st →
            (rank (node_card_id node) < fuel)%nat →
            ∃ r s', _trace_node_recursive fuel node content s = Some (r, s'))
    as Hnode.
  { clear fuel Hfuel. induction fuel as [|fuel IH];
      intros node content s Hs Hfuel; [lia|]. simpl.
    apply Hbind. unfold run at 1.
    unfold _get_card_explicit_refs, mbind, M_bind, bindM, get_card,
      Turn.get_info_card.
    rewrite Hs.
    destruct (card_dict (agent_state st) !! node_card_id node)
      as [card|] eqn:Hcard; [|by eexists _, _; split; [done|]].
    eexists _, _. split; [done|]. intros refs [= <-].
    assert (∀ ref, ref ∈ card_ref_explicit card → (rank ref < fuel)%nat)
      as Hlt.
    { intros ref Hin. specialize (Hrank _ _ _ Hcard Hin). lia. }
    destruct (card_ref_explicit card) as [|ref0 refs0] eqn:Hexp;
      [by eexists _, _|].
    rewrite <- Hexp in *. clear Hexp.
    assert (∀ refs, (∀ ref, ref ∈ refs → ref ∈ card_ref_explicit card) →
            ∀ found nodes s1, agent_state s1 = agent_state st →
            ∃ r s2, check_refs (_trace_node_recursive fuel) refs content
                      found nodes s1 = Some (r, s2)) as Hloop.
    { induction refs as [|ref refs IHr]; intros Hin found nodes s1 Hs1;
        simpl; [by eexists _, _|].
      apply Hbind.
      destruct (_find_support_in_card content ref 3 s1) as [res s2] eqn:Hfind.
      pose proof (keeps_find_support content ref 3 s1) as [[Ha2 _] _].
      rewrite Hfind in Ha2. simpl in Ha2.
      exists res, s2. split; [by unfold run; rewrite Hfind|].
      intros a ->.
      assert (∃ r s3, check_refs (_trace_node_recursive fuel) refs content
                        found nodes s2 = Some (r, s3)) as Hskip.
      { apply IHr; [intros; apply Hin; by right|congruence]. }
      destruct (found_support_content_list a) as [[|x l]|]; try done.
      destruct (jtruthy (has_support a)); [|done].
      apply Hbind.
      destruct ((_get_card_main_content ref
                 ≫= λ mc, _apply_highlight_to_content mc (x :: l)) s2)
        as [hl s3] eqn:Hhl.
      assert (quiet s2 s3) as [[Ha3 _] _].
      { pose proof (keeps_bind (_get_card_main_content ref)
                      (λ mc, _apply_highlight_to_content mc (x :: l))
                      (keeps_main_content ref)
                      (λ mc, keeps_apply_highlight mc (x :: l)) s2) as Hq.
        by rewrite Hhl in Hq. }
      exists hl, s3. split; [by unfold run; rewrite Hhl|].
      intros mc ->. apply Hbind. eexists _, _. split; [done|].
      intros cc _. apply Hbind.
      destruct (IH (new_node ref (Some (x :: l)) (Some mc)) cc s3)
        as (r4 & s4 & Hrec); [congruence|apply Hlt, Hin; by left|].
      exists r4, s4. split; [done|]. intros child ->.
      apply IHr; [intros; apply Hin; by right|].
      destruct (keepsF_trace_node _ _ _ _ _ _ Hrec) as [Ha4 _]. congruence. }
    destruct (Hloop (card_ref_explicit card) ltac:(done) false [] s Hs)
      as (r & s2 & Hcheck).
    apply Hbind. exists r, s2. split; [done|].
    intros [found nodes] _. destruct found; by eexists _, _. }
  unfold trace_source.
  apply Hbind. eexists _, _. split; [done|]. intros _ _.
  apply Hbind.
  destruct (_extract_support_from_source_card content_to_trace id 3
              (set_trace_failed false st)) as [ex s2] eqn:Hex.
  pose proof (keeps_extract content_to_trace id 3 (set_trace_failed false st))
    as [[Ha2 _] _].
  rewrite Hex in Ha2. simpl in Ha2.
  exists ex, s2. split; [by unfold run; rewrite Hex|]. intros er ->.
  apply Hbind.
  destruct ((_get_card_main_content id
             ≫= λ mc, _apply_highlight_to_content mc
                         (extracted_content_list er)) s2)
    as [hl s3] eqn:Hhl.
  assert (quiet s2 s3) as [[Ha3 _] _].
  { pose proof (keeps_bind (_get_card_main_content id)
                  (λ mc, _apply_highlight_to_content mc
                           (extracted_content_list er))
                  (keeps_main_content id)
                  (λ mc, keeps_apply_highlight mc _) s2) as Hq.
    by rewrite Hhl in Hq. }
  exists hl, s3. split; [by unfold run; rewrite Hhl|].
  intros mc ->. apply Hbind. eexists _, _. split; [done|].
  intros cc _. apply Hbind.
  destruct (Hnode fuel (new_node id (Some (extracted_content_list er))
                          (Some mc)) cc s3) as (r4 & s4 & Hrec);
    [congruence|done|].
  exists r4, s4. split; [done|]. intros root ->.
  apply Hbind. eexists _, _. split; [done|]. intros s5 _. by eexists _, _.
Qed.

End trace_tree.

(** ** Examples of a trace *)

Section trace_examples.
Import Tracing.

Definition quoted (s : text) : text :=
  double_quote_char :: s ++ [double_quote_char].

(** A serializer for the example: compact JSON of values whose strings need
    no escape. *)
Fixpoint example_dumps (v : jval) : text :=
  match v with
  | JNull => lit "null"
  | JBool b => if b then lit "true" else lit "false"
  | JNum z => lit (pretty z)
  | JStr s => quoted s
  | JArr items => lit "[" ++ join_text (lit ", ") (map example_dumps items)
                  ++ lit "]"
  | JObj fields =>
      lit "{"
      ++ join_text (lit ", ")
           (map (λ kv, match kv with
                       | (k, x) => quoted (lit k) ++ lit ": " ++ example_dumps x
                       end) fields)
      ++ lit "}"
  end.

(** The arguments [{"extracted_content_list": ["Solar grows"]}]. *)
Definition extraction_arguments : text :=
  lit "{" ++ quoted (lit "extracted_content_list") ++ lit ": ["
  ++ quoted (lit "Solar grows") ++ lit "]}".

(** The arguments
    [{"has_support": true, "support_content_list": ["capacity grows"]}]. *)
Definition support_arguments : text :=
  lit "{" ++ quoted (lit "has_support") ++ lit ": true, "
  ++ quoted (lit "support_content_list") ++ lit ": ["
  ++ quoted (lit "capacity grows") ++ lit "]}".

(** The arguments [{"has_support": false}]. *)
Definition no_support_arguments : text :=
  lit "{" ++ quoted (lit "has_support") ++ lit ": false}".

Definition example_loads (t : text) : string + jval :=
  if bool_decide (t = extraction_arguments)
  then inr (JObj [("extracted_content_list", JArr [JStr (lit "Solar grows")])])
  else if bool_decide (t = support_arguments)
  then inr (JObj [("has_support", JBool true);
                  ("support_content_list", JArr [JStr (lit "capacity grows")])])
  else if bool_decide (t = no_support_arguments)
  then inr (JObj [("has_support", JBool false)])
  else inl "Expecting value: line 1 column 1 (char 0)".

Definition tool_response (id name : string) (arguments : text) : LlmResponse :=
  {| response_content := None;
     response_tool_calls :=
       [{| call_id := id; call_name := name; call_arguments := arguments |}] |}.

(** A service that answers the first extraction request without a tool
    call and the next one with a snippet, and that answers a support request
    with a supporting snippet when [supports] and without support
    otherwise. *)
Definition example_trace_env (supports : bool) : TraceEnvironment :=
  {| json_loads := example_loads;
     json_dumps := example_dumps;
     llm_message_completion_with_tool_call := λ log _ tool,
       match tool with
       | ROOT_CONTENT_EXTRACTION_TOOL =>
           match log with
           | [] => Ok {| response_content := Some (lit "It is about solar.");
                         response_tool_calls := [] |}
           | _ => Ok (tool_response "call_1" "report_extraction_result"
                        extraction_arguments)
           end
       | SUPPORT_FINDING_TOOL =>
           Ok (tool_response "call_2" "report_support_finding_result"
                 (if supports then support_arguments
                  else no_support_arguments))
       end;
     project_id := "project_1";
     agent_id := "agent_1" |}.

(** A search card whose result list is the object at address 1. *)
Definition search_card : InfoCard :=
  {| card_id := "1"; status := completed;
     card_title := Some (lit "solar power");
     card_content := WebSearchContent (lit "solar power") (Some 1%positive);
     card_ref_implicit := []; card_ref_explicit := [] |}.

(** A note that cites the search card. *)
Definition note_card : InfoCard :=
  {| card_id := "2"; status := completed;
     card_title := Some (lit "Findings");
     card_content :=
       NoteContent (lit "Findings") (Some (lit "Solar grows fast."));
     card_ref_implicit := ["1"]; card_ref_explicit := ["1"] |}.

(** The two cards, and the result list of the search card: one item. *)
Definition example_trace_state : TraceState :=
  {| lists := {[ 1%positive := [2%positive] ]};
     dicts := {[ 2%positive :=
                   {[ "title" := JStr (lit "Solar report");
                      "snippet" :=
                        JStr (lit "Installed capacity grows every year.") ]} ]};
     agent_state :=
       set_cards {[ "1" := search_card; "2" := note_card ]} (Some "2")
         initial_agent_state;
     trace_failed := false;
     llm_log := [] |}.

Definition traced_fragment : text := lit "Solar grows".

Lemma deepcopy_is_new_witness :
  let st := example_trace_state in
  let st' := (deepcopy 1%positive st).2 in
  agent_state st' = agent_state st ∧ trace_failed st' = trace_failed st
  ∧ llm_log st' = llm_log st
  ∧ lists st ⊆ lists st' ∧ dicts st ⊆ dicts st'
  ∧ ∃ l' items',
      (deepcopy 1%positive st).1 = Ok l' ∧ (l' ∉ dom (lists st))
      ∧ lists st' !! l' = Some items'
      ∧ Forall (λ k', k' ∉ dom (dicts st)) items'
      ∧ Forall2 (λ k k', dicts st' !! k' = Some (dict_at st k))
          (list_at st 1%positive) items'.
Proof.
  apply (deepcopy_is_new 1%positive example_trace_state). reflexivity.
Defined.

Lemma trace_keeps_stored_content_witness :
  ∃ r st',
    @trace_source (example_trace_env true) no_rapidfuzz 2 "2" traced_fragment
      example_trace_state = Some (r, st')
    ∧ agent_state st' = agent_state example_trace_state
    ∧ (∀ l items, lists example_trace_state !! l = Some items →
                  lists st' !! l = Some items)
    ∧ (∀ k d, dicts example_trace_state !! k = Some d →
              dicts st' !! k = Some d).
Proof.
  eexists _, _. split; [vm_compute; reflexivity|].
  eapply (@trace_keeps_stored_content (example_trace_env true) no_rapidfuzz
            2 "2" traced_fragment example_trace_state).
  vm_compute; reflexivity.
Defined.

Lemma extraction_retries_witness :
  let run := @_extract_support_from_source_card (example_trace_env true)
               traced_fragment "2" 3 example_trace_state in
  lists run.2 = lists example_trace_state
  ∧ dicts run.2 = dicts example_trace_state
  ∧ agent_state run.2 = agent_state example_trace_state
  ∧ trace_failed run.2 = trace_failed example_trace_state
  ∧ ∃ calls,
      llm_log run.2 = llm_log example_trace_state ++ calls
      ∧ (length calls ≤ 3)%nat
      ∧ Forall (λ c, request_tools c = ROOT_CONTENT_EXTRACTION_TOOL) calls
      ∧ (∀ i c, calls !! i = Some c →
           length (request_messages c) = (3 + 2 * i)%nat)
      ∧ (∀ r, run.1 = Ok r → extracted_content_list r ≠ [])
      ∧ ((calls = []
          ∧ ∃ e, run.1 = Raise e
                 ∧ (@_get_card_content (example_trace_env true) "2"
                      example_trace_state).1 = Raise e)
         ∨ (length calls = 3%nat
            ∧ Forall (@retried (example_trace_env true)) calls
            ∧ run.1 = Raise (failed_after "_extract_support_from_source_card" 3))
         ∨ (∃ earlier last,
              calls = earlier ++ [last]
              ∧ Forall (@retried (example_trace_env true)) earlier
              ∧ @last_call (example_trace_env true) traced_fragment last run.1)).
Proof.
  apply (@extraction_retries (example_trace_env true) traced_fragment "2"
           example_trace_state).
  vm_compute; reflexivity.
Defined.

Definition note_node : TraceResultNode :=
  new_node "2" (Some [JStr traced_fragment]) None.

Lemma trace_node_children_witness :
  ∃ r st',
    @_trace_node_recursive (example_trace_env true) no_rapidfuzz 2 note_node
      traced_fragment example_trace_state = Some (Ok r, st')
    ∧ ∃ card cs,
        card_dict (agent_state example_trace_state) !! node_card_id note_node
        = Some card
        ∧ r = Node (node_card_id note_node) (support_content_list note_node)
                (card_main_content_with_highlight note_node) (Some cs)
        ∧ ((card_ref_explicit card = [] ∧ cs = []
            ∧ st' = example_trace_state)
           ∨ (card_ref_explicit card ≠ []
              ∧ cs = (λ ref, Node ref None None None)
                       <$> card_ref_explicit card
              ∧ trace_failed st' = true)
           ∨ (cs ≠ []
              ∧ sublist (node_card_id <$> cs) (card_ref_explicit card)
              ∧ Forall supporting cs)).
Proof.
  eexists _, _. split; [vm_compute; reflexivity|].
  apply (@trace_node_children (example_trace_env true) no_rapidfuzz 2
           note_node traced_fragment example_trace_state).
  vm_compute; reflexivity.
Defined.

Lemma trace_status_reflects_tree_witness :
  ∃ res st',
    @trace_source (example_trace_env false) no_rapidfuzz 2 "2" traced_fragment
      example_trace_state = Some (Ok res, st')
    ∧ trace_failed st' = has_null (trace_result_tree res)
    ∧ trace_status res =
        (if has_null (trace_result_tree res) then "Failed" else "Success")
    ∧ result_project_id res = "project_1"
    ∧ node_card_id (trace_result_tree res) = "2"
    ∧ ∃ l, support_content_list (trace_result_tree res) = Some l ∧ l ≠ [].
Proof.
  eexists _, _. split; [vm_compute; reflexivity|].
  apply (@trace_status_reflects_tree (example_trace_env false) no_rapidfuzz
           2 "2" traced_fragment example_trace_state).
  vm_compute; reflexivity.
Defined.

Lemma unsupported_node_witness :
  ∃ st',
    @_trace_node_recursive (example_trace_env false) no_rapidfuzz 1 note_node
      traced_fragment example_trace_state
    = Some (Ok (Node "2" (Some [JStr traced_fragment]) None
                  (Some [Node "1" None None None])), st')
    ∧ trace_failed st' = true
    ∧ agent_state st' = agent_state example_trace_state
    ∧ lists st' = lists example_trace_state
    ∧ dicts st' = dicts example_trace_state.
Proof.
  apply (@unsupported_node (example_trace_env false) no_rapidfuzz 0 note_node
           traced_fragment example_trace_state note_card).
  - reflexivity.
  - done.
  - intros ref st1 Hin Ha Hl Hd.
    apply list_elem_of_singleton in Hin as ->.
    destruct st1 as [ls ds a f log]. simpl in Ha, Hl, Hd. subst ls ds a.
    eexists _, _. split; [reflexivity|]. by left.
Defined.

Definition example_rank (id : string) : nat :=
  if bool_decide (id = "2") then 1 else 0.

Lemma trace_terminates_witness :
  ∃ r st',
    @trace_source (example_trace_env true) no_rapidfuzz 2 "2" traced_fragment
      example_trace_state = Some (r, st').
Proof.
  apply (@trace_terminates (example_trace_env true) no_rapidfuzz example_rank
           2 "2" traced_fragment example_trace_state).
  - intros id card ref Hcard Hin. simpl in Hcard.
    apply lookup_insert_Some in Hcard as [[<- <-]|[_ Hcard]];
      [by apply elem_of_nil in Hin|].
    apply lookup_singleton_Some in Hcard as [<- <-].
    apply list_elem_of_singleton in Hin as ->.
    unfold example_rank. simpl. lia.
  - unfold example_rank. simpl. lia.
Defined.

End trace_examples.
